(** * Version words and contention manager of the STO transactional memory

    A shallow embedding of [EagerVersions.hh] (classes [TLockVersion] and
    [TSwissVersion]) and of [ContentionManager.cc], followed by the
    properties their design document states about them.

    Machine integers are [Z] with the wrap-around written out, the version
    word is a memory cell shared with other threads, and every member
    function is a computation in a small state-and-error monad. *)

From stdpp Require Import base option list numbers.
From Stdlib Require Import ZArith Lia.

Local Open Scope Z_scope.

(** * Part I: the program *)

(** ** Failures

    What a C++ execution can run into besides returning: a failed [assert]
    (fatal), undefined behaviour of three kinds, and, for the model only, a
    loop that used up its fuel. *)
Inductive error : Type :=
  | AssertionFailed
  | SignedOverflow
  | OutOfBounds (index : Z)
  | DivisionByZero
  | OutOfFuel.

(** ** The state-and-error monad *)
Definition M (S A : Type) : Type := S -> error + A * S.

#[global] Instance M_ret {S} : MRet (M S) := fun A a s => inr (a, s).
#[global] Instance M_bind {S} : MBind (M S) := fun A B f m s =>
  match m s with
  | inl e => inl e
  | inr (a, s') => f a s'
  end.
#[global] Instance M_throw {S} : MThrow error (M S) := fun A e s => inl e.

Definition get {S} : M S S := fun s => inr (s, s).
Definition put {S} (s : S) : M S unit := fun _ => inr (tt, s).
Definition modify {S} (f : S -> S) : M S unit := fun s => inr (tt, f s).

(** [n] runs of [op] in a row, with what each returned. *)
Fixpoint replicateM {S A} (n : nat) (op : M S A) : M S (list A) :=
  match n with
  | O => mret []
  | Datatypes.S n' => a ← op; rest ← replicateM n' op; mret (a :: rest)
  end.

(** [assert(c)] of <assert.h>: a false condition ends the program. *)
Definition assert {S} (c : bool) : M S unit :=
  if c then mret tt else mthrow AssertionFailed.

(** ** Fixed-width unsigned arithmetic *)
Definition wrap (bits x : Z) : Z := x mod 2 ^ bits.

(** [~x] on an unsigned integer of [bits] bits. *)
Definition bnot (bits x : Z) : Z := Z.land (Z.lnot x) (Z.ones bits).

(** [int] is 32 bits wide; overflow of a signed operation is undefined. *)
Definition INT_MIN : Z := - 2 ^ 31.
Definition INT_MAX : Z := 2 ^ 31 - 1.
Definition is_int (x : Z) : Prop := INT_MIN <= x <= INT_MAX.

Definition int_mul {S} (x y : Z) : M S Z :=
  let r := x * y in
  if (INT_MIN <=? r) && (r <=? INT_MAX) then mret r else mthrow SignedOverflow.

(** ** [TransactionTid]: the layout of a version word

    [VersionBase.hh], which declares [TransactionTid] and [BasicVersion], is
    not among the sources.  Its constants are taken as parameters: the width
    of [TransactionTid::type] and the five masks the two classes use. *)
Module TransactionTid.

Record layout : Type := Layout {
  type_bits : Z;
  threadid_mask : Z;
  lock_bit : Z;
  opt_bit : Z;
  dirty_bit : Z;
  nonopaque_bit : Z
}.

(** The partition the two classes rely on.  The fields are disjoint, as
    the design document has it: the owner (or reader count) field is the
    low [field_bits] bits, and the lock, optimistic-hint and dirty flags are
    single bits above it, inside the word, the lock bit apart from the two
    others.  [try_lock_read] counts up to [0x10] in the field, which
    therefore has five bits at least. *)
Inductive well_formed (L : layout) : Prop :=
  WellFormed (field_bits lock_pos opt_pos dirty_pos : Z)
    (wf_mask : threadid_mask L = Z.ones field_bits)
    (wf_field : 5 <= field_bits)
    (wf_lock : lock_bit L = 2 ^ lock_pos)
    (wf_opt : opt_bit L = 2 ^ opt_pos)
    (wf_dirty : dirty_bit L = 2 ^ dirty_pos)
    (wf_lock_pos : field_bits <= lock_pos < type_bits L)
    (wf_opt_pos : field_bits <= opt_pos < type_bits L)
    (wf_dirty_pos : field_bits <= dirty_pos < type_bits L)
    (wf_lock_opt : lock_pos <> opt_pos)
    (wf_lock_dirty : lock_pos <> dirty_pos).

Section Helpers.
Context (L : layout).

(** A value of [TransactionTid::type]. *)
Definition is_word (v : Z) : Prop := 0 <= v < 2 ^ type_bits L.

(** Modelled from the spec: [TransactionTid::is_locked] is declared in
    the absent [VersionBase.hh].  The lock bit is set iff a writer
    owns the object. *)
Definition is_locked (v : Z) : bool :=
  negb (Z.land v (lock_bit L) =? 0).

(** Modelled from the spec: [TransactionTid::is_locked_here] is declared
    in the absent [VersionBase.hh].  The word is locked and its owner
    field names thread [here]. *)
Definition is_locked_here (v here : Z) : bool :=
  Z.land v (Z.lor (lock_bit L) (threadid_mask L)) =? Z.lor (lock_bit L) here.

(** Modelled from the spec: the word [TransactionTid::unlock] stores,
    declared in the absent [VersionBase.hh].  Unlocking clears the lock
    and the dirty bit; the owner field, meaningful only while the lock
    bit is set, goes with the lock. *)
Definition unlocked (v : Z) : Z :=
  Z.land v (bnot (type_bits L)
              (Z.lor (Z.lor (lock_bit L) (threadid_mask L)) (dirty_bit L))).

(** The fields of a word, read the way the source reads them. *)
Definition owner (v : Z) : Z := Z.land v (threadid_mask L).
Definition is_dirty (v : Z) : bool := negb (Z.land v (dirty_bit L) =? 0).
End Helpers.

(** [k] is the width of the owner or reader-count field of [L] and [p] the
    position of a flag above it. *)
Definition placed (L : layout) (k p : Z) : Prop :=
  threadid_mask L = Z.ones k /\ 5 <= k /\ k < type_bits L /\
  k <= p < type_bits L.

(** Words [a] and [b] agree on every bit that is not in the mask [m]. *)
Definition same_outside (m a b : Z) : Prop :=
  forall i, 0 <= i -> Z.testbit m i = false -> Z.testbit a i = Z.testbit b i.

(** A partition to try the statements on: a 64-bit word whose five low
    bits hold the owner (thread ids 0..31, the ids the contention manager
    has slots for) or the reader count, with the flags above them. *)
Definition sto : layout :=
  {| type_bits := 64;
     threadid_mask := 0x1F;
     lock_bit := 0x20;
     opt_bit := 0x200;
     dirty_bit := 0x100;
     nonopaque_bit := 0x40 |}.

End TransactionTid.

(** ** The version word as shared memory

    [v_] is read and written by every thread.  A member function runs on a
    [cell]: the current word, the moves of the other threads still to come
    (one is played before each access of [v_]; when none is left the
    function runs alone), the outcomes of the calling thread's random
    generator (adaptive build), and the record of what the function did. *)
Inductive event : Type :=
  | Load (v : Z)
  | Store (v : Z)
  | Cas (expected desired : Z) (success : bool)
  | FetchAndAdd (old delta : Z)
  | RelaxFence
  | ReleaseFence.

Record cell : Type := Cell {
  v_ : Z;
  others : list (Z -> Z);
  chances : list bool;
  trace : list event
}.

Section Memory.
Context (L : TransactionTid.layout).

(** The cell after one more entry in its record. *)
Definition logged (e : event) (c : cell) : cell :=
  {| v_ := v_ c; others := others c; chances := chances c;
     trace := trace c ++ [e] |}.

(** The cell after the next move of the other threads, if any is left. *)
Definition moved (c : cell) : cell :=
  match others c with
  | [] => c
  | f :: rest => {| v_ := wrap (TransactionTid.type_bits L) (f (v_ c));
                    others := rest; chances := chances c; trace := trace c |}
  end.

(** The cell holding [x]. *)
Definition with_v (x : Z) (c : cell) : cell :=
  {| v_ := x; others := others c; chances := chances c; trace := trace c |}.

Definition record (e : event) : M cell unit := modify (logged e).
Definition interfere : M cell unit := modify moved.
Definition set_v (x : Z) : M cell unit := modify (with_v x).

(** [type vv = v_;] *)
Definition load : M cell Z :=
  interfere;; c ← get; record (Load (v_ c));; mret (v_ c).

(** [v_ = x;] *)
Definition store (x : Z) : M cell unit :=
  interfere;; set_v x;; record (Store x).

(** [::bool_cmpxchg(&v_, expected, desired)] *)
Definition bool_cmpxchg (expected desired : Z) : M cell bool :=
  interfere;; c ← get;
  if v_ c =? expected
  then set_v desired;; record (Cas expected desired true);; mret true
  else record (Cas expected desired false);; mret false.

(** [__sync_fetch_and_add(&v_, delta)] *)
Definition fetch_and_add (delta : Z) : M cell Z :=
  interfere;; c ← get;
  set_v (wrap (TransactionTid.type_bits L) (v_ c + delta));; record (FetchAndAdd (v_ c) delta);;
  mret (v_ c).

Definition relax_fence : M cell unit := record RelaxFence.
Definition release_fence : M cell unit := record ReleaseFence.

(** The cell after the calling thread's generator has given its next
    outcome. *)
Definition flipped (c : cell) : cell :=
  {| v_ := v_ c; others := others c; chances := tl (chances c); trace := trace c |}.

(** [TThread::gen[TThread::id()].chance(...)]: the next outcome of the
    generator; a generator with no outcome left answers no. *)
Definition chance : M cell bool :=
  c ← get; put (flipped c);; mret (hd false (chances c)).

(** [while (true) { ... }] whose body either returns or goes round again. *)
Fixpoint while_true {A} (fuel : nat) (body : M cell (option A)) : M cell A :=
  match fuel with
  | O => mthrow OutOfFuel
  | S n => r ← body;
           match r with
           | Some a => mret a
           | None => while_true n body
           end
  end.

(** A compare-and-swap loop goes round again only when another thread
    moved between its load and its swap, so one round more than there are
    moves left is enough. *)
Definition cas_loop {A} (body : M cell (option A)) : M cell A :=
  c ← get; while_true (S (length (others c))) body.
End Memory.

(** *** Release ordering

    A store has release ordering through a fence when the release fence is
    sequenced before it: the writes made earlier are then visible to a
    thread that reads the stored word.  A fence issued after the store
    orders nothing before it.  [stores x tr]: the events [tr] hold a store
    of [x]; [release_ordered x tr]: they hold one after a release fence. *)
Fixpoint stores (x : Z) (tr : list event) : bool :=
  match tr with
  | [] => false
  | Store y :: rest => (y =? x) || stores x rest
  | _ :: rest => stores x rest
  end.

Fixpoint release_ordered (x : Z) (tr : list event) : bool :=
  match tr with
  | [] => false
  | ReleaseFence :: rest => stores x rest
  | _ :: rest => release_ordered x rest
  end.

(** ** The interface of a transactional item and of a transaction

    Both classes are external; the functions below ask them only these
    questions. *)
Record TransItem : Type := {
  needs_unlock : bool;
  has_write : bool;
  has_read : bool
}.

Record Transaction : Type := {
  threadid : Z;
  is_restarted : bool
}.

Module LockResponse.
Inductive t : Type := locked | failed | optimistic | spin.
End LockResponse.

(** ** [class TLockVersion]: the reader/writer lock *)
Module TLockVersion.
Import LockResponse.

Section TLockVersion.
Context (L : TransactionTid.layout).
(** [#define ADAPTIVE_RWLOCK 0] unless the build says otherwise. *)
Context (ADAPTIVE_RWLOCK : bool).

Definition mask : Z := TransactionTid.threadid_mask L.
Definition rlock_cnt_max : Z := 0x10.
Definition lock_bit : Z := TransactionTid.lock_bit L.
Definition opt_bit : Z := TransactionTid.opt_bit L.

Local Abbreviation type_bits := (TransactionTid.type_bits L).
(** [~x] at the width of the word. *)
Local Abbreviation NOT := (bnot type_bits).

Definition hint_optimistic : M cell bool :=
  v ← load L; mret (negb (Z.land v opt_bit =? 0)).

(** One round of the loop of [try_lock_read]; [None] goes round again. *)
Definition try_lock_read_round : M cell (option (LockResponse.t * Z)) :=
  vv ← load L;
  let write_locked := negb (Z.land vv lock_bit =? 0) in
  let rlock_cnt := Z.land vv mask in
  let rlock_avail := rlock_cnt <? rlock_cnt_max in
  if write_locked then mret (Some (spin, 0))
  else if negb rlock_avail then mret (Some (optimistic, vv))
  else
    ok ← bool_cmpxchg L vv (Z.lor (Z.land vv (NOT mask)) (wrap type_bits (rlock_cnt + 1)));
    if (ok : bool) then mret (Some (locked, 0))
    else relax_fence;; mret None.

Definition try_lock_read : M cell (LockResponse.t * Z) :=
  cas_loop try_lock_read_round.

(** One round of the loop of [try_lock_write]. *)
Definition try_lock_write_round : M cell (option LockResponse.t) :=
  vv ← load L;
  let write_locked := negb (Z.land vv lock_bit =? 0) in
  let read_locked := negb (Z.land vv mask =? 0) in
  if write_locked || read_locked then mret (Some spin)
  else
    ok ← bool_cmpxchg L vv
           (if ADAPTIVE_RWLOCK
            then Z.land (Z.lor vv lock_bit) (NOT opt_bit)
            else Z.lor vv lock_bit);
    if (ok : bool) then mret (Some locked)
    else relax_fence;; mret None.

Definition try_lock_write : M cell LockResponse.t :=
  cas_loop try_lock_write_round.

Definition try_upgrade : M cell LockResponse.t :=
  vv ← load L;
  let rlock_cnt := Z.land vv mask in
  assert (negb (TransactionTid.is_locked L vv));;
  assert (1 <=? rlock_cnt);;
  if rlock_cnt =? 1
  then ok ← bool_cmpxchg L vv (Z.lor (wrap type_bits (vv - 1)) lock_bit);
       if (ok : bool) then mret locked else mret spin
  else mret spin.

(** One round of the loop of the adaptive [unlock_read]. *)
Definition unlock_read_round : M cell (option unit) :=
  vv ← load L;
  assert (1 <=? Z.land vv (TransactionTid.threadid_mask L));;
  c ← chance;
  let new_v := if (c : bool) then Z.lor (wrap type_bits (vv - 1)) opt_bit
               else wrap type_bits (vv - 1) in
  ok ← bool_cmpxchg L vv new_v;
  if (ok : bool) then mret (Some tt)
  else relax_fence;; mret None.

Definition unlock_read : M cell unit :=
  if ADAPTIVE_RWLOCK
  then cas_loop unlock_read_round
  else vv ← fetch_and_add L (-1);
       assert (1 <=? Z.land vv mask).

Definition unlock_write : M cell unit :=
  v ← load L;
  assert (TransactionTid.is_locked L v);;
  new_v ← (if ADAPTIVE_RWLOCK
           then c ← chance;
                v ← load L;
                if (c : bool) then mret (Z.lor (Z.land v (NOT lock_bit)) opt_bit)
                else mret (Z.land v (NOT lock_bit))
           else v ← load L; mret (Z.land v (NOT lock_bit)));
  store L new_v;;
  release_fence.

Definition cp_try_lock_impl (threadid : Z) : M cell bool :=
  r ← try_lock_write;
  mret (match r with locked => true | _ => false end).

Definition cp_unlock_impl (item : TransItem) : M cell unit :=
  assert (needs_unlock item);;
  if has_write item then unlock_write
  else assert (has_read item);; unlock_read.

(** *** The states of the lock

    The reader count of a word, and the words in which the lock bit and
    the readers exclude each other and the readers are at most the
    maximum. *)
Definition rlock_cnt (v : Z) : Z := Z.land v mask.

Definition consistent (v : Z) : Prop :=
  TransactionTid.is_word L v /\
  rlock_cnt v <= rlock_cnt_max /\
  (TransactionTid.is_locked L v = true -> rlock_cnt v = 0).

(** A move of another thread that takes consistent words to consistent
    words. *)
Definition polite (f : Z -> Z) : Prop :=
  forall v, consistent v -> consistent (wrap type_bits (f v)).

Inductive operation : Type :=
  | op_try_lock_read
  | op_try_lock_write
  | op_unlock_read
  | op_unlock_write.

Definition run (o : operation) : M cell unit :=
  match o with
  | op_try_lock_read => try_lock_read;; mret tt
  | op_try_lock_write => try_lock_write;; mret tt
  | op_unlock_read => unlock_read
  | op_unlock_write => unlock_write
  end.

(** What a thread that runs operation [o] alone does to the word, as a
    move; a run that fails an assertion ends the program and moves
    nothing. *)
Definition move_of (o : operation) (coins : list bool) : Z -> Z :=
  fun v => match run o (Cell v [] coins []) with
           | inr (_, c') => v_ c'
           | inl _ => v
           end.

(** The words the lock can hold: it starts unlocked without readers, and
    every run of one of the four operations to its end, with polite moves
    of the other threads in between its accesses, yields the next word. *)
Inductive reachable : Z -> Prop :=
  | reachable_init (v : Z) :
      TransactionTid.is_word L v ->
      TransactionTid.is_locked L v = false -> rlock_cnt v = 0 ->
      reachable v
  | reachable_run (v : Z) (o : operation) (moves : list (Z -> Z))
      (coins : list bool) (c' : cell) :
      reachable v -> Forall polite moves ->
      run o (Cell v moves coins []) = inr (tt, c') ->
      reachable (v_ c').

(** Operations one after the other. *)
Fixpoint run_all (ops : list operation) : M cell unit :=
  match ops with
  | [] => mret tt
  | o :: rest => run o;; run_all rest
  end.

(** The loops of the class, entered on cell [c]: at the head of every
    round the cell holds a word, and it is [c] itself when no other thread
    moves. *)
Definition loop_inv (c c0 : cell) : Prop :=
  TransactionTid.is_word L (v_ c0) /\ (others c = [] -> c0 = c).

(** What [try_lock_write], entered on cell [c], has done when it returns
    [r] in cell [c']; [vv] is the word its last round loaded. *)
Definition try_lock_write_post (c : cell) (r : LockResponse.t) (c' : cell) : Prop :=
  exists vv tr, TransactionTid.is_word L vv /\
    (others c = [] -> vv = v_ c /\ tr = trace c) /\
    ((r = spin /\
      (TransactionTid.is_locked L vv = true \/ rlock_cnt vv <> 0) /\
      v_ c' = vv /\ trace c' = tr ++ [Load vv]) \/
     (r = locked /\ TransactionTid.is_locked L vv = false /\ rlock_cnt vv = 0 /\
      trace c' = tr ++ [Load vv; Cas vv (v_ c') true] /\
      TransactionTid.is_word L (v_ c') /\
      TransactionTid.is_locked L (v_ c') = true /\ rlock_cnt (v_ c') = 0 /\
      (if ADAPTIVE_RWLOCK
       then Z.land (v_ c') opt_bit = 0 /\
            TransactionTid.same_outside (Z.lor lock_bit opt_bit) (v_ c') vv
       else v_ c' = Z.lor vv lock_bit /\
            TransactionTid.same_outside lock_bit (v_ c') vv))).

End TLockVersion.
End TLockVersion.

(** ** [class TSwissVersion<Opacity>]: lock at write, publish at commit *)
Module TSwissVersion.
Section TSwissVersion.
Context (L : TransactionTid.layout).
Context (Opacity : bool).

Definition lock_bit : Z := TransactionTid.lock_bit L.
Definition threadid_mask : Z := TransactionTid.threadid_mask L.
Definition read_lock_bit : Z := TransactionTid.dirty_bit L.

(** [TSwissVersion()] *)
Definition init_default : Z :=
  if Opacity then TransactionTid.nonopaque_bit L else 0.

(** [TSwissVersion(v, insert)], built by the thread [TThread::id()]. *)
Definition init (here v : Z) (insert : bool) : Z :=
  let v0 := Z.lor v (if insert then Z.lor lock_bit here else 0) in
  if Opacity then Z.lor v0 (TransactionTid.nonopaque_bit L) else v0.

Definition cp_try_lock_impl (threadid : Z) : M cell bool :=
  v ← load L;
  assert (TransactionTid.is_locked_here L v threadid);;
  v ← load L;
  store L (Z.lor v read_lock_bit);;
  release_fence;;
  mret true.

(** Modelled from the spec: [TransactionTid::unlock] is declared in the
    absent [VersionBase.hh].  The spec has the unlock clear the lock (and
    the dirty bit) only if the word is still held by the calling thread,
    [here] for [TThread::id()], by a store with release ordering; a word
    that the caller does not hold is left as it is. *)
Definition unlock (here : Z) : M cell unit :=
  v ← load L;
  if TransactionTid.is_locked_here L v here
  then release_fence;; store L (TransactionTid.unlocked L v)
  else mret tt.

(** [cp_unlock_impl(item)], called by the thread [here]. *)
Definition cp_unlock_impl (here : Z) (item : TransItem) : M cell unit :=
  assert (needs_unlock item);;
  v ← load L;
  if TransactionTid.is_locked L v then unlock here else mret tt.

Definition is_read_locked : M cell bool :=
  v ← load L; mret (negb (Z.land v read_lock_bit =? 0)).

(** A move of another thread that leaves alone every word locked by thread
    [here], as the threads that do not hold the lock must. *)
Definition respects_owner (here : Z) (f : Z -> Z) : Prop :=
  forall v, TransactionTid.is_locked_here L v here = true -> f v = v.

End TSwissVersion.
End TSwissVersion.

(** ** [class ContentionManager] *)
Module ContentionManager.

(** The static tables, each [uint128_t name[128]]. *)
Inductive table : Type :=
  aborted | timestamp | write_set_size | abort_count | version | seed.

#[global] Instance table_eq_dec : EqDecision table.
Proof. solve_decision. Defined.

(** The static fields of the class, and the calls of [wait_cycles] made so
    far (latest last). *)
Record state : Type := State {
  ts : Z;
  aborted_ : list Z;
  timestamp_ : list Z;
  write_set_size_ : list Z;
  abort_count_ : list Z;
  version_ : list Z;
  seed_ : list Z;
  waited : list Z
}.

Definition slots (t : table) (s : state) : list Z :=
  match t with
  | aborted => aborted_ s
  | timestamp => timestamp_ s
  | write_set_size => write_set_size_ s
  | abort_count => abort_count_ s
  | version => version_ s
  | seed => seed_ s
  end.

Definition with_slots (t : table) (l : list Z) (s : state) : state :=
  match t with
  | aborted => State (ts s) l (timestamp_ s) (write_set_size_ s) (abort_count_ s) (version_ s) (seed_ s) (waited s)
  | timestamp => State (ts s) (aborted_ s) l (write_set_size_ s) (abort_count_ s) (version_ s) (seed_ s) (waited s)
  | write_set_size => State (ts s) (aborted_ s) (timestamp_ s) l (abort_count_ s) (version_ s) (seed_ s) (waited s)
  | abort_count => State (ts s) (aborted_ s) (timestamp_ s) (write_set_size_ s) l (version_ s) (seed_ s) (waited s)
  | version => State (ts s) (aborted_ s) (timestamp_ s) (write_set_size_ s) (abort_count_ s) l (seed_ s) (waited s)
  | seed => State (ts s) (aborted_ s) (timestamp_ s) (write_set_size_ s) (abort_count_ s) (version_ s) l (waited s)
  end.

(** The definitions at the end of [ContentionManager.cc]: [ts = 0] and
    zero-filled tables of 128 entries. *)
Definition table_size : nat := 128.
Definition initial : state :=
  let zeros := replicate table_size 0 in
  State 0 zeros zeros zeros zeros zeros zeros [].

(** Every table has its declared size. *)
Definition sized (s : state) : Prop :=
  forall t, length (slots t s) = table_size.

(** [name[i]] as an rvalue; an index outside the table is undefined. *)
Definition read (t : table) (i : Z) : M state Z :=
  s ← get;
  if i <? 0 then mthrow (OutOfBounds i)
  else match slots t s !! Z.to_nat i with
       | Some x => mret x
       | None => mthrow (OutOfBounds i)
       end.

(** [name[i] = x]. *)
Definition write (t : table) (i x : Z) : M state unit :=
  s ← get;
  if i <? 0 then mthrow (OutOfBounds i)
  else if (Z.to_nat i <? length (slots t s))%nat
       then put (with_slots t (<[Z.to_nat i := x]> (slots t s)) s)
       else mthrow (OutOfBounds i).

Definition with_ts (x : Z) (s : state) : state :=
  State x (aborted_ s) (timestamp_ s) (write_set_size_ s) (abort_count_ s)
    (version_ s) (seed_ s) (waited s).

Definition with_waited (l : list Z) (s : state) : state :=
  State (ts s) (aborted_ s) (timestamp_ s) (write_set_size_ s) (abort_count_ s)
    (version_ s) (seed_ s) l.

(** [fetch_and_add(&ts, delta)] on the 64-bit counter. *)
Definition fetch_and_add_ts (delta : Z) : M state Z :=
  s ← get;
  put (with_ts (wrap 64 (ts s + delta)) s);;
  mret (ts s).

(** [wait_cycles(n)]: spins for [n] cycles; the model notes the call. *)
Definition wait_cycles (n : Z) : M state unit :=
  modify (fun s => with_waited (waited s ++ [n]) s).

(** A run that made no access outside a table: it failed neither on an
    index outside the table nor on the overflow of the index computation. *)
Definition in_bounds {A} (r : error + A) : Prop :=
  match r with
  | inl (OutOfBounds _) => False
  | inl SignedOverflow => False
  | _ => True
  end.

(** How the three operations fail for a thread id that has no slot: at the
    first table access, or before it when [threadid * 4] overflows. *)
Definition no_slot (t : Z) : error :=
  if (INT_MIN <=? 4 * t) && (4 * t <=? INT_MAX)
  then OutOfBounds (4 * t) else SignedOverflow.

(** The macros of the absent [ContentionManager.hh], and libc's [rand_r]
    as a function from the 32-bit generator state to the new state and the
    number drawn. *)
Record config : Type := Config {
  MAX_TS : Z;
  TS_THRESHOLD : Z;
  SUCC_ABORTS_MAX : Z;
  WAIT_CYCLES_MULTIPLICATOR : Z;
  rand_r : Z -> Z * Z
}.

(** Conversion of an integer constant or value to [uint128_t]. *)
Definition u128 (x : Z) : Z := wrap 128 x.

Section ContentionManager.
Context (C : config).

(** [rand_r((unsigned int* )&seed[i])]: the generator state is the low
    32 bits of the slot (little-endian); the rest of the slot stays. *)
Definition rand_r_seed (i : Z) : M state Z :=
  s ← read seed i;
  let low := s mod 2 ^ 32 in
  let '(low', r) := rand_r C low in
  write seed i (s - low + wrap 32 low');;
  mret r.

(** [TXP_INCREMENT], the first statement of each of the three functions,
    counts the call in the profiling counters of the transaction layer and
    touches nothing of the state here. *)
Definition on_write (tx : Transaction) : M state unit :=
  threadid ← int_mul (threadid tx) 4;
  w ← read write_set_size threadid;
  write write_set_size threadid (wrap 128 (w + 1));;
  t ← read timestamp threadid;
  if t =? u128 (MAX_TS C)
  then w ← read write_set_size threadid;
       if w =? u128 (TS_THRESHOLD C)
       then t' ← fetch_and_add_ts 1;
            write timestamp threadid t'
       else mret tt
  else mret tt.

Definition start (tx : Transaction) : M state unit :=
  threadid ← int_mul (threadid tx) 4;
  if is_restarted tx
  then write timestamp threadid (u128 (MAX_TS C));;
       write aborted threadid 0;;
       write write_set_size threadid 0
  else write timestamp threadid (u128 (MAX_TS C));;
       write aborted threadid 0;;
       write write_set_size threadid 0;;
       write abort_count threadid 0.

Definition on_rollback (tx : Transaction) : M state unit :=
  threadid ← int_mul (threadid tx) 4;
  a ← read abort_count threadid;
  (if a <? u128 (SUCC_ABORTS_MAX C)
   then write abort_count threadid (wrap 128 (a + 1))
   else mret tt);;
  r ← rand_r_seed threadid;
  a ← read abort_count threadid;
  let range := wrap 128 (a * u128 (WAIT_CYCLES_MULTIPLICATOR C)) in
  if range =? 0 then mthrow DivisionByZero
  else
    let cycles_to_wait := wrap 64 (u128 r mod range) in
    wait_cycles cycles_to_wait.

(** The calls the transaction layer makes, by any thread, and a run of
    them one after the other. *)
Inductive call : Type :=
  | call_start (tx : Transaction)
  | call_on_write (tx : Transaction)
  | call_on_rollback (tx : Transaction).

Definition perform (k : call) : M state unit :=
  match k with
  | call_start tx => start tx
  | call_on_write tx => on_write tx
  | call_on_rollback tx => on_rollback tx
  end.

Fixpoint perform_all (ks : list call) : M state unit :=
  match ks with
  | [] => mret tt
  | k :: rest => perform k;; perform_all rest
  end.

(** [n] calls of [op] in a row. *)
Fixpoint repeat_op (n : nat) (op : M state unit) : M state unit :=
  match n with
  | O => mret tt
  | S n' => op;; repeat_op n' op
  end.
End ContentionManager.

(** The transaction a call is made for, and the slot of a thread id in
    every table. *)
Definition caller (k : call) : Transaction :=
  match k with
  | call_start tx | call_on_write tx | call_on_rollback tx => tx
  end.

Definition slot_of (t : Z) : nat := Z.to_nat (4 * t).

Definition is_rollback (k : call) : bool :=
  match k with call_on_rollback _ => true | _ => false end.

(** The threads that have called [start]: [started ks st] is [st] and the
    threads [start] is called for in the run [ks].  The slot of a thread
    that never called [start] holds what the zero-filled table gave it. *)
Definition st_after (k : call) (st : list Z) : list Z :=
  match k with
  | call_start tx => threadid tx :: st
  | _ => st
  end.

Fixpoint started (ks : list call) (st : list Z) : list Z :=
  match ks with
  | [] => st
  | k :: rest => started rest (st_after k st)
  end.

(** The timestamps the started threads [st] hold: each is [MAX_TS] (none
    assigned) or was drawn from the counter and so lies below it, and no
    two of them hold the same assigned timestamp. *)
Definition stamped (C : config) (st : list Z) (s : state) : Prop :=
  0 <= ts s /\
  forall t x, t ∈ st -> 0 <= t <= 31 ->
    slots timestamp s !! slot_of t = Some x ->
    x = u128 (MAX_TS C) \/ 0 <= x < ts s.

Definition distinct_stamps (C : config) (st : list Z) (s : state) : Prop :=
  forall t1 t2 x, t1 ∈ st -> t2 ∈ st ->
    0 <= t1 <= 31 -> 0 <= t2 <= 31 -> t1 <> t2 ->
    slots timestamp s !! slot_of t1 = Some x ->
    slots timestamp s !! slot_of t2 = Some x ->
    x = u128 (MAX_TS C).

(** A configuration whose back-off window is computed without overflow and
    is never empty. *)
Definition sane (C : config) : Prop :=
  0 < u128 (SUCC_ABORTS_MAX C) /\ 0 < u128 (WAIT_CYCLES_MULTIPLICATOR C) /\
  u128 (SUCC_ABORTS_MAX C) * u128 (WAIT_CYCLES_MULTIPLICATOR C) < 2 ^ 128.

(** A configuration to try the statements on, with a linear congruential
    generator in the place of [rand_r]. *)
Definition sample : config :=
  {| MAX_TS := 2 ^ 32 - 1;
     TS_THRESHOLD := 10;
     SUCC_ABORTS_MAX := 10;
     WAIT_CYCLES_MULTIPLICATOR := 8000;
     rand_r := fun s => let s' := (s * 1103515245 + 12345) mod 2 ^ 32 in
                        (s', (s' / 65536) mod 32768) |}.

End ContentionManager.

(** * Part II: the properties *)

(** ** Running a computation *)

Lemma run_bind {S A B} (m : M S A) (f : A -> M S B) (s : S) :
  (m ≫= f) s = match m s with inl e => inl e | inr (a, s') => f a s' end.
Proof. reflexivity. Qed.

Lemma run_ret {S A} (a : A) (s : S) : (mret a : M S A) s = inr (a, s).
Proof. reflexivity. Qed.

Lemma run_assert_true {S} (s : S) : assert true s = inr (tt, s).
Proof. reflexivity. Qed.

Lemma int_mul_small {S} (x y : Z) (s : S) :
  INT_MIN <= x * y <= INT_MAX -> int_mul x y s = inr (x * y, s).
Proof.
  intros [Hlo Hhi]. unfold int_mul.
  apply Z.leb_le in Hlo. apply Z.leb_le in Hhi.
  cbv zeta. rewrite Hlo, Hhi. reflexivity.
Qed.

Lemma int_mul_large {S} (x y : Z) (s : S) :
  ¬ (INT_MIN <= x * y <= INT_MAX) -> int_mul x y s = inl SignedOverflow.
Proof.
  intros H. unfold int_mul. cbv zeta.
  destruct (INT_MIN <=? x * y) eqn:Hlo; [|reflexivity].
  destruct (x * y <=? INT_MAX) eqn:Hhi; [|reflexivity].
  apply Z.leb_le in Hlo. apply Z.leb_le in Hhi. lia.
Qed.

Lemma wrap_range bits x : 0 <= bits -> 0 <= wrap bits x < 2 ^ bits.
Proof. intros H. unfold wrap. apply Z.mod_pos_bound. apply Z.pow_pos_nonneg; lia. Qed.

Lemma wrap_small bits x : 0 <= x < 2 ^ bits -> wrap bits x = x.
Proof. intros H. unfold wrap. apply Z.mod_small. exact H. Qed.

(** ** Bits *)
Module Bits.

Lemma testbit_pow2 (l i : Z) : 0 <= l -> Z.testbit (2 ^ l) i = (l =? i).
Proof. intros Hl. apply Z.pow2_bits_eqb. exact Hl. Qed.

Lemma land_pow2_test (v l : Z) :
  0 <= l -> (Z.land v (2 ^ l) =? 0) = negb (Z.testbit v l).
Proof.
  intros Hl. destruct (Z.testbit v l) eqn:Hb; cbn [negb].
  - apply Z.eqb_neq. intros H0.
    assert (Hc : Z.testbit (Z.land v (2 ^ l)) l = true).
    { rewrite Z.land_spec, Hb, testbit_pow2, Z.eqb_refl by exact Hl. reflexivity. }
    rewrite H0, Z.bits_0 in Hc. discriminate.
  - apply Z.eqb_eq. apply Z.bits_inj'. intros i Hi.
    rewrite Z.land_spec, Z.bits_0, testbit_pow2 by exact Hl.
    destruct (Z.eqb_spec l i) as [->|_]; [rewrite Hb; reflexivity|].
    apply Bool.andb_false_r.
Qed.

Lemma testbit_bnot (w x i : Z) :
  0 <= w -> 0 <= i ->
  Z.testbit (bnot w x) i = negb (Z.testbit x i) && (i <? w).
Proof.
  intros Hw Hi. unfold bnot.
  rewrite Z.land_spec, Z.lnot_spec, Z.testbit_ones_nonneg by assumption.
  reflexivity.
Qed.

Lemma testbit_word_high (w v i : Z) :
  0 <= v < 2 ^ w -> w <= i -> Z.testbit v i = false.
Proof.
  intros Hv Hi.
  destruct (Z.eq_dec v 0) as [->|Hne]; [apply Z.bits_0|].
  apply Z.bits_above_log2; [lia|].
  assert (0 <= w) by (destruct (Z.le_gt_cases 0 w); [assumption|];
                      rewrite Z.pow_neg_r in Hv by lia; lia).
  assert (Z.log2 v < w) by (apply Z.log2_lt_pow2; lia).
  lia.
Qed.

Lemma word_of_bits (w v : Z) :
  0 <= w -> 0 <= v ->
  (forall i, w <= i -> Z.testbit v i = false) -> 0 <= v < 2 ^ w.
Proof.
  intros Hw Hv Hhigh. split; [exact Hv|].
  destruct (Z.eq_dec v 0) as [->|Hne]; [apply Z.pow_pos_nonneg; lia|].
  apply Z.log2_lt_pow2; [lia|].
  destruct (Z.lt_ge_cases (Z.log2 v) w) as [|Hge]; [assumption|].
  specialize (Hhigh _ Hge). rewrite Z.bit_log2 in Hhigh by lia. discriminate.
Qed.

Lemma land_ones_small (k c : Z) : 0 <= k -> 0 <= c < 2 ^ k -> Z.land c (Z.ones k) = c.
Proof. intros Hk Hc. rewrite Z.land_ones by exact Hk. apply Z.mod_small, Hc. Qed.

Lemma testbit_ones_false (k i : Z) :
  0 <= k -> 0 <= i -> Z.testbit (Z.ones k) i = false <-> k <= i.
Proof.
  intros Hk Hi. rewrite Z.testbit_ones_nonneg by assumption.
  destruct (Z.ltb_spec i k); split; intros; try lia; try discriminate; reflexivity.
Qed.

End Bits.

(** ** Words of a well-formed layout *)
Module WordFacts.
Import TransactionTid.

Lemma same_outside_refl (m a : Z) : same_outside m a a.
Proof. intros i _ _. reflexivity. Qed.

Lemma same_outside_trans (m a b c : Z) :
  same_outside m a b -> same_outside m b c -> same_outside m a c.
Proof. intros H1 H2 i Hi Hm. rewrite (H1 i Hi Hm). apply H2; assumption. Qed.

Lemma same_outside_lor_l (m m' a b : Z) :
  same_outside m a b -> same_outside (Z.lor m m') a b.
Proof.
  intros H i Hi Hm. rewrite Z.lor_spec in Hm.
  apply Bool.orb_false_iff in Hm. apply H; tauto.
Qed.

Lemma same_outside_lor_r (m m' a b : Z) :
  same_outside m' a b -> same_outside (Z.lor m m') a b.
Proof.
  intros H i Hi Hm. rewrite Z.lor_spec in Hm.
  apply Bool.orb_false_iff in Hm. apply H; tauto.
Qed.

Section WordFacts.
Context (L : layout) (k p : Z) (F : placed L k p).

Lemma pow_field : 32 <= 2 ^ k <= 2 ^ type_bits L.
Proof.
  pose proof F as (Hmask & Hk & Hw & Hp).
  split.
  - change 32 with (2 ^ 5). apply Z.pow_le_mono_r; lia.
  - apply Z.pow_le_mono_r; lia.
Qed.

Lemma is_word_wrap (x : Z) : is_word L (wrap (type_bits L) x).
Proof. pose proof F as (Hmask & Hk & Hw & Hp). apply wrap_range. lia. Qed.

(** The field is the word modulo [2 ^ k]. *)
Lemma field_mod (v : Z) : Z.land v (threadid_mask L) = v mod 2 ^ k.
Proof. pose proof F as (Hmask & Hk & Hw & Hp). rewrite Hmask. apply Z.land_ones. lia. Qed.

Lemma field_range (v : Z) : 0 <= Z.land v (threadid_mask L) < 2 ^ k.
Proof. pose proof F as (Hmask & Hk & Hw & Hp). rewrite field_mod. apply Z.mod_pos_bound. pose proof pow_field. lia. Qed.

Lemma outside_field (i : Z) :
  0 <= i -> Z.testbit (threadid_mask L) i = false <-> k <= i.
Proof. pose proof F as (Hmask & Hk & Hw & Hp). intros Hi. rewrite Hmask. apply Bits.testbit_ones_false; lia. Qed.

(** Two words with the same bits from [k] up and the same field are equal
    in every bit. *)
Lemma field_same (a b : Z) :
  (forall i, 0 <= i < k -> Z.testbit a i = Z.testbit b i) ->
  Z.land a (threadid_mask L) = Z.land b (threadid_mask L).
Proof.
  pose proof F as (Hmask & Hk & Hw & Hp).
  intros H. rewrite Hmask. apply Z.bits_inj'. intros i Hi.
  rewrite !Z.land_spec, Z.testbit_ones_nonneg by lia.
  destruct (Z.ltb_spec i k); [|rewrite !Bool.andb_false_r; reflexivity].
  rewrite H by lia. reflexivity.
Qed.

Lemma flag_test (v : Z) : negb (Z.land v (2 ^ p) =? 0) = Z.testbit v p.
Proof. pose proof F as (Hmask & Hk & Hw & Hp). rewrite Bits.land_pow2_test by lia. apply Bool.negb_involutive. Qed.

Lemma flag_outside_field : Z.testbit (threadid_mask L) p = false.
Proof. pose proof F as (Hmask & Hk & Hw & Hp). apply outside_field; lia. Qed.

Lemma flag_is_word : is_word L (2 ^ p).
Proof.
  pose proof F as (Hmask & Hk & Hw & Hp).
  split; [apply Z.pow_nonneg; lia|]. apply Z.pow_lt_mono_r; lia.
Qed.

(** Setting a flag. *)
Lemma set_flag_bits (v i : Z) :
  Z.testbit (Z.lor v (2 ^ p)) i = Z.testbit v i || (p =? i).
Proof. pose proof F as (Hmask & Hk & Hw & Hp). rewrite Z.lor_spec, Bits.testbit_pow2 by lia. reflexivity. Qed.

Lemma set_flag_word (v : Z) : is_word L v -> is_word L (Z.lor v (2 ^ p)).
Proof.
  pose proof F as (Hmask & Hk & Hw & Hp).
  intros Hv. apply Bits.word_of_bits; [lia| |].
  - apply Z.lor_nonneg. split; [apply Hv | apply Z.pow_nonneg; lia].
  - intros i Hi. rewrite set_flag_bits, (Bits.testbit_word_high _ v i Hv Hi).
    destruct (Z.eqb_spec p i); [lia | reflexivity].
Qed.

Lemma set_flag_same (v : Z) : same_outside (2 ^ p) (Z.lor v (2 ^ p)) v.
Proof.
  pose proof F as (Hmask & Hk & Hw & Hp).
  intros i Hi Hm. rewrite set_flag_bits.
  rewrite Bits.testbit_pow2 in Hm by lia. rewrite Hm. apply Bool.orb_false_r.
Qed.

Lemma set_flag_field (v : Z) :
  Z.land (Z.lor v (2 ^ p)) (threadid_mask L) = Z.land v (threadid_mask L).
Proof.
  pose proof F as (Hmask & Hk & Hw & Hp).
  apply field_same. intros i Hi. rewrite set_flag_bits.
  destruct (Z.eqb_spec p i); [lia | apply Bool.orb_false_r].
Qed.

(** Clearing a flag. *)
Lemma clear_flag_bits (v i : Z) :
  is_word L v -> 0 <= i ->
  Z.testbit (Z.land v (bnot (type_bits L) (2 ^ p))) i
  = Z.testbit v i && negb (p =? i).
Proof.
  pose proof F as (Hmask & Hk & Hw & Hp).
  intros Hv Hi. rewrite Z.land_spec, Bits.testbit_bnot, Bits.testbit_pow2 by lia.
  destruct (Z.ltb_spec i (type_bits L)); [rewrite Bool.andb_true_r; reflexivity|].
  rewrite (Bits.testbit_word_high _ v i Hv) by lia. reflexivity.
Qed.

Lemma clear_flag_word (v : Z) :
  is_word L v -> is_word L (Z.land v (bnot (type_bits L) (2 ^ p))).
Proof.
  pose proof F as (Hmask & Hk & Hw & Hp).
  intros Hv. apply Bits.word_of_bits; [lia| |].
  - apply Z.land_nonneg. left. apply Hv.
  - intros i Hi. rewrite clear_flag_bits by (assumption || lia).
    rewrite (Bits.testbit_word_high _ v i Hv Hi). reflexivity.
Qed.

Lemma clear_flag_same (v : Z) :
  is_word L v -> same_outside (2 ^ p) (Z.land v (bnot (type_bits L) (2 ^ p))) v.
Proof.
  pose proof F as (Hmask & Hk & Hw & Hp).
  intros Hv i Hi Hm. rewrite clear_flag_bits by assumption.
  rewrite Bits.testbit_pow2 in Hm by lia. rewrite Hm. apply Bool.andb_true_r.
Qed.

Lemma clear_flag_field (v : Z) :
  is_word L v ->
  Z.land (Z.land v (bnot (type_bits L) (2 ^ p))) (threadid_mask L)
  = Z.land v (threadid_mask L).
Proof.
  pose proof F as (Hmask & Hk & Hw & Hp).
  intros Hv. apply field_same. intros i Hi. rewrite clear_flag_bits by (assumption || lia).
  destruct (Z.eqb_spec p i); [lia | apply Bool.andb_true_r].
Qed.

(** Clearing the bits of any mask. *)
Lemma clear_mask_bits (m v i : Z) :
  is_word L v -> 0 <= i ->
  Z.testbit (Z.land v (bnot (type_bits L) m)) i
  = Z.testbit v i && negb (Z.testbit m i).
Proof.
  pose proof F as (Hmask & Hk & Hw & Hp).
  intros Hv Hi. rewrite Z.land_spec, Bits.testbit_bnot by lia.
  destruct (Z.ltb_spec i (type_bits L)); [rewrite Bool.andb_true_r; reflexivity|].
  rewrite (Bits.testbit_word_high _ v i Hv) by lia. reflexivity.
Qed.

Lemma clear_mask_word (m v : Z) :
  is_word L v -> is_word L (Z.land v (bnot (type_bits L) m)).
Proof.
  pose proof F as (Hmask & Hk & Hw & Hp).
  intros Hv. apply Bits.word_of_bits; [lia| |].
  - apply Z.land_nonneg. left. apply Hv.
  - intros i Hi. rewrite clear_mask_bits by (assumption || lia).
    rewrite (Bits.testbit_word_high _ v i Hv Hi). reflexivity.
Qed.

Lemma clear_mask_same (m v : Z) :
  is_word L v -> same_outside m (Z.land v (bnot (type_bits L) m)) v.
Proof.
  pose proof F as (Hmask & Hk & Hw & Hp).
  intros Hv i Hi Hm. rewrite clear_mask_bits by assumption.
  rewrite Hm. apply Bool.andb_true_r.
Qed.

(** Bits from [k] up depend only on the quotient by [2 ^ k]. *)
Lemma high_bits_div (a b i : Z) :
  a / 2 ^ k = b / 2 ^ k -> k <= i -> Z.testbit a i = Z.testbit b i.
Proof.
  pose proof F as (Hmask & Hk & Hw & Hp).
  intros Hq Hi. replace i with (i - k + k) by lia.
  rewrite <- !Z.div_pow2_bits by lia. rewrite Hq. reflexivity.
Qed.

(** One more reader: [(vv & ~mask) | (rlock_cnt + 1)]. *)
Lemma add_reader_word (v : Z) :
  is_word L v -> Z.land v (threadid_mask L) < 16 ->
  let v' := Z.lor (Z.land v (bnot (type_bits L) (threadid_mask L)))
                  (wrap (type_bits L) (Z.land v (threadid_mask L) + 1)) in
  is_word L v' /\
  Z.land v' (threadid_mask L) = Z.land v (threadid_mask L) + 1 /\
  same_outside (threadid_mask L) v' v.
Proof.
  pose proof F as (Hmask & Hk & Hw & Hp).
  intros Hv Hc. pose proof (field_range v) as Hr. pose proof pow_field as Hpow.
  set (c := Z.land v (threadid_mask L)) in *.
  rewrite (wrap_small _ (c + 1)) by lia. cbv zeta.
  assert (Hbits : forall i, 0 <= i ->
            Z.testbit (Z.lor (Z.land v (bnot (type_bits L) (threadid_mask L))) (c + 1)) i
            = if i <? k then Z.testbit (c + 1) i else Z.testbit v i).
  { intros i Hi. rewrite Z.lor_spec, Z.land_spec, Bits.testbit_bnot by lia.
    rewrite Hmask, Z.testbit_ones_nonneg by lia.
    destruct (Z.ltb_spec i k).
    - cbn [negb andb]. rewrite Bool.andb_false_r. reflexivity.
    - rewrite (Bits.testbit_word_high k (c + 1) i) by lia.
      rewrite Bool.orb_false_r. cbn [negb andb].
      destruct (Z.ltb_spec i (type_bits L)); [apply Bool.andb_true_r|].
      rewrite (Bits.testbit_word_high _ v i Hv) by lia. reflexivity. }
  split; [|split].
  - apply Bits.word_of_bits; [lia| |].
    + apply Z.lor_nonneg. split; [|lia]. apply Z.land_nonneg. left. apply Hv.
    + intros i Hi. rewrite Hbits by lia.
      destruct (Z.ltb_spec i k); [lia|]. apply (Bits.testbit_word_high _ v i Hv Hi).
  - rewrite <- (Bits.land_ones_small k (c + 1)) at 2 by lia.
    rewrite <- Hmask. apply field_same. intros i Hi. rewrite Hbits by lia.
    destruct (Z.ltb_spec i k); [reflexivity | lia].
  - intros i Hi Hm. apply outside_field in Hm; [|exact Hi].
    rewrite Hbits by lia. destruct (Z.ltb_spec i k); [lia | reflexivity].
Qed.

(** One reader fewer: [vv - 1] when the count is at least 1. *)
Lemma drop_reader_word (v : Z) :
  is_word L v -> 1 <= Z.land v (threadid_mask L) ->
  let v' := wrap (type_bits L) (v - 1) in
  v' = v - 1 /\ is_word L v' /\
  Z.land v' (threadid_mask L) = Z.land v (threadid_mask L) - 1 /\
  same_outside (threadid_mask L) v' v.
Proof.
  pose proof F as (Hmask & Hk & Hw & Hp).
  intros Hv Hc. pose proof (field_range v) as Hr. pose proof pow_field as Hpow.
  rewrite field_mod in *.
  assert (Hv1 : 1 <= v).
  { pose proof (Z.mod_le v (2 ^ k) ltac:(apply Hv) ltac:(lia)). lia. }
  cbv zeta. rewrite (wrap_small _ (v - 1)) by (unfold is_word in Hv; lia).
  assert (Hdiv : (v - 1) / 2 ^ k = v / 2 ^ k /\ (v - 1) mod 2 ^ k = v mod 2 ^ k - 1).
  { pose proof (Z.div_mod v (2 ^ k) ltac:(lia)) as Hdm.
    assert (Heq : v - 1 = 2 ^ k * (v / 2 ^ k) + (v mod 2 ^ k - 1)) by lia.
    split.
    - symmetry. apply (Z.div_unique_pos (v - 1) (2 ^ k) (v / 2 ^ k) (v mod 2 ^ k - 1));
        [lia | exact Heq].
    - symmetry. apply (Z.mod_unique_pos (v - 1) (2 ^ k) (v / 2 ^ k) (v mod 2 ^ k - 1));
        [lia | exact Heq]. }
  destruct Hdiv as [Hq Hm].
  split; [|split; [|split]].
  - reflexivity.
  - unfold is_word in *. lia.
  - rewrite field_mod. exact Hm.
  - intros i Hi Hout. apply outside_field in Hout; [|exact Hi].
    apply high_bits_div; assumption.
Qed.
End WordFacts.
End WordFacts.

(** ** Accesses of the shared word *)
Module MemFacts.

Section MemFacts.
Context (L : TransactionTid.layout).

Lemma moved_quiet (c : cell) : others c = [] -> moved L c = c.
Proof. intros H. unfold moved. rewrite H. reflexivity. Qed.

Lemma moved_word (c : cell) :
  0 <= TransactionTid.type_bits L ->
  TransactionTid.is_word L (v_ c) -> TransactionTid.is_word L (v_ (moved L c)).
Proof.
  intros Hw Hv. unfold moved. destruct (others c); [exact Hv|].
  apply wrap_range. exact Hw.
Qed.

Lemma moved_others (c : cell) : (length (others (moved L c)) <= length (others c))%nat.
Proof. unfold moved. destruct (others c) eqn:E; [rewrite E|]; cbn; lia. Qed.

Lemma moved_changed (c : cell) :
  v_ (moved L c) <> v_ c -> (length (others (moved L c)) < length (others c))%nat.
Proof. unfold moved. destruct (others c) eqn:E; cbn; [congruence | lia]. Qed.


Lemma moved_trace (c : cell) : trace (moved L c) = trace c.
Proof. unfold moved. destruct (others c); reflexivity. Qed.

Lemma moved_chances (c : cell) : chances (moved L c) = chances c.
Proof. unfold moved. destruct (others c); reflexivity. Qed.

Lemma load_run (c : cell) :
  load L c = inr (v_ (moved L c), logged (Load (v_ (moved L c))) (moved L c)).
Proof. reflexivity. Qed.

Lemma store_run (x : Z) (c : cell) :
  store L x c = inr (tt, logged (Store x) (with_v x (moved L c))).
Proof. reflexivity. Qed.

Lemma bool_cmpxchg_run (expected desired : Z) (c : cell) :
  bool_cmpxchg L expected desired c =
    if v_ (moved L c) =? expected
    then inr (true, logged (Cas expected desired true) (with_v desired (moved L c)))
    else inr (false, logged (Cas expected desired false) (moved L c)).
Proof.
  unfold bool_cmpxchg. rewrite run_bind. cbv beta iota delta [interfere modify].
  rewrite run_bind. cbv beta iota delta [get].
  destruct (v_ (moved L c) =? expected); reflexivity.
Qed.

Lemma fetch_and_add_run (delta : Z) (c : cell) :
  fetch_and_add L delta c =
    inr (v_ (moved L c),
         logged (FetchAndAdd (v_ (moved L c)) delta)
           (with_v (wrap (TransactionTid.type_bits L) (v_ (moved L c) + delta))
              (moved L c))).
Proof. reflexivity. Qed.

Lemma relax_fence_run (c : cell) : relax_fence c = inr (tt, logged RelaxFence c).
Proof. reflexivity. Qed.

Lemma release_fence_run (c : cell) : release_fence c = inr (tt, logged ReleaseFence c).
Proof. reflexivity. Qed.

(** The rule of the loop: a body that, from any cell satisfying [I], either
    returns with [Q] or goes round again from a cell that satisfies [I] and
    has fewer moves of the other threads left, returns with [Q] as soon as
    the fuel exceeds the moves left. *)
Lemma while_true_rule {A} (body : M cell (option A))
    (I : cell -> Prop) (Q : A -> cell -> Prop) :
  (forall c, I c ->
     match body c with
     | inl _ => False
     | inr (Some a, c') => Q a c'
     | inr (None, c') => I c' /\ (length (others c') < length (others c))%nat
     end) ->
  forall fuel c, I c -> (length (others c) < fuel)%nat ->
  exists a c', while_true fuel body c = inr (a, c') /\ Q a c'.
Proof.
  intros Hbody. induction fuel as [|fuel IH]; intros c HI Hfuel; [lia|].
  cbn [while_true]. rewrite run_bind.
  specialize (Hbody c HI). destruct (body c) as [e|[[a|] c']].
  - contradiction.
  - exists a, c'. split; [reflexivity | exact Hbody].
  - destruct Hbody as [HI' Hlt]. apply IH; [exact HI' | lia].
Qed.

(** The same rule for a body that may fail: if the loop returns, it
    returns with [Q]. *)
Lemma while_true_partial {A} (body : M cell (option A))
    (I : cell -> Prop) (Q : A -> cell -> Prop) :
  (forall c, I c ->
     match body c with
     | inl _ => True
     | inr (Some a, c') => Q a c'
     | inr (None, c') => I c'
     end) ->
  forall fuel c a c', I c -> while_true fuel body c = inr (a, c') -> Q a c'.
Proof.
  intros Hbody. induction fuel as [|fuel IH]; intros c a c' HI Hrun; [discriminate|].
  cbn [while_true] in Hrun. rewrite run_bind in Hrun.
  specialize (Hbody c HI). destruct (body c) as [e|[[a0|] c0]].
  - discriminate.
  - rewrite run_ret in Hrun. injection Hrun as <- <-. exact Hbody.
  - apply (IH c0 a c' Hbody Hrun).
Qed.

Lemma cas_loop_partial {A} (body : M cell (option A))
    (I : cell -> Prop) (Q : A -> cell -> Prop) :
  (forall c, I c ->
     match body c with
     | inl _ => True
     | inr (Some a, c') => Q a c'
     | inr (None, c') => I c'
     end) ->
  forall c a c', I c -> cas_loop body c = inr (a, c') -> Q a c'.
Proof.
  intros Hbody c a c' HI Hrun. unfold cas_loop in Hrun. rewrite run_bind in Hrun.
  cbv beta iota delta [get] in Hrun.
  apply (while_true_partial body I Q Hbody _ c a c' HI Hrun).
Qed.

Lemma cas_loop_rule {A} (body : M cell (option A))
    (I : cell -> Prop) (Q : A -> cell -> Prop) :
  (forall c, I c ->
     match body c with
     | inl _ => False
     | inr (Some a, c') => Q a c'
     | inr (None, c') => I c' /\ (length (others c') < length (others c))%nat
     end) ->
  forall c, I c -> exists a c', cas_loop body c = inr (a, c') /\ Q a c'.
Proof.
  intros Hbody c HI. unfold cas_loop. rewrite run_bind. cbv beta iota delta [get].
  apply (while_true_rule body I Q Hbody); [exact HI | lia].
Qed.
End MemFacts.
End MemFacts.

(** The sample layout is well formed. *)
Lemma sto_well_formed : TransactionTid.well_formed TransactionTid.sto.
Proof.
  apply (TransactionTid.WellFormed TransactionTid.sto 5 5 9 8);
    cbn; try reflexivity; lia.
Qed.

(** ** The reader/writer lock *)
Module TLockVersionSpec.
Import TransactionTid LockResponse TLockVersion WordFacts MemFacts.

Section Rounds.
Context (L : layout).

(** One round of [try_lock_read], written out. *)
Lemma try_lock_read_round_run (c : cell) :
  let c1 := moved L c in
  let vv := v_ c1 in
  let c2 := logged (Load vv) c1 in
  let new_v := Z.lor (Z.land vv (bnot (type_bits L) (mask L)))
                     (wrap (type_bits L) (Z.land vv (mask L) + 1)) in
  try_lock_read_round L c =
    if is_locked L vv then inr (Some (spin, 0), c2)
    else if negb (Z.land vv (mask L) <? rlock_cnt_max) then inr (Some (optimistic, vv), c2)
    else if v_ (moved L c2) =? vv
         then inr (Some (locked, 0), logged (Cas vv new_v true) (with_v new_v (moved L c2)))
         else inr (None, logged RelaxFence (logged (Cas vv new_v false) (moved L c2))).
Proof.
  intros c1 vv c2 new_v. unfold try_lock_read_round.
  rewrite run_bind, load_run. fold c1 vv c2. cbv zeta.
  change (negb (Z.land vv (lock_bit L) =? 0)) with (is_locked L vv).
  destruct (is_locked L vv); [reflexivity|].
  destruct (negb (Z.land vv (mask L) <? rlock_cnt_max)); [reflexivity|].
  rewrite run_bind, bool_cmpxchg_run. fold new_v.
  destruct (v_ (moved L c2) =? vv); [reflexivity|].
  rewrite run_bind, relax_fence_run. reflexivity.
Qed.

(** One round of [try_lock_write], written out. *)
Lemma try_lock_write_round_run (adaptive : bool) (c : cell) :
  let c1 := moved L c in
  let vv := v_ c1 in
  let c2 := logged (Load vv) c1 in
  let new_v := if adaptive
               then Z.land (Z.lor vv (lock_bit L)) (bnot (type_bits L) (opt_bit L))
               else Z.lor vv (lock_bit L) in
  try_lock_write_round L adaptive c =
    if is_locked L vv || negb (Z.land vv (mask L) =? 0) then inr (Some spin, c2)
    else if v_ (moved L c2) =? vv
         then inr (Some locked, logged (Cas vv new_v true) (with_v new_v (moved L c2)))
         else inr (None, logged RelaxFence (logged (Cas vv new_v false) (moved L c2))).
Proof.
  intros c1 vv c2 new_v. unfold try_lock_write_round.
  rewrite run_bind, load_run. fold c1 vv c2. cbv zeta.
  change (negb (Z.land vv (lock_bit L) =? 0)) with (is_locked L vv).
  destruct (is_locked L vv || negb (Z.land vv (mask L) =? 0)); [reflexivity|].
  rewrite run_bind, bool_cmpxchg_run. fold new_v.
  destruct (v_ (moved L c2) =? vv); [reflexivity|].
  rewrite run_bind, relax_fence_run. reflexivity.
Qed.

(** [try_upgrade], written out. *)
Lemma try_upgrade_run (c : cell) :
  let c1 := moved L c in
  let vv := v_ c1 in
  let c2 := logged (Load vv) c1 in
  let new_v := Z.lor (wrap (type_bits L) (vv - 1)) (lock_bit L) in
  try_upgrade L c =
    if is_locked L vv then inl AssertionFailed
    else if negb (1 <=? Z.land vv (mask L)) then inl AssertionFailed
    else if Z.land vv (mask L) =? 1
         then if v_ (moved L c2) =? vv
              then inr (locked, logged (Cas vv new_v true) (with_v new_v (moved L c2)))
              else inr (spin, logged (Cas vv new_v false) (moved L c2))
         else inr (spin, c2).
Proof.
  intros c1 vv c2 new_v. unfold try_upgrade.
  rewrite run_bind, load_run. fold c1 vv c2. cbv zeta.
  rewrite run_bind. destruct (is_locked L vv); [reflexivity|].
  cbn [negb]. rewrite run_assert_true, run_bind.
  destruct (1 <=? Z.land vv (mask L)); [|reflexivity].
  cbn [negb]. rewrite run_assert_true.
  destruct (Z.land vv (mask L) =? 1); [|reflexivity].
  rewrite run_bind, bool_cmpxchg_run. fold new_v.
  destruct (v_ (moved L c2) =? vv); reflexivity.
Qed.

(** [unlock_read] of the default build, written out. *)
Lemma unlock_read_run (c : cell) :
  let c1 := moved L c in
  let vv := v_ c1 in
  let new_v := wrap (type_bits L) (vv + -1) in
  unlock_read L false c =
    if 1 <=? Z.land vv (mask L)
    then inr (tt, logged (FetchAndAdd vv (-1)) (with_v new_v c1))
    else inl AssertionFailed.
Proof.
  intros c1 vv new_v. unfold unlock_read.
  rewrite run_bind, fetch_and_add_run. fold c1 vv new_v.
  destruct (1 <=? Z.land vv (mask L)); reflexivity.
Qed.

(** [unlock_write] of the default build, written out. *)
Lemma unlock_write_run (c : cell) :
  let c1 := logged (Load (v_ (moved L c))) (moved L c) in
  let c2 := logged (Load (v_ (moved L c1))) (moved L c1) in
  let new_v := Z.land (v_ c2) (bnot (type_bits L) (lock_bit L)) in
  unlock_write L false c =
    if is_locked L (v_ c1)
    then inr (tt, logged ReleaseFence (logged (Store new_v) (with_v new_v (moved L c2))))
    else inl AssertionFailed.
Proof.
  intros c1 c2 new_v. unfold unlock_write.
  rewrite run_bind, load_run. fold c1.
  change (v_ (moved L c)) with (v_ c1).
  rewrite run_bind. destruct (is_locked L (v_ c1)); [|reflexivity].
  rewrite run_assert_true, run_bind, run_bind, load_run. fold c2.
  rewrite run_ret, run_bind, store_run, release_fence_run.
  reflexivity.
Qed.

(** One round of the adaptive [unlock_read], written out. *)
Lemma unlock_read_round_run (c : cell) :
  let c1 := moved L c in
  let vv := v_ c1 in
  let c2 := flipped (logged (Load vv) c1) in
  let new_v := if hd false (chances c1)
               then Z.lor (wrap (type_bits L) (vv - 1)) (opt_bit L)
               else wrap (type_bits L) (vv - 1) in
  unlock_read_round L c =
    if 1 <=? Z.land vv (mask L)
    then if v_ (moved L c2) =? vv
         then inr (Some tt, logged (Cas vv new_v true) (with_v new_v (moved L c2)))
         else inr (None, logged RelaxFence (logged (Cas vv new_v false) (moved L c2)))
    else inl AssertionFailed.
Proof.
  intros c1 vv c2 new_v. unfold unlock_read_round.
  rewrite run_bind, load_run. fold c1 vv.
  rewrite run_bind. change (TransactionTid.threadid_mask L) with (mask L).
  destruct (1 <=? Z.land vv (mask L)); [|reflexivity].
  rewrite run_assert_true, run_bind.
  change (chance (logged (Load vv) c1))
    with (inr (hd false (chances c1), c2) : error + bool * cell).
  cbv beta iota zeta. rewrite run_bind, bool_cmpxchg_run. fold new_v.
  destruct (v_ (moved L c2) =? vv); [reflexivity|].
  rewrite run_bind, relax_fence_run. reflexivity.
Qed.

(** [unlock_write] of the adaptive build, written out. *)
Lemma unlock_write_adaptive_run (c : cell) :
  let c1 := logged (Load (v_ (moved L c))) (moved L c) in
  let c2 := logged (Load (v_ (moved L (flipped c1)))) (moved L (flipped c1)) in
  let cleared := Z.land (v_ c2) (bnot (type_bits L) (lock_bit L)) in
  let new_v := if hd false (chances c1) then Z.lor cleared (opt_bit L) else cleared in
  unlock_write L true c =
    if is_locked L (v_ c1)
    then inr (tt, logged ReleaseFence (logged (Store new_v) (with_v new_v (moved L c2))))
    else inl AssertionFailed.
Proof.
  intros c1 c2 cleared new_v. unfold unlock_write.
  rewrite run_bind, load_run. fold c1.
  change (v_ (moved L c)) with (v_ c1).
  rewrite run_bind. destruct (is_locked L (v_ c1)); [|reflexivity].
  rewrite run_assert_true, run_bind, run_bind.
  change (chance c1) with (inr (hd false (chances c1), flipped c1) : error + bool * cell).
  cbv beta iota. rewrite run_bind, load_run. fold c2.
  change (v_ (moved L (flipped c1))) with (v_ c2). fold cleared.
  destruct (hd false (chances c1)); rewrite run_ret, run_bind, store_run, release_fence_run;
    reflexivity.
Qed.
End Rounds.

(** C3. [try_lock_read] always returns, and what it returns is decided by
    the word [vv] its last round loaded (the word of the cell itself when no
    other thread moves).  If [vv] is write-locked it returns [spin] and
    leaves the word.  Otherwise, if the reader count of [vv] is at the
    maximum [0x10], it returns [optimistic] with [vv] and leaves the word.
    Otherwise its compare-and-swap succeeded, it returns [locked], and the
    new word has the reader count of [vv] plus one and the bits of [vv]
    everywhere outside the count field.  It never returns [failed]. *)
Theorem try_lock_read_spec (L : layout) (c : cell) :
  well_formed L -> is_word L (v_ c) ->
  exists r x c' vv tr,
    try_lock_read L c = inr ((r, x), c') /\ is_word L vv /\
    (others c = [] -> vv = v_ c /\ tr = trace c) /\
    ((r = spin /\ x = 0 /\ is_locked L vv = true /\
      v_ c' = vv /\ trace c' = tr ++ [Load vv]) \/
     (r = optimistic /\ x = vv /\ is_locked L vv = false /\
      rlock_cnt_max <= Z.land vv (mask L) /\
      v_ c' = vv /\ trace c' = tr ++ [Load vv]) \/
     (r = locked /\ x = 0 /\ is_locked L vv = false /\
      Z.land vv (mask L) < rlock_cnt_max /\
      trace c' = tr ++ [Load vv; Cas vv (v_ c') true] /\
      is_word L (v_ c') /\
      Z.land (v_ c') (mask L) = Z.land vv (mask L) + 1 /\
      same_outside (mask L) (v_ c') vv)).
Proof.
  intros WF Hv.
  destruct WF as [k l o d Hmask Hk Hlock _ _ Hl _ _ _ _].
  assert (Fl : placed L k l) by (unfold placed; repeat split; assumption || lia).
  assert (Hbits : 0 <= type_bits L) by lia.
  set (Q := fun (a : LockResponse.t * Z) (c' : cell) =>
    exists vv tr, is_word L vv /\
    (others c = [] -> vv = v_ c /\ tr = trace c) /\
    ((a.1 = spin /\ a.2 = 0 /\ is_locked L vv = true /\
      v_ c' = vv /\ trace c' = tr ++ [Load vv]) \/
     (a.1 = optimistic /\ a.2 = vv /\ is_locked L vv = false /\
      rlock_cnt_max <= Z.land vv (mask L) /\
      v_ c' = vv /\ trace c' = tr ++ [Load vv]) \/
     (a.1 = locked /\ a.2 = 0 /\ is_locked L vv = false /\
      Z.land vv (mask L) < rlock_cnt_max /\
      trace c' = tr ++ [Load vv; Cas vv (v_ c') true] /\
      is_word L (v_ c') /\
      Z.land (v_ c') (mask L) = Z.land vv (mask L) + 1 /\
      same_outside (mask L) (v_ c') vv))).
  set (I := fun c0 : cell => is_word L (v_ c0) /\ (others c = [] -> c0 = c)).
  destruct (cas_loop_rule (try_lock_read_round L) I Q) with (c := c)
    as ([r x] & c' & Hrun & vv & tr & Hvv & Hquiet & Hcases).
  2:{ split; [exact Hv | reflexivity]. }
  2:{ exists r, x, c', vv, tr. split; [exact Hrun|]. split; [exact Hvv|].
      split; [exact Hquiet | exact Hcases]. }
  clear Hv. intros c0 [Hv0 Hq0].
  pose proof (try_lock_read_round_run L c0) as Hround. cbv zeta in Hround.
  rewrite Hround. clear Hround.
  set (c1 := moved L c0). set (vv := v_ c1).
  assert (Hvv : is_word L vv) by (apply moved_word; assumption).
  assert (Hq1 : others c = [] -> vv = v_ c /\ trace c1 = trace c).
  { intros Hn. specialize (Hq0 Hn). subst c0. unfold vv, c1.
    rewrite moved_quiet by exact Hn. split; reflexivity. }
  assert (Htr1 : trace c1 = trace c0) by apply moved_trace.
  destruct (is_locked L vv) eqn:Hlocked.
  { exists vv, (trace c1). split; [exact Hvv|]. split; [exact Hq1|].
    left. repeat apply conj; reflexivity || assumption. }
  destruct (Z.ltb_spec (Z.land vv (mask L)) rlock_cnt_max) as [Hlt|Hge]; cbn [negb].
  2:{ exists vv, (trace c1). split; [exact Hvv|]. split; [exact Hq1|].
      right; left. repeat apply conj; reflexivity || assumption. }
  set (c2 := logged (Load vv) c1).
  destruct (Z.eqb_spec (v_ (moved L c2)) vv) as [Heq|Hne].
  - exists vv, (trace c1). split; [exact Hvv|]. split; [exact Hq1|].
    right; right.
    destruct (add_reader_word L k l Fl vv Hvv Hlt) as (Hw' & Hc' & Hs').
    cbn [fst snd v_ logged with_v trace]. rewrite moved_trace.
    unfold c2. cbn [trace logged]. rewrite <- app_assoc. cbn [app].
    split; [reflexivity|]. split; [reflexivity|]. split; [exact Hlocked|].
    split; [exact Hlt|]. split; [reflexivity|].
    split; [exact Hw'|]. split; [exact Hc' | exact Hs'].
  - split.
    + split; [cbn [v_ logged]; apply moved_word; [exact Hbits | exact Hvv]|].
      intros Hn. exfalso. apply Hne. specialize (Hq0 Hn). subst c0.
      unfold c2, vv, c1. rewrite (moved_quiet L c Hn).
      rewrite moved_quiet by exact Hn. reflexivity.
    + cbn [others logged].
      pose proof (moved_changed L c2 Hne) as Hlt2.
      pose proof (moved_others L c0) as Hle. fold c1 in Hle.
      change (length (others c2)) with (length (others c1)) in Hlt2.
      lia.
Qed.

Lemma try_lock_read_spec_witness :
  exists r x c' vv tr,
    try_lock_read sto (Cell 0x40F [] [] []) = inr ((r, x), c') /\
    is_word sto vv /\
    (others (Cell 0x40F [] [] []) = [] ->
     vv = v_ (Cell 0x40F [] [] []) /\ tr = trace (Cell 0x40F [] [] [])).
Proof.
  destruct (try_lock_read_spec sto (Cell 0x40F [] [] []))
    as (r & x & c' & vv & tr & Hrun & Hvv & Hq & _).
  - exact sto_well_formed.
  - unfold is_word. simpl. lia.
  - exists r, x, c', vv, tr. split; [exact Hrun|]. split; [exact Hvv | exact Hq].
Defined.




(** C9. On a word that is not write-locked and has at least one reader,
    [try_upgrade] passes both assertions and returns.  It returns [locked]
    only when the reader count is exactly 1 and its one compare-and-swap
    succeeds; the new word then has the lock bit set, no reader, and the
    old bits everywhere else.  With a count of 1 and a failed swap it
    returns [spin] after that one failed attempt and writes nothing; with
    a count above 1 it returns [spin] without any attempt.  When no other
    thread moves, a count of 1 always ends in [locked]. *)
Theorem try_upgrade_spec (L : layout) (c : cell) :
  well_formed L -> is_word L (v_ c) ->
  let vv := v_ (moved L c) in
  is_locked L vv = false -> 1 <= rlock_cnt L vv ->
  exists r c',
    try_upgrade L c = inr (r, c') /\
    (others c = [] -> vv = v_ c /\ (rlock_cnt L vv = 1 -> r = locked)) /\
    ((r = locked /\ rlock_cnt L vv = 1 /\
      trace c' = trace c ++ [Load vv; Cas vv (v_ c') true] /\
      is_word L (v_ c') /\
      is_locked L (v_ c') = true /\ rlock_cnt L (v_ c') = 0 /\
      same_outside (Z.lor (lock_bit L) (mask L)) (v_ c') vv) \/
     (r = spin /\ rlock_cnt L vv = 1 /\ v_ c' <> vv /\
      exists new_v, trace c' = trace c ++ [Load vv; Cas vv new_v false]) \/
     (r = spin /\ 1 < rlock_cnt L vv /\ v_ c' = vv /\
      trace c' = trace c ++ [Load vv])).
Proof.
  intros WF Hv vv Hfree Hcnt.
  destruct WF as [k l o d Hmask Hk Hlock _ _ Hl _ _ _ _].
  assert (Fl : placed L k l) by (unfold placed; repeat split; assumption || lia).
  assert (Hbits : 0 <= type_bits L) by lia.
  pose proof (try_upgrade_run L c) as Hrun. cbv zeta in Hrun. fold vv in Hrun.
  rewrite Hfree in Hrun. unfold rlock_cnt in *.
  destruct (Z.leb_spec 1 (Z.land vv (mask L))) as [_|]; [|lia]. cbn [negb] in Hrun.
  assert (Hvv : is_word L vv) by (apply moved_word; assumption).
  assert (Hquiet : others c = [] -> vv = v_ c).
  { intros Hq. unfold vv. rewrite moved_quiet by exact Hq. reflexivity. }
  set (c2 := logged (Load vv) (moved L c)) in *.
  destruct (Z.eqb_spec (Z.land vv (mask L)) 1) as [Hone|Hmore].
  - destruct (Z.eqb_spec (v_ (moved L c2)) vv) as [Hsame|Hdiff].
    + eexists locked, _. split; [exact Hrun|].
      split; [intros Hq; split; [apply Hquiet, Hq | reflexivity]|]. left.
      destruct (drop_reader_word L k l Fl vv Hvv ltac:(unfold mask in Hone; lia))
        as (Hv' & Hw' & Hc' & Hs').
      cbn [v_ trace logged with_v]. rewrite moved_trace. unfold c2.
      cbn [trace logged]. rewrite moved_trace, <- app_assoc.
      change (lock_bit L) with (TransactionTid.lock_bit L). rewrite Hlock.
      split; [reflexivity|]. split; [exact Hone|]. split; [reflexivity|].
      split; [apply (set_flag_word L k l Fl); exact Hw'|].
      split.
      { unfold is_locked. rewrite Hlock, (flag_test L k l Fl), (set_flag_bits L k l Fl).
        rewrite Z.eqb_refl. apply Bool.orb_true_r. }
      split.
      { unfold mask in *. rewrite (set_flag_field L k l Fl), Hc', Hone. reflexivity. }
      apply same_outside_trans with (b := wrap (type_bits L) (vv - 1)).
      * apply same_outside_lor_l. apply (set_flag_same L k l Fl).
      * apply same_outside_lor_r. exact Hs'.
    + eexists spin, _. split; [exact Hrun|]. split.
      { intros Hq. exfalso. apply Hdiff. unfold c2.
        rewrite (moved_quiet L (logged _ _))
          by (cbn [others logged]; rewrite (moved_quiet L c Hq); exact Hq).
        reflexivity. }
      right; left. cbn [v_ trace logged]. rewrite moved_trace. unfold c2.
      cbn [trace logged]. rewrite moved_trace, <- app_assoc.
      split; [reflexivity|]. split; [exact Hone|]. split; [exact Hdiff|].
      eexists. reflexivity.
  - eexists spin, _. split; [exact Hrun|].
    split; [intros Hq; split; [apply Hquiet, Hq | intros; lia]|].
    right; right. unfold c2. cbn [v_ trace logged]. rewrite moved_trace.
    split; [reflexivity|]. split; [lia|]. split; reflexivity.
Qed.

Lemma try_upgrade_spec_witness :
  exists c',
    try_upgrade sto (Cell 0x401 [] [] []) = inr (locked, c') /\
    is_locked sto (v_ c') = true /\ rlock_cnt sto (v_ c') = 0.
Proof.
  destruct (try_upgrade_spec sto (Cell 0x401 [] [] []))
    as (r & c' & Hrun & Hq & Hcases).
  - exact sto_well_formed.
  - unfold is_word. simpl. lia.
  - reflexivity.
  - vm_compute. discriminate.
  - destruct Hq as [_ Hr]; [reflexivity|]. rewrite (Hr eq_refl) in *.
    exists c'. split; [exact Hrun|].
    destruct Hcases as [H|[H|H]].
    + destruct H as (_ & _ & _ & _ & Hl & Hc & _). split; assumption.
    + destruct H as (H & _). discriminate.
    + destruct H as (H & _). discriminate.
Defined.

(** *** Consistent words stay consistent *)
Section Consistency.
Context (L : layout) (k l o : Z) (Fl : placed L k l) (Fo : placed L k o).
Context (Hlock : TransactionTid.lock_bit L = 2 ^ l).
Context (Hopt : TransactionTid.opt_bit L = 2 ^ o) (Hlo : l <> o).

Lemma is_locked_test (v : Z) : is_locked L v = Z.testbit v l.
Proof. unfold is_locked. rewrite Hlock. apply (flag_test L k l Fl). Qed.

Lemma is_locked_outside_field (a b : Z) :
  same_outside (mask L) a b -> is_locked L a = is_locked L b.
Proof.
  intros Hs. rewrite !is_locked_test. apply Hs.
  - pose proof Fl as (_ & ? & _ & ?). lia.
  - apply (flag_outside_field L k l Fl).
Qed.

Lemma consistent_word (v : Z) : consistent L v -> is_word L v.
Proof. intros H. apply H. Qed.

Lemma consistent_add_reader (v : Z) :
  consistent L v -> is_locked L v = false -> rlock_cnt L v < rlock_cnt_max ->
  consistent L (Z.lor (Z.land v (bnot (type_bits L) (mask L)))
                      (wrap (type_bits L) (Z.land v (mask L) + 1))).
Proof.
  intros (Hv & Hmax & Hex) Hfree Hlt.
  destruct (add_reader_word L k l Fl v Hv Hlt) as (Hw' & Hc' & Hs').
  split; [exact Hw'|]. unfold rlock_cnt, mask in *. split.
  - rewrite Hc'. unfold rlock_cnt_max in *. lia.
  - intros Hl'. rewrite (is_locked_outside_field _ v Hs') in Hl'. congruence.
Qed.

Lemma consistent_lock (v : Z) :
  consistent L v -> rlock_cnt L v = 0 ->
  consistent L (Z.lor v (lock_bit L)).
Proof.
  intros (Hv & Hmax & Hex) Hzero.
  change (lock_bit L) with (TransactionTid.lock_bit L). rewrite Hlock.
  split; [apply (set_flag_word L k l Fl); exact Hv|].
  unfold rlock_cnt, mask in *. rewrite (set_flag_field L k l Fl), Hzero.
  split; [unfold rlock_cnt_max; lia | reflexivity].
Qed.

Lemma consistent_drop_reader (v : Z) :
  consistent L v -> 1 <= rlock_cnt L v ->
  consistent L (wrap (type_bits L) (v + -1)).
Proof.
  intros (Hv & Hmax & Hex) Hone.
  destruct (drop_reader_word L k l Fl v Hv Hone) as (_ & Hw' & Hc' & Hs').
  change (v + -1) with (v - 1).
  split; [exact Hw'|]. unfold rlock_cnt, mask in *. split.
  - rewrite Hc'. lia.
  - intros Hl'. rewrite (is_locked_outside_field _ v Hs') in Hl'.
    specialize (Hex Hl'). lia.
Qed.

Lemma consistent_unlock (v : Z) :
  consistent L v ->
  consistent L (Z.land v (bnot (type_bits L) (lock_bit L))).
Proof.
  intros (Hv & Hmax & Hex).
  change (lock_bit L) with (TransactionTid.lock_bit L). rewrite Hlock.
  split; [apply (clear_flag_word L k l Fl); exact Hv|].
  unfold rlock_cnt, mask in *. rewrite (clear_flag_field L k l Fl) by exact Hv.
  split; [exact Hmax|]. intros Hl'. exfalso.
  rewrite is_locked_test, (clear_flag_bits L k l Fl) in Hl'.
  - rewrite Z.eqb_refl, Bool.andb_false_r in Hl'. discriminate.
  - exact Hv.
  - pose proof Fl as (_ & ? & _ & ?). lia.
Qed.

(** The optimistic-hint bit does not matter to consistency. *)
Lemma consistent_set_opt (v : Z) :
  consistent L v -> consistent L (Z.lor v (opt_bit L)).
Proof.
  intros (Hv & Hmax & Hex).
  change (opt_bit L) with (TransactionTid.opt_bit L). rewrite Hopt.
  split; [apply (set_flag_word L k o Fo); exact Hv|].
  unfold rlock_cnt, mask in *. rewrite (set_flag_field L k o Fo).
  split; [exact Hmax|]. intros Hl'. apply Hex.
  rewrite is_locked_test, (set_flag_bits L k o Fo) in Hl'.
  destruct (Z.eqb_spec o l); [congruence|].
  rewrite Bool.orb_false_r in Hl'. rewrite is_locked_test. exact Hl'.
Qed.

Lemma consistent_clear_opt (v : Z) :
  consistent L v ->
  consistent L (Z.land v (bnot (type_bits L) (opt_bit L))).
Proof.
  intros (Hv & Hmax & Hex).
  change (opt_bit L) with (TransactionTid.opt_bit L). rewrite Hopt.
  split; [apply (clear_flag_word L k o Fo); exact Hv|].
  unfold rlock_cnt, mask in *. rewrite (clear_flag_field L k o Fo) by exact Hv.
  split; [exact Hmax|]. intros Hl'. apply Hex.
  rewrite is_locked_test, (clear_flag_bits L k o Fo) in Hl'.
  - apply andb_prop in Hl'. rewrite is_locked_test. apply Hl'.
  - exact Hv.
  - pose proof Fl as (_ & ? & _ & ?). lia.
Qed.

Lemma consistent_moved (c : cell) :
  consistent L (v_ c) -> Forall (polite L) (others c) ->
  consistent L (v_ (moved L c)) /\ Forall (polite L) (others (moved L c)).
Proof.
  intros Hc Hp. unfold moved. destruct (others c) as [|f rest] eqn:E.
  - split; [exact Hc|]. rewrite E. constructor.
  - cbn [v_ others]. inversion Hp as [|? ? Hf Hrest]; subst.
    split; [apply Hf, Hc | exact Hrest].
Qed.

(** [try_lock_read] among polite threads. *)
Lemma try_lock_read_keeps (c : cell) :
  consistent L (v_ c) -> Forall (polite L) (others c) ->
  exists r x c' vv,
    try_lock_read L c = inr ((r, x), c') /\
    consistent L vv /\ (others c = [] -> vv = v_ c) /\
    consistent L (v_ c') /\
    (is_locked L vv = true -> r = spin /\ v_ c' = vv) /\
    (r = locked ->
     is_locked L vv = false /\ rlock_cnt L (v_ c') = rlock_cnt L vv + 1).
Proof using All.
  intros Hc Hp.
  set (Q := fun (a : LockResponse.t * Z) (c' : cell) =>
    exists vv, consistent L vv /\ (others c = [] -> vv = v_ c) /\
    consistent L (v_ c') /\
    (is_locked L vv = true -> a.1 = spin /\ v_ c' = vv) /\
    (a.1 = locked ->
     is_locked L vv = false /\ rlock_cnt L (v_ c') = rlock_cnt L vv + 1)).
  set (I := fun c0 : cell => consistent L (v_ c0) /\ Forall (polite L) (others c0) /\
                             (others c = [] -> c0 = c)).
  destruct (cas_loop_rule (try_lock_read_round L) I Q) with (c := c)
    as ([r x] & c' & Hrun & vv & H1 & H2 & H3 & H4 & H5).
  2:{ split; [exact Hc|]. split; [exact Hp | reflexivity]. }
  2:{ exists r, x, c', vv. repeat (split; [assumption|]). assumption. }
  clear Hc Hp. intros c0 (Hc0 & Hp0 & Hq0).
  pose proof (try_lock_read_round_run L c0) as Hround. cbv zeta in Hround.
  rewrite Hround. clear Hround.
  destruct (consistent_moved c0 Hc0 Hp0) as [Hc1 Hp1].
  set (c1 := moved L c0) in *. set (vv := v_ c1) in *.
  assert (Hq1 : others c = [] -> vv = v_ c).
  { intros Hn. specialize (Hq0 Hn). subst c0. unfold vv, c1.
    rewrite moved_quiet by exact Hn. reflexivity. }
  destruct (is_locked L vv) eqn:Hlocked.
  { exists vv. cbn [fst snd]. split; [exact Hc1|]. split; [exact Hq1|].
    split; [exact Hc1|]. split; [intros _; split; reflexivity | discriminate]. }
  destruct (Z.ltb_spec (Z.land vv (mask L)) rlock_cnt_max) as [Hlt|Hge]; cbn [negb].
  2:{ exists vv. cbn [fst snd]. split; [exact Hc1|]. split; [exact Hq1|].
      split; [exact Hc1|]. split; [intros; congruence | discriminate]. }
  set (c2 := logged (Load vv) c1).
  assert (Hc2 : consistent L (v_ (moved L c2)) /\ Forall (polite L) (others (moved L c2)))
    by (apply consistent_moved; [exact Hc1 | exact Hp1]).
  destruct (Z.eqb_spec (v_ (moved L c2)) vv) as [Heq|Hne].
  - exists vv. split; [exact Hc1|]. split; [exact Hq1|].
    cbn [fst snd v_ logged with_v].
    split; [apply consistent_add_reader; assumption|].
    split; [intros; congruence|]. intros _. split; [exact Hlocked|].
    apply (add_reader_word L k l Fl vv (consistent_word _ Hc1) Hlt).
  - split; [|cbn [others logged]].
    + split; [apply Hc2|]. split; [apply Hc2|].
      intros Hn. exfalso. apply Hne. specialize (Hq0 Hn). subst c0.
      unfold c2, vv, c1. rewrite (moved_quiet L c Hn).
      rewrite moved_quiet by exact Hn. reflexivity.
    + pose proof (moved_changed L c2 Hne) as Hlt2.
      pose proof (moved_others L c0) as Hle. fold c1 in Hle.
      change (length (others c2)) with (length (others c1)) in Hlt2. lia.
Qed.

(** [try_lock_write] of either build among polite threads. *)
Lemma try_lock_write_keeps (adaptive : bool) (c : cell) :
  consistent L (v_ c) -> Forall (polite L) (others c) ->
  exists r c' vv,
    try_lock_write L adaptive c = inr (r, c') /\
    consistent L vv /\ (others c = [] -> vv = v_ c) /\
    consistent L (v_ c') /\
    (is_locked L vv = true \/ rlock_cnt L vv <> 0 -> r = spin /\ v_ c' = vv) /\
    (r = locked ->
     is_locked L vv = false /\ rlock_cnt L vv = 0 /\
     v_ c' = (if adaptive
              then Z.land (Z.lor vv (lock_bit L)) (bnot (type_bits L) (opt_bit L))
              else Z.lor vv (lock_bit L))) /\
    (r = spin \/ r = locked).
Proof using All.
  intros Hc Hp.
  set (Q := fun (r : LockResponse.t) (c' : cell) =>
    exists vv, consistent L vv /\ (others c = [] -> vv = v_ c) /\
    consistent L (v_ c') /\
    (is_locked L vv = true \/ rlock_cnt L vv <> 0 -> r = spin /\ v_ c' = vv) /\
    (r = locked ->
     is_locked L vv = false /\ rlock_cnt L vv = 0 /\
     v_ c' = (if adaptive
              then Z.land (Z.lor vv (lock_bit L)) (bnot (type_bits L) (opt_bit L))
              else Z.lor vv (lock_bit L))) /\
    (r = spin \/ r = locked)).
  set (I := fun c0 : cell => consistent L (v_ c0) /\ Forall (polite L) (others c0) /\
                             (others c = [] -> c0 = c)).
  destruct (cas_loop_rule (try_lock_write_round L adaptive) I Q) with (c := c)
    as (r & c' & Hrun & vv & H1 & H2 & H3 & H4 & H5 & H6).
  2:{ split; [exact Hc|]. split; [exact Hp | reflexivity]. }
  2:{ exists r, c', vv. repeat (split; [assumption|]). assumption. }
  clear Hc Hp. intros c0 (Hc0 & Hp0 & Hq0).
  pose proof (try_lock_write_round_run L adaptive c0) as Hround. cbv zeta in Hround.
  rewrite Hround. clear Hround.
  destruct (consistent_moved c0 Hc0 Hp0) as [Hc1 Hp1].
  set (c1 := moved L c0) in *. set (vv := v_ c1) in *.
  assert (Hq1 : others c = [] -> vv = v_ c).
  { intros Hn. specialize (Hq0 Hn). subst c0. unfold vv, c1.
    rewrite moved_quiet by exact Hn. reflexivity. }
  destruct (is_locked L vv) eqn:Hlocked; cbn [orb].
  { exists vv. split; [exact Hc1|]. split; [exact Hq1|]. split; [exact Hc1|].
    split; [intros _; split; reflexivity|]. split; [discriminate | left; reflexivity]. }
  destruct (Z.eqb_spec (Z.land vv (mask L)) 0) as [Hzero|Hsome]; cbn [negb].
  2:{ exists vv. split; [exact Hc1|]. split; [exact Hq1|]. split; [exact Hc1|].
      split; [intros _; split; reflexivity|]. split; [discriminate | left; reflexivity]. }
  set (c2 := logged (Load vv) c1).
  assert (Hc2 : consistent L (v_ (moved L c2)) /\ Forall (polite L) (others (moved L c2)))
    by (apply consistent_moved; [exact Hc1 | exact Hp1]).
  destruct (Z.eqb_spec (v_ (moved L c2)) vv) as [Heq|Hne].
  - exists vv. split; [exact Hc1|]. split; [exact Hq1|].
    cbn [v_ logged with_v].
    split.
    { destruct adaptive; [apply consistent_clear_opt|];
        apply consistent_lock; assumption. }
    split.
    { intros [Hl|Hr]; [congruence | unfold rlock_cnt in Hr; contradiction]. }
    split; [|right; reflexivity].
    intros _. split; [exact Hlocked|]. split; [exact Hzero | reflexivity].
  - split; [|cbn [others logged]].
    + split; [apply Hc2|]. split; [apply Hc2|].
      intros Hn. exfalso. apply Hne. specialize (Hq0 Hn). subst c0.
      unfold c2, vv, c1. rewrite (moved_quiet L c Hn).
      rewrite moved_quiet by exact Hn. reflexivity.
    + pose proof (moved_changed L c2 Hne) as Hlt2.
      pose proof (moved_others L c0) as Hle. fold c1 in Hle.
      change (length (others c2)) with (length (others c1)) in Hlt2. lia.
Qed.

(** [unlock_read] of either build among polite threads. *)
Lemma unlock_read_keeps (adaptive : bool) (c c' : cell) :
  consistent L (v_ c) -> Forall (polite L) (others c) ->
  unlock_read L adaptive c = inr (tt, c') ->
  consistent L (v_ c').
Proof.
  intros Hc Hp Hrun. destruct adaptive.
  - unfold unlock_read in Hrun.
    set (I := fun c0 : cell => consistent L (v_ c0) /\ Forall (polite L) (others c0)).
    set (Q := fun (_ : unit) (c0 : cell) => consistent L (v_ c0)).
    apply (cas_loop_partial (unlock_read_round L) I Q) with (c := c) (a := tt);
      [|split; assumption | exact Hrun].
    clear Hc Hp Hrun. subst I Q. cbv beta. intros c0 (Hc0 & Hp0).
    pose proof (unlock_read_round_run L c0) as Hround. cbv zeta in Hround.
    rewrite Hround. clear Hround.
    destruct (consistent_moved c0 Hc0 Hp0) as [Hc1 Hp1].
    set (c1 := moved L c0) in *. set (vv := v_ c1) in *.
    destruct (Z.leb_spec 1 (Z.land vv (mask L))) as [Hone|]; [|exact I].
    set (c2 := flipped (logged (Load vv) c1)).
    assert (Hc2 : consistent L (v_ (moved L c2)) /\
                  Forall (polite L) (others (moved L c2)))
      by (apply consistent_moved; [exact Hc1 | exact Hp1]).
    destruct (v_ (moved L c2) =? vv).
    + cbn [v_ logged with_v].
      pose proof (consistent_drop_reader vv Hc1 Hone) as Hd.
      change (vv + -1) with (vv - 1) in Hd.
      destruct (hd false (chances c1)); [apply consistent_set_opt|]; exact Hd.
    + cbn [v_ others logged]. exact Hc2.
  - pose proof (unlock_read_run L c) as Hr. cbv zeta in Hr. rewrite Hr in Hrun. clear Hr.
    destruct (consistent_moved c Hc Hp) as [Hc1 _].
    destruct (Z.leb_spec 1 (Z.land (v_ (moved L c)) (mask L))) as [Hone|]; [|discriminate].
    assert (E : c' = logged (FetchAndAdd (v_ (moved L c)) (-1))
                       (with_v (wrap (type_bits L) (v_ (moved L c) + -1)) (moved L c)))
      by congruence.
    rewrite E. cbn [v_ logged with_v].
    apply consistent_drop_reader; assumption.
Qed.

(** [unlock_write] of either build among polite threads. *)
Lemma unlock_write_keeps (adaptive : bool) (c c' : cell) :
  consistent L (v_ c) -> Forall (polite L) (others c) ->
  unlock_write L adaptive c = inr (tt, c') ->
  consistent L (v_ c').
Proof.
  intros Hc Hp Hrun. destruct (consistent_moved c Hc Hp) as [Hc1 Hp1].
  destruct adaptive.
  - pose proof (unlock_write_adaptive_run L c) as Hr. cbv zeta in Hr.
    rewrite Hr in Hrun. clear Hr.
    set (c1 := logged (Load (v_ (moved L c))) (moved L c)) in *.
    destruct (consistent_moved (flipped c1) Hc1 Hp1) as [Hc2 _].
    set (c2 := logged (Load (v_ (moved L (flipped c1)))) (moved L (flipped c1))) in *.
    destruct (is_locked L (v_ c1)); [|discriminate].
    match type of Hrun with inr (tt, ?x) = _ => assert (E : c' = x) by congruence end.
    rewrite E. cbn [v_ logged with_v].
    pose proof (consistent_unlock (v_ c2) Hc2) as Hu.
    destruct (hd false (chances c1)); [apply consistent_set_opt|]; exact Hu.
  - pose proof (unlock_write_run L c) as Hr. cbv zeta in Hr. rewrite Hr in Hrun. clear Hr.
    set (c1 := logged (Load (v_ (moved L c))) (moved L c)) in *.
    destruct (consistent_moved c1 Hc1 Hp1) as [Hc2 _].
    set (c2 := logged (Load (v_ (moved L c1))) (moved L c1)) in *.
    destruct (is_locked L (v_ c1)); [|discriminate].
    match type of Hrun with inr (tt, ?x) = _ => assert (E : c' = x) by congruence end.
    rewrite E. cbn [v_ logged with_v].
    apply (consistent_unlock (v_ c2) Hc2).
Qed.

(** A run of any of the four operations among polite threads. *)
Lemma run_keeps (adaptive : bool) (op : operation) (c c' : cell) :
  consistent L (v_ c) -> Forall (polite L) (others c) ->
  run L adaptive op c = inr (tt, c') -> consistent L (v_ c').
Proof using All.
  intros Hc Hp Hrun. destruct op; cbn [run] in Hrun.
  - destruct (try_lock_read_keeps c Hc Hp)
      as (r & x & c'' & vv & Hr & _ & _ & Hc'' & _).
    rewrite run_bind, Hr in Hrun. injection Hrun as <-. exact Hc''.
  - destruct (try_lock_write_keeps adaptive c Hc Hp)
      as (r & c'' & vv & Hr & _ & _ & Hc'' & _).
    rewrite run_bind, Hr in Hrun. injection Hrun as <-. exact Hc''.
  - apply (unlock_read_keeps adaptive c c' Hc Hp Hrun).
  - apply (unlock_write_keeps adaptive c c' Hc Hp Hrun).
Qed.

(** Threads that run the four operations are polite. *)
Lemma move_of_polite (adaptive : bool) (op : operation) (coins : list bool) :
  polite L (move_of L adaptive op coins).
Proof using All.
  intros v Hv. unfold move_of.
  destruct (run L adaptive op (Cell v [] coins [])) as [e|[[] c']] eqn:Hrun.
  - rewrite wrap_small by apply Hv. exact Hv.
  - assert (Hc' : consistent L (v_ c')).
    { apply (run_keeps adaptive op (Cell v [] coins []) c'); [exact Hv | constructor | exact Hrun]. }
    rewrite wrap_small by apply Hc'. exact Hc'.
Qed.

(** Every word the lock can hold is consistent, in either build. *)
Lemma reachable_consistent (adaptive : bool) (v : Z) :
  reachable L adaptive v -> consistent L v.
Proof using All.
  induction 1 as [v Hv Hfree Hzero | v op moves coins c' Hreach IH Hpolite Hrun].
  - split; [exact Hv|]. rewrite Hzero. split; [unfold rlock_cnt_max; lia|].
    intros Hl'. congruence.
  - apply (run_keeps adaptive op (Cell v moves coins []) c' IH Hpolite Hrun).
Qed.
End Consistency.

(** C4. In every word the lock can hold, in either build, after any runs
    of [try_lock_read], [try_lock_write], [unlock_read] and [unlock_write]
    from an unlocked word without readers, the lock bit and the readers
    exclude each other and the reader count is at most [rlock_cnt_max].
    The runs may be interleaved with polite moves of other threads, and
    threads that run the four operations are polite.
    From such a word [try_lock_write] returns [spin], leaving the word,
    whenever the word its last round loads is write-locked or has readers,
    and returns [locked] only for a word with neither; [try_lock_read]
    returns [spin], leaving the word, whenever the word its last round loads
    is write-locked. *)
Theorem lock_excludes_readers (L : layout) (adaptive : bool) (v : Z) :
  well_formed L -> reachable L adaptive v ->
  (is_locked L v = true -> rlock_cnt L v = 0) /\
  (rlock_cnt L v <> 0 -> is_locked L v = false) /\
  0 <= rlock_cnt L v <= rlock_cnt_max /\
  (forall o coins, polite L (move_of L adaptive o coins)) /\
  (forall moves coins tr, Forall (polite L) moves ->
   exists r c' vv,
     try_lock_write L adaptive (Cell v moves coins tr) = inr (r, c') /\
     (moves = [] -> vv = v) /\
     (is_locked L vv = true \/ rlock_cnt L vv <> 0 -> r = spin /\ v_ c' = vv) /\
     (r = locked -> is_locked L vv = false /\ rlock_cnt L vv = 0) /\
     (r = spin \/ r = locked) /\
     rlock_cnt L (v_ c') <= rlock_cnt_max) /\
  (forall moves coins tr, Forall (polite L) moves ->
   exists r x c' vv,
     try_lock_read L (Cell v moves coins tr) = inr ((r, x), c') /\
     (moves = [] -> vv = v) /\
     (is_locked L vv = true -> r = spin /\ v_ c' = vv) /\
     (r = locked -> is_locked L vv = false) /\
     rlock_cnt L (v_ c') <= rlock_cnt_max).
Proof.
  intros WF Hreach.
  destruct WF as [k l o d Hmask Hk Hlock Hopt _ Hl Ho _ Hlo _].
  assert (Fl : placed L k l) by (unfold placed; repeat split; assumption || lia).
  assert (Fo : placed L k o) by (unfold placed; repeat split; assumption || lia).
  pose proof (reachable_consistent L k l o Fl Fo Hlock Hopt Hlo adaptive v Hreach) as Hc.
  destruct Hc as (Hv & Hmax & Hex).
  split; [exact Hex|]. split.
  { intros Hne. destruct (is_locked L v) eqn:E; [|reflexivity].
    exfalso. apply Hne, Hex. reflexivity. }
  split.
  { split; [|exact Hmax]. unfold rlock_cnt. apply Z.land_nonneg. left. apply Hv. }
  split; [intros op coins; apply (move_of_polite L k l o Fl Fo Hlock Hopt Hlo)|].
  split.
  - intros moves coins tr Hp.
    destruct (try_lock_write_keeps L k l o Fl Fo Hlock Hopt Hlo adaptive
                (Cell v moves coins tr))
      as (r & c' & vv & Hr & _ & Hq & Hc' & Hspin & Hlocked & Hres).
    + split; [exact Hv|]. split; [exact Hmax | exact Hex].
    + exact Hp.
    + exists r, c', vv. split; [exact Hr|]. split; [exact Hq|]. split; [exact Hspin|].
      split; [intros E; destruct (Hlocked E) as (? & ? & _); split; assumption|].
      split; [exact Hres | apply Hc'].
  - intros moves coins tr Hp.
    destruct (try_lock_read_keeps L k l o Fl Fo Hlock Hopt Hlo (Cell v moves coins tr))
      as (r & x & c' & vv & Hr & _ & Hq & Hc' & Hspin & Hlocked).
    + split; [exact Hv|]. split; [exact Hmax | exact Hex].
    + exact Hp.
    + exists r, x, c', vv. split; [exact Hr|]. split; [exact Hq|]. split; [exact Hspin|].
      split; [intros E; apply (Hlocked E) | apply Hc'].
Qed.

Lemma lock_excludes_readers_witness :
  (is_locked sto 0x401 = true -> rlock_cnt sto 0x401 = 0) /\
  0 <= rlock_cnt sto 0x401 <= rlock_cnt_max /\
  exists r c' vv,
    try_lock_write sto false (Cell 0x401 [] [] []) = inr (r, c') /\
    (@nil (Z -> Z) = [] -> vv = 0x401) /\
    (is_locked sto vv = true \/ rlock_cnt sto vv <> 0 -> r = spin /\ v_ c' = vv).
Proof.
  destruct (lock_excludes_readers sto false 0x401) as (H1 & _ & H3 & _ & H4 & _).
  - exact sto_well_formed.
  - apply (reachable_run sto false 0x400 op_try_lock_read [] []
             (Cell 0x401 [] [] [Load 0x400; Cas 0x400 0x401 true])).
    + apply reachable_init; [unfold is_word; simpl; lia | reflexivity | reflexivity].
    + constructor.
    + reflexivity.
  - split; [exact H1|]. split; [exact H3|].
    destruct (H4 [] [] []) as (r & c' & vv & Hr & Hq & Hs & _); [constructor|].
    exists r, c', vv. split; [exact Hr|]. split; [exact Hq | exact Hs].
Defined.
End TLockVersionSpec.

(** ** The optimistic lock *)
Module TSwissVersionSpec.
Import TransactionTid TSwissVersion WordFacts MemFacts.

Section Runs.
Context (L : layout).

(** [cp_try_lock_impl], written out. *)
Lemma cp_try_lock_impl_run (tid : Z) (c : cell) :
  let c1 := logged (Load (v_ (moved L c))) (moved L c) in
  let c2 := logged (Load (v_ (moved L c1))) (moved L c1) in
  let new_v := Z.lor (v_ c2) (read_lock_bit L) in
  cp_try_lock_impl L tid c =
    if is_locked_here L (v_ c1) tid
    then inr (true, logged ReleaseFence (logged (Store new_v) (with_v new_v (moved L c2))))
    else inl AssertionFailed.
Proof.
  intros c1 c2 new_v. unfold cp_try_lock_impl.
  rewrite run_bind, load_run. fold c1. change (v_ (moved L c)) with (v_ c1).
  rewrite run_bind. destruct (is_locked_here L (v_ c1) tid); [|reflexivity].
  rewrite run_assert_true, run_bind, load_run. fold c2.
  change (v_ (moved L c1)) with (v_ c2).
  rewrite run_bind, store_run, run_bind, release_fence_run. reflexivity.
Qed.

(** [cp_unlock_impl], written out. *)
Lemma cp_unlock_impl_run (here : Z) (item : TransItem) (c : cell) :
  let c1 := logged (Load (v_ (moved L c))) (moved L c) in
  let c2 := logged (Load (v_ (moved L c1))) (moved L c1) in
  let new_v := unlocked L (v_ c2) in
  cp_unlock_impl L here item c =
    if needs_unlock item
    then if is_locked L (v_ c1)
         then if is_locked_here L (v_ c2) here
              then inr (tt, logged (Store new_v)
                              (with_v new_v (moved L (logged ReleaseFence c2))))
              else inr (tt, c2)
         else inr (tt, c1)
    else inl AssertionFailed.
Proof.
  intros c1 c2 new_v. unfold cp_unlock_impl.
  rewrite run_bind. destruct (needs_unlock item); [|reflexivity].
  rewrite run_assert_true, run_bind, load_run. fold c1.
  change (v_ (moved L c)) with (v_ c1).
  destruct (is_locked L (v_ c1)); [|reflexivity].
  unfold unlock. rewrite run_bind, load_run. fold c2.
  change (v_ (moved L c1)) with (v_ c2).
  destruct (is_locked_here L (v_ c2) here); [|reflexivity].
  rewrite run_bind, release_fence_run, store_run. reflexivity.
Qed.
End Runs.

Section LockBit.
Context (L : layout) (k l : Z) (Fl : placed L k l).
Context (Hlock : TransactionTid.lock_bit L = 2 ^ l).

Lemma locked_test (v : Z) : is_locked L v = Z.testbit v l.
Proof. unfold is_locked. rewrite Hlock. apply (flag_test L k l Fl). Qed.

Lemma locked_here_locked (v tid : Z) :
  is_locked_here L v tid = true -> is_locked L v = true.
Proof.
  pose proof Fl as (Hmask & Hk & Hw & Hl).
  unfold is_locked_here. intros E. apply Z.eqb_eq in E.
  apply (f_equal (fun x => Z.testbit x l)) in E.
  rewrite Z.land_spec, !Z.lor_spec, Hlock, Bits.testbit_pow2, Z.eqb_refl in E by lia.
  cbn [orb] in E. rewrite Bool.andb_true_r in E.
  rewrite locked_test. exact E.
Qed.
End LockBit.

Lemma moved_respected (L : layout) (P : Z -> bool) (c : cell) :
  is_word L (v_ c) -> P (v_ c) = true ->
  Forall (fun f => forall v, P v = true -> f v = v) (others c) ->
  v_ (moved L c) = v_ c /\
  Forall (fun f => forall v, P v = true -> f v = v) (others (moved L c)).
Proof.
  intros Hv HP Hr. unfold moved. destruct (others c) as [|f rest] eqn:E.
  - split; [reflexivity|]. rewrite E. constructor.
  - inversion Hr as [|? ? Hf Hrest]; subst. cbn [v_ others].
    split; [|exact Hrest]. rewrite (Hf _ HP). apply wrap_small. exact Hv.
Qed.

(** What [cp_try_lock_impl] does for the holder of the lock. *)
Lemma cp_try_lock_impl_holder (L : layout) (tid : Z) (c : cell) :
  is_word L (v_ c) -> is_locked_here L (v_ c) tid = true ->
  Forall (respects_owner L tid) (others c) ->
  let v' := Z.lor (v_ c) (dirty_bit L) in
  exists c',
    cp_try_lock_impl L tid c = inr (true, c') /\
    v_ c' = v' /\
    trace c' = trace c ++ [Load (v_ c); Load (v_ c); Store v'; ReleaseFence].
Proof.
  intros Hv Hhere Hr v'.
  pose proof (cp_try_lock_impl_run L tid c) as Hrun. cbv zeta in Hrun.
  destruct (moved_respected L (fun v => is_locked_here L v tid) c Hv Hhere Hr) as [E1 Hr1].
  set (c1 := logged (Load (v_ (moved L c))) (moved L c)) in *.
  assert (Ev1 : v_ c1 = v_ c) by exact E1.
  destruct (moved_respected L (fun v => is_locked_here L v tid) c1) as [E2 Hr2];
    [rewrite Ev1; exact Hv | rewrite Ev1; exact Hhere | exact Hr1 |].
  set (c2 := logged (Load (v_ (moved L c1))) (moved L c1)) in *.
  assert (Ev2 : v_ c2 = v_ c) by (transitivity (v_ c1); [exact E2 | exact Ev1]).
  rewrite Ev1, Hhere in Hrun. eexists. split; [exact Hrun|].
  cbn [v_ trace logged with_v]. unfold read_lock_bit. rewrite Ev2. fold v'.
  split; [reflexivity|].
  rewrite moved_trace. unfold c2. cbn [trace logged]. rewrite moved_trace.
  change (v_ (moved L c1)) with (v_ c2). rewrite Ev2.
  unfold c1. cbn [trace logged]. rewrite moved_trace, E1.
  rewrite <- !app_assoc. reflexivity.
Qed.

Section Owner.
Context (L : layout) (k l d : Z) (Fl : placed L k l) (Fd : placed L k d).
Context (Hlock : TransactionTid.lock_bit L = 2 ^ l).
Context (Hdirty : dirty_bit L = 2 ^ d) (Hld : l <> d).

Lemma dirty_test (v : Z) : is_dirty L v = Z.testbit v d.
Proof. unfold is_dirty. rewrite Hdirty. apply (flag_test L k d Fd). Qed.

Lemma locked_here_set_dirty (v tid : Z) :
  is_locked_here L (Z.lor v (2 ^ d)) tid = is_locked_here L v tid.
Proof.
  pose proof Fl as (Hmask & Hk & Hw & Hl). pose proof Fd as (_ & _ & _ & Hd).
  unfold is_locked_here. f_equal.
  apply Z.bits_inj'. intros i Hi.
  rewrite !Z.land_spec, !Z.lor_spec, Hlock, Hmask.
  rewrite !Bits.testbit_pow2, Z.testbit_ones_nonneg by lia.
  destruct (Z.eqb_spec d i) as [<-|_]; [|rewrite Bool.orb_false_r; reflexivity].
  destruct (Z.eqb_spec l d); [contradiction|].
  destruct (Z.ltb_spec d k); [lia|]. cbn [orb]. rewrite !Bool.andb_false_r. reflexivity.
Qed.

(** The word [TransactionTid::unlock] stores. *)
Lemma unlocked_word (v : Z) :
  is_word L v ->
  let m := Z.lor (Z.lor (TransactionTid.lock_bit L) (TransactionTid.threadid_mask L))
                 (dirty_bit L) in
  is_word L (unlocked L v) /\
  is_locked L (unlocked L v) = false /\
  is_dirty L (unlocked L v) = false /\
  owner L (unlocked L v) = 0 /\
  same_outside m (unlocked L v) v.
Proof.
  intros Hv m. unfold unlocked. fold m.
  pose proof Fl as (Hmask & Hk & Hw & Hl). pose proof Fd as (_ & _ & _ & Hd).
  assert (Hm : forall i, 0 <= i ->
            Z.testbit m i = (l =? i) || (i <? k) || (d =? i)).
  { intros i Hi. unfold m. rewrite !Z.lor_spec, Hlock, Hdirty, Hmask.
    rewrite !Bits.testbit_pow2, Z.testbit_ones_nonneg by lia. reflexivity. }
  split; [apply (clear_mask_word L k l Fl); exact Hv|].
  split.
  { rewrite (locked_test L k l Fl Hlock), (clear_mask_bits L k l Fl), Hm by (assumption || lia).
    rewrite Z.eqb_refl. cbn [orb negb]. apply Bool.andb_false_r. }
  split.
  { rewrite dirty_test, (clear_mask_bits L k l Fl), Hm by (assumption || lia).
    rewrite (Z.eqb_refl d), !Bool.orb_true_r. cbn [negb]. apply Bool.andb_false_r. }
  split; [|apply (clear_mask_same L k l Fl); exact Hv].
  unfold owner. rewrite Hmask. apply Z.bits_inj'. intros i Hi.
  rewrite Z.land_spec, (clear_mask_bits L k l Fl), Hm, Z.bits_0 by (assumption || lia).
  rewrite Z.testbit_ones_nonneg by lia.
  destruct (Z.ltb_spec i k); [|apply Bool.andb_false_r].
  rewrite Bool.orb_true_r. cbn [orb negb]. rewrite Bool.andb_false_r. reflexivity.
Qed.
End Owner.

(** C7. When the calling thread holds the lock of the word, and the other
    threads leave a word it holds alone, [cp_try_lock_impl] passes its
    assertion, stores the word with the dirty bit set, issues a release
    fence after the store and returns true.  The stored word differs from
    the old one in the dirty bit only: the lock bit, the owner field and
    the version bits are as they were, and the caller still holds the
    lock. *)
Theorem commit_lock_sets_dirty (L : layout) (tid : Z) (c : cell) :
  well_formed L -> is_word L (v_ c) ->
  is_locked_here L (v_ c) tid = true ->
  Forall (respects_owner L tid) (others c) ->
  exists c',
    cp_try_lock_impl L tid c = inr (true, c') /\
    trace c' = trace c ++ [Load (v_ c); Load (v_ c); Store (v_ c'); ReleaseFence] /\
    v_ c' = Z.lor (v_ c) (dirty_bit L) /\
    is_word L (v_ c') /\
    is_dirty L (v_ c') = true /\
    same_outside (dirty_bit L) (v_ c') (v_ c) /\
    is_locked L (v_ c') = true /\
    owner L (v_ c') = owner L (v_ c) /\
    is_locked_here L (v_ c') tid = true.
Proof.
  intros WF Hv Hhere Hr.
  destruct WF as [k l o d Hmask Hk Hlock _ Hdirty Hl _ Hd _ Hld].
  assert (Fl : placed L k l) by (unfold placed; repeat split; assumption || lia).
  assert (Fd : placed L k d) by (unfold placed; repeat split; assumption || lia).
  destruct (cp_try_lock_impl_holder L tid c Hv Hhere Hr) as (c' & Hrun & Hv' & Htr).
  exists c'. split; [exact Hrun|]. rewrite Hv'. split; [exact Htr|].
  split; [reflexivity|]. rewrite Hdirty.
  split; [apply (set_flag_word L k d Fd); exact Hv|].
  split.
  { rewrite (dirty_test L k d Fd Hdirty), (set_flag_bits L k d Fd).
    rewrite Z.eqb_refl. apply Bool.orb_true_r. }
  split; [apply (set_flag_same L k d Fd)|].
  split.
  { rewrite (locked_test L k l Fl Hlock), (set_flag_bits L k d Fd).
    rewrite <- (locked_test L k l Fl Hlock).
    rewrite (locked_here_locked L k l Fl Hlock _ _ Hhere). reflexivity. }
  split; [unfold owner; apply (set_flag_field L k d Fd)|].
  rewrite (locked_here_set_dirty L k l d Fl Fd Hlock Hld). exact Hhere.
Qed.

Lemma commit_lock_sets_dirty_witness :
  exists c',
    cp_try_lock_impl sto 3 (Cell 0x423 [] [] []) = inr (true, c') /\
    v_ c' = Z.lor 0x423 (dirty_bit sto) /\
    is_locked_here sto (v_ c') 3 = true.
Proof.
  destruct (commit_lock_sets_dirty sto 3 (Cell 0x423 [] [] []))
    as (c' & Hrun & _ & Hv' & _ & _ & _ & _ & _ & Hh).
  - exact sto_well_formed.
  - unfold is_word. simpl. lia.
  - reflexivity.
  - constructor.
  - exists c'. split; [exact Hrun|]. split; [exact Hv' | exact Hh].
Defined.

(** C2. [cp_unlock_impl], called for an item that needs unlocking,
    always returns, and clears the lock only if the word is still held by
    the calling thread.  With [v1] the word its test of the lock bit read
    and [v2] the word the unlock read (both the word of the cell when no
    other thread moves, or when the caller holds it and the others leave
    such a word alone), there are three outcomes.  The word is locked and
    held by the caller: it stores [v2] with the lock bit, the owner field
    and the dirty bit cleared and every other bit kept, after a release
    fence.  The word is locked and not held by the caller, so held by
    another thread: nothing is stored and the word is left as read.  The
    word is not locked: nothing is stored either. *)
Theorem unlock_after_commit_spec (L : layout) (here : Z) (item : TransItem)
    (c : cell) :
  well_formed L -> is_word L (v_ c) -> needs_unlock item = true ->
  let m := Z.lor (Z.lor (TransactionTid.lock_bit L) (TransactionTid.threadid_mask L))
                 (dirty_bit L) in
  exists c' v1 v2,
    cp_unlock_impl L here item c = inr (tt, c') /\
    is_word L v1 /\ is_word L v2 /\
    (others c = [] -> v1 = v_ c /\ v2 = v_ c) /\
    (Forall (respects_owner L here) (others c) ->
     is_locked_here L (v_ c) here = true -> v1 = v_ c /\ v2 = v_ c) /\
    ((is_locked L v1 = true /\ is_locked_here L v2 here = true /\
      v_ c' = unlocked L v2 /\
      trace c' = trace c ++ [Load v1; Load v2; ReleaseFence; Store (v_ c')] /\
      release_ordered (v_ c') [Load v1; Load v2; ReleaseFence; Store (v_ c')] = true /\
      is_locked L (v_ c') = false /\ is_dirty L (v_ c') = false /\
      owner L (v_ c') = 0 /\ same_outside m (v_ c') v2) \/
     (is_locked L v1 = true /\ is_locked_here L v2 here = false /\
      v_ c' = v2 /\ trace c' = trace c ++ [Load v1; Load v2]) \/
     (is_locked L v1 = false /\ v2 = v1 /\
      v_ c' = v1 /\ trace c' = trace c ++ [Load v1])).
Proof.
  intros WF Hv Hneeds m.
  destruct WF as [k l o d Hmask Hk Hlock _ Hdirty Hl _ Hd _ Hld].
  assert (Fl : placed L k l) by (unfold placed; repeat split; assumption || lia).
  assert (Fd : placed L k d) by (unfold placed; repeat split; assumption || lia).
  assert (Hbits : 0 <= type_bits L) by lia.
  pose proof (cp_unlock_impl_run L here item c) as Hrun. cbv zeta in Hrun.
  rewrite Hneeds in Hrun.
  set (c1 := logged (Load (v_ (moved L c))) (moved L c)) in *.
  set (c2 := logged (Load (v_ (moved L c1))) (moved L c1)) in *.
  assert (Hw1 : is_word L (v_ c1)) by (apply moved_word; assumption).
  assert (Hw2 : is_word L (v_ c2)) by (apply (moved_word L c1); assumption).
  assert (Hq1 : others c = [] -> v_ c1 = v_ c /\ v_ c2 = v_ c).
  { intros Hq. unfold c2, c1. cbn [v_ logged].
    rewrite (moved_quiet L c Hq).
    rewrite (moved_quiet L (logged _ c)) by exact Hq. split; reflexivity. }
  assert (Ho1 : Forall (respects_owner L here) (others c) ->
                is_locked_here L (v_ c) here = true ->
                v_ c1 = v_ c /\ v_ c2 = v_ c).
  { intros Hall Hheld.
    destruct (moved_respected L (fun v => is_locked_here L v here) c Hv Hheld Hall)
      as [E1 Hall1].
    assert (Hheld1 : is_locked_here L (v_ c1) here = true)
      by (unfold c1; cbn [v_ logged]; rewrite E1; exact Hheld).
    destruct (moved_respected L (fun v => is_locked_here L v here) c1 Hw1 Hheld1 Hall1)
      as [E2 _].
    unfold c2. cbn [v_ logged]. rewrite E2. unfold c1. cbn [v_ logged].
    split; exact E1. }
  destruct (is_locked L (v_ c1)) eqn:Hlocked.
  - destruct (is_locked_here L (v_ c2) here) eqn:Hheld.
    + destruct (unlocked_word L k l d Fl Fd Hlock Hdirty Hld (v_ c2) Hw2)
        as (Hw' & Hl' & Hd' & Ho' & Hs').
      eexists _, (v_ c1), (v_ c2). split; [exact Hrun|].
      split; [exact Hw1|]. split; [exact Hw2|]. split; [exact Hq1|].
      split; [exact Ho1|]. left.
      cbn [v_ trace logged with_v].
      split; [exact Hlocked|]. split; [exact Hheld|]. split; [reflexivity|].
      split.
      { rewrite moved_trace. cbn [trace logged]. unfold c2. cbn [trace logged].
        rewrite moved_trace. unfold c1. cbn [trace logged].
        rewrite moved_trace, <- !app_assoc. reflexivity. }
      split; [cbn [release_ordered stores]; rewrite Z.eqb_refl; reflexivity|].
      split; [exact Hl'|]. split; [exact Hd'|]. split; [exact Ho' | exact Hs'].
    + eexists _, (v_ c1), (v_ c2). split; [exact Hrun|].
      split; [exact Hw1|]. split; [exact Hw2|]. split; [exact Hq1|].
      split; [exact Ho1|]. right; left.
      split; [exact Hlocked|]. split; [exact Hheld|]. split; [reflexivity|].
      unfold c2. cbn [trace logged]. rewrite moved_trace.
      unfold c1. cbn [trace logged]. rewrite moved_trace, <- app_assoc. reflexivity.
  - eexists _, (v_ c1), (v_ c1). split; [exact Hrun|].
    split; [exact Hw1|]. split; [exact Hw1|].
    split; [intros Hq; destruct (Hq1 Hq) as [E _]; split; exact E|].
    split; [intros Hall Hheld; destruct (Ho1 Hall Hheld) as [E _]; split; exact E|].
    right; right.
    split; [exact Hlocked|]. split; [reflexivity|]. split; [reflexivity|].
    unfold c1. cbn [trace logged]. rewrite moved_trace. reflexivity.
Qed.

(** The word [0x521] is locked by thread 1 and dirty: thread 1 clears it,
    thread 2 leaves it. *)
Lemma unlock_after_commit_spec_witness :
  (exists c',
     cp_unlock_impl sto 1 {| needs_unlock := true; has_write := true; has_read := false |}
       (Cell 0x521 [] [] []) = inr (tt, c') /\
     v_ c' = unlocked sto 0x521 /\ is_locked sto (v_ c') = false) /\
  (exists c',
     cp_unlock_impl sto 2 {| needs_unlock := true; has_write := true; has_read := false |}
       (Cell 0x521 [] [] []) = inr (tt, c') /\
     v_ c' = 0x521).
Proof.
  split.
  - destruct (unlock_after_commit_spec sto 1
                {| needs_unlock := true; has_write := true; has_read := false |}
                (Cell 0x521 [] [] []))
      as (c' & v1 & v2 & Hrun & _ & _ & Hq & _ & Hcases).
    + exact sto_well_formed.
    + unfold is_word. simpl. lia.
    + reflexivity.
    + destruct (Hq eq_refl) as [E1 E2]. cbn [v_] in E1, E2. subst v1 v2.
      exists c'. split; [exact Hrun|].
      destruct Hcases as [(_ & _ & H3 & _ & _ & H6 & _)|[(_ & H2 & _)|(H1 & _)]].
      * split; [exact H3 | exact H6].
      * discriminate H2.
      * discriminate H1.
  - destruct (unlock_after_commit_spec sto 2
                {| needs_unlock := true; has_write := true; has_read := false |}
                (Cell 0x521 [] [] []))
      as (c' & v1 & v2 & Hrun & _ & _ & Hq & _ & Hcases).
    + exact sto_well_formed.
    + unfold is_word. simpl. lia.
    + reflexivity.
    + destruct (Hq eq_refl) as [E1 E2]. cbn [v_] in E1, E2. subst v1 v2.
      exists c'. split; [exact Hrun|].
      destruct Hcases as [(_ & H2 & _)|[(_ & _ & H3 & _)|(H1 & _)]].
      * discriminate H2.
      * exact H3.
      * discriminate H1.
Defined.
End TSwissVersionSpec.

(** ** The contention manager's tables *)
Module CMFacts.
Import ContentionManager.

Lemma slots_with_slots t t' l s :
  slots t (with_slots t' l s) = if decide (t = t') then l else slots t s.
Proof. destruct t, t'; reflexivity. Qed.

Lemma slots_with_slots_eq t l s : slots t (with_slots t l s) = l.
Proof. destruct t; reflexivity. Qed.

Lemma slots_with_slots_ne t t' l s :
  t <> t' -> slots t (with_slots t' l s) = slots t s.
Proof. intros H. rewrite slots_with_slots. destruct (decide (t = t')); congruence. Qed.

Lemma ts_with_slots t l s : ts (with_slots t l s) = ts s.
Proof. destruct t; reflexivity. Qed.

Lemma waited_with_slots t l s : waited (with_slots t l s) = waited s.
Proof. destruct t; reflexivity. Qed.

Lemma sized_with_slots t l s :
  sized s -> length l = table_size -> sized (with_slots t l s).
Proof.
  intros Hs Hl t'. rewrite slots_with_slots.
  destruct (decide (t' = t)); [exact Hl | apply Hs].
Qed.

Lemma slots_with_ts t x s : slots t (with_ts x s) = slots t s.
Proof. destruct t; reflexivity. Qed.

Lemma slots_with_waited t l s : slots t (with_waited l s) = slots t s.
Proof. destruct t; reflexivity. Qed.

Lemma sized_with_ts x s : sized s -> sized (with_ts x s).
Proof. intros Hs t. rewrite slots_with_ts. apply Hs. Qed.

Lemma sized_with_waited l s : sized s -> sized (with_waited l s).
Proof. intros Hs t. rewrite slots_with_waited. apply Hs. Qed.

Lemma sized_initial : sized initial.
Proof. intros []; reflexivity. Qed.

(** A slot index the tables have. *)
Definition valid (i : Z) : Prop := 0 <= i < Z.of_nat table_size.

Lemma valid_lt i s t : sized s -> valid i -> (Z.to_nat i < length (slots t s))%nat.
Proof. intros Hs [H0 H1]. rewrite Hs. lia. Qed.

Lemma read_valid t i s :
  sized s -> valid i ->
  exists x, slots t s !! Z.to_nat i = Some x /\ read t i s = inr (x, s).
Proof.
  intros Hs Hi. destruct (lookup_lt_is_Some_2 (slots t s) (Z.to_nat i)) as [x Hx].
  { eapply valid_lt; eauto. }
  exists x. split; [exact Hx|].
  unfold read. rewrite run_bind. cbv beta iota delta [get].
  destruct (Z.ltb_spec i 0) as [Hneg|_]; [destruct Hi; lia|].
  rewrite Hx. reflexivity.
Qed.

Lemma read_at t i s x :
  0 <= i -> slots t s !! Z.to_nat i = Some x -> read t i s = inr (x, s).
Proof.
  intros Hi Hx. unfold read. rewrite run_bind. cbv beta iota delta [get].
  destruct (Z.ltb_spec i 0) as [Hneg|_]; [lia|].
  rewrite Hx. reflexivity.
Qed.

Lemma write_valid t i x s :
  sized s -> valid i ->
  write t i x s = inr (tt, with_slots t (<[Z.to_nat i := x]> (slots t s)) s).
Proof.
  intros Hs Hi. unfold write. rewrite run_bind. cbv beta iota delta [get].
  destruct (Z.ltb_spec i 0) as [Hneg|_]; [destruct Hi; lia|].
  pose proof (valid_lt i s t Hs Hi) as Hlt.
  apply Nat.ltb_lt in Hlt. rewrite Hlt. reflexivity.
Qed.

Lemma read_invalid t i s :
  sized s -> ¬ valid i -> read t i s = inl (OutOfBounds i).
Proof.
  intros Hs Hi. unfold read. rewrite run_bind. cbv beta iota delta [get].
  destruct (Z.ltb_spec i 0) as [Hneg|Hpos]; [reflexivity|].
  rewrite (lookup_ge_None_2 (slots t s) (Z.to_nat i)); [reflexivity|].
  rewrite Hs. unfold valid in Hi. lia.
Qed.

Lemma write_invalid t i x s :
  sized s -> ¬ valid i -> write t i x s = inl (OutOfBounds i).
Proof.
  intros Hs Hi. unfold write. rewrite run_bind. cbv beta iota delta [get].
  destruct (Z.ltb_spec i 0) as [Hneg|Hpos]; [reflexivity|].
  destruct (Nat.ltb_spec (Z.to_nat i) (length (slots t s))) as [Hlt|_]; [|reflexivity].
  rewrite Hs in Hlt. unfold valid in Hi. lia.
Qed.

Lemma sized_write t i x s :
  sized s -> sized (with_slots t (<[Z.to_nat i := x]> (slots t s)) s).
Proof. intros Hs. apply sized_with_slots; [exact Hs|]. rewrite length_insert. apply Hs. Qed.

(** The slot of a thread: [threadid *= 4]. *)
Lemma slot_index {S} (tx : Transaction) (s : S) :
  0 <= threadid tx <= 31 ->
  int_mul (threadid tx) 4 s = inr (4 * threadid tx, s) /\ valid (4 * threadid tx).
Proof.
  intros H. split.
  - rewrite int_mul_small; [f_equal; f_equal; lia|].
    unfold INT_MIN, INT_MAX. lia.
  - unfold valid, table_size. lia.
Qed.
End CMFacts.

(** ** The contention manager *)
Module ContentionManagerSpec.
Import ContentionManager CMFacts.

(** The state [start] leaves behind, written out. *)
Lemma start_run (C : config) (tx : Transaction) (s : state) :
  sized s -> 0 <= threadid tx <= 31 ->
  let i := Z.to_nat (4 * threadid tx) in
  let s1 := with_slots timestamp (<[i := u128 (MAX_TS C)]> (slots timestamp s)) s in
  let s2 := with_slots aborted (<[i := 0]> (slots aborted s1)) s1 in
  let s3 := with_slots write_set_size (<[i := 0]> (slots write_set_size s2)) s2 in
  let s4 := with_slots abort_count (<[i := 0]> (slots abort_count s3)) s3 in
  start C tx s = inr (tt, if is_restarted tx then s3 else s4).
Proof.
  intros Hs Ht i s1 s2 s3 s4.
  destruct (slot_index tx s Ht) as [Hmul Hv].
  assert (Hs1 : sized s1) by (apply sized_write; exact Hs).
  assert (Hs2 : sized s2) by (apply sized_write; exact Hs1).
  assert (Hs3 : sized s3) by (apply sized_write; exact Hs2).
  unfold start. rewrite run_bind, Hmul.
  destruct (is_restarted tx).
  - rewrite run_bind, (write_valid _ _ _ s Hs Hv).
    rewrite run_bind, (write_valid _ _ _ _ Hs1 Hv).
    rewrite (write_valid _ _ _ _ Hs2 Hv). reflexivity.
  - rewrite run_bind, (write_valid _ _ _ s Hs Hv).
    rewrite run_bind, (write_valid _ _ _ _ Hs1 Hv).
    rewrite run_bind, (write_valid _ _ _ _ Hs2 Hv).
    rewrite (write_valid _ _ _ _ Hs3 Hv). reflexivity.
Qed.

Lemma start_sized (C : config) (tx : Transaction) (s s' : state) :
  sized s -> 0 <= threadid tx <= 31 ->
  start C tx s = inr (tt, s') -> sized s'.
Proof.
  intros Hs Ht H. pose proof (start_run C tx s Hs Ht) as Hr. cbv zeta in Hr.
  rewrite Hr in H.
  match type of H with inr (tt, ?x) = _ => assert (E : s' = x) by congruence end.
  rewrite E. destruct (is_restarted tx); repeat apply sized_write; exact Hs.
Qed.

(** What [start] does to the thread's slot. *)
Lemma start_step (C : config) (tx : Transaction) (s : state) :
  sized s -> 0 <= threadid tx <= 31 ->
  let i := Z.to_nat (4 * threadid tx) in
  exists s',
    start C tx s = inr (tt, s') /\ sized s' /\
    slots write_set_size s' !! i = Some 0 /\
    slots timestamp s' !! i = Some (u128 (MAX_TS C)) /\
    slots aborted s' !! i = Some 0 /\
    slots abort_count s' =
      (if is_restarted tx then slots abort_count s
       else <[i := 0]> (slots abort_count s)) /\
    ts s' = ts s.
Proof.
  intros Hs Ht i. pose proof (start_run C tx s Hs Ht) as Hrun. cbv zeta in Hrun.
  fold i in Hrun.
  destruct (slot_index tx s Ht) as [_ Hv].
  eexists. split; [exact Hrun|].
  split; [apply (start_sized C tx s _ Hs Ht Hrun)|].
  assert (Hlen : forall t, (i < length (slots t s))%nat)
    by (intros t; apply valid_lt; assumption).
  destruct (is_restarted tx);
    repeat (first [ rewrite slots_with_slots_eq
                  | rewrite slots_with_slots_ne by discriminate
                  | rewrite ts_with_slots ]);
    repeat apply conj; try reflexivity;
    apply list_lookup_insert_eq; apply Hlen.
Qed.

(** C1. [start(tx)] sets the calling thread's [write_set_size] to 0, its
    [timestamp] to the sentinel [MAX_TS] and its [aborted] flag to 0.  The
    [abort_count] table is left as it was when [tx] is a restart, and has
    the thread's entry set to 0 when it is not.  The global counter [ts]
    is not touched. *)
Theorem start_resets (C : config) (tx : Transaction) (s : state) :
  sized s -> 0 <= threadid tx <= 31 ->
  exists s',
    start C tx s = inr (tt, s') /\
    let i := Z.to_nat (4 * threadid tx) in
    slots write_set_size s' !! i = Some 0 /\
    slots timestamp s' !! i = Some (u128 (MAX_TS C)) /\
    slots aborted s' !! i = Some 0 /\
    slots abort_count s' =
      (if is_restarted tx then slots abort_count s
       else <[i := 0]> (slots abort_count s)) /\
    (is_restarted tx = false -> slots abort_count s' !! i = Some 0) /\
    ts s' = ts s.
Proof.
  intros Hs Ht.
  destruct (start_step C tx s Hs Ht) as (s' & Hrun & _ & Hw & Ht' & Ha & Hac & Hts).
  exists s'. split; [exact Hrun|]. cbv zeta.
  split; [exact Hw|]. split; [exact Ht'|]. split; [exact Ha|].
  split; [exact Hac|]. split; [|exact Hts].
  intros Hnew. rewrite Hac, Hnew. apply list_lookup_insert_eq.
  apply valid_lt; [exact Hs|]. apply (slot_index tx s Ht).
Qed.

Lemma start_resets_witness :
  exists s',
    start sample {| threadid := 3; is_restarted := true |} initial = inr (tt, s') /\
    slots write_set_size s' !! 12%nat = Some 0 /\
    slots abort_count s' = slots abort_count initial.
Proof.
  destruct (start_resets sample {| threadid := 3; is_restarted := true |} initial)
    as [s' (Hrun & Hw & _ & _ & Ha & _)].
  - exact sized_initial.
  - simpl. lia.
  - exists s'. split; [exact Hrun|]. split; [exact Hw | exact Ha].
Defined.

(** One call of [on_write], written out. *)
Lemma on_write_run (C : config) (tx : Transaction) (s : state) (w t0 : Z) :
  sized s -> 0 <= threadid tx <= 31 ->
  let i := Z.to_nat (4 * threadid tx) in
  slots write_set_size s !! i = Some w ->
  slots timestamp s !! i = Some t0 ->
  let w' := wrap 128 (w + 1) in
  let s1 := with_slots write_set_size (<[i := w']> (slots write_set_size s)) s in
  let s2 := with_ts (wrap 64 (ts s + 1)) s1 in
  let s3 := with_slots timestamp (<[i := ts s]> (slots timestamp s2)) s2 in
  on_write C tx s =
    inr (tt, if (t0 =? u128 (MAX_TS C)) && (w' =? u128 (TS_THRESHOLD C))
             then s3 else s1).
Proof.
  intros Hs Ht i Hw Ht0 w' s1 s2 s3.
  destruct (slot_index tx s Ht) as [Hmul Hv].
  assert (H0 : 0 <= 4 * threadid tx) by lia.
  assert (Hs1 : sized s1) by (apply sized_write; exact Hs).
  assert (Hlen : forall t, (i < length (slots t s))%nat)
    by (intros t; apply valid_lt; assumption).
  unfold on_write. rewrite run_bind, Hmul.
  rewrite run_bind, (read_at _ _ _ w H0 Hw).
  rewrite run_bind, (write_valid _ _ _ s Hs Hv). fold i w' s1.
  rewrite run_bind, (read_at _ _ s1 t0 H0).
  2:{ unfold s1. rewrite slots_with_slots_ne by discriminate. exact Ht0. }
  destruct (t0 =? u128 (MAX_TS C)); [|reflexivity].
  rewrite run_bind, (read_at _ _ s1 w' H0).
  2:{ unfold s1. rewrite slots_with_slots_eq. apply list_lookup_insert_eq, Hlen. }
  destruct (w' =? u128 (TS_THRESHOLD C)); [|reflexivity].
  cbn [andb]. rewrite run_bind.
  unfold fetch_and_add_ts at 1. rewrite run_bind.
  cbv beta iota delta [get]. rewrite run_bind. cbv beta iota delta [put].
  rewrite run_ret.
  replace (ts s1) with (ts s) by (unfold s1; symmetry; apply ts_with_slots).
  fold s2.
  assert (Hs2 : sized s2) by (apply sized_with_ts; exact Hs1).
  rewrite (write_valid _ _ _ s2 Hs2 Hv). reflexivity.
Qed.

(** What one call of [on_write] does to the thread's slot and to [ts]. *)
Lemma on_write_step (C : config) (tx : Transaction) (s : state) (w t0 : Z) :
  sized s -> 0 <= threadid tx <= 31 ->
  let i := Z.to_nat (4 * threadid tx) in
  slots write_set_size s !! i = Some w ->
  slots timestamp s !! i = Some t0 ->
  let mint := (t0 =? u128 (MAX_TS C)) && (wrap 128 (w + 1) =? u128 (TS_THRESHOLD C)) in
  exists s',
    on_write C tx s = inr (tt, s') /\ sized s' /\
    slots write_set_size s' !! i = Some (wrap 128 (w + 1)) /\
    slots timestamp s' !! i = Some (if mint then ts s else t0) /\
    ts s' = (if mint then wrap 64 (ts s + 1) else ts s) /\
    (mint = false -> slots timestamp s' = slots timestamp s).
Proof.
  intros Hs Ht i Hw Ht0 mint.
  pose proof (on_write_run C tx s w t0 Hs Ht Hw Ht0) as Hrun. cbv zeta in Hrun.
  fold i mint in Hrun.
  destruct (slot_index tx s Ht) as [_ Hv].
  assert (Hlen : forall t, (i < length (slots t s))%nat)
    by (intros t; apply valid_lt; assumption).
  eexists. split; [exact Hrun|].
  destruct mint; repeat apply conj.
  - apply sized_write, sized_with_ts, sized_write, Hs.
  - rewrite slots_with_slots_ne by discriminate.
    rewrite slots_with_ts, slots_with_slots_eq.
    apply list_lookup_insert_eq, Hlen.
  - rewrite slots_with_slots_eq. apply list_lookup_insert_eq.
    rewrite slots_with_ts, slots_with_slots_ne by discriminate. apply Hlen.
  - rewrite ts_with_slots. reflexivity.
  - discriminate.
  - apply sized_write, Hs.
  - rewrite slots_with_slots_eq. apply list_lookup_insert_eq, Hlen.
  - rewrite slots_with_slots_ne by discriminate. exact Ht0.
  - apply ts_with_slots.
  - intros _. apply slots_with_slots_ne. discriminate.
Qed.

(** A run of writes inside one attempt: the size counts them, and the one
    call that brings it to the threshold, if the thread has no timestamp
    then, is the only one that draws from [ts]. *)
Lemma on_write_many (C : config) (tx : Transaction) (n : nat) :
  forall (s : state) (k t0 : Z),
  sized s -> 0 <= threadid tx <= 31 ->
  let i := Z.to_nat (4 * threadid tx) in
  slots write_set_size s !! i = Some k ->
  slots timestamp s !! i = Some t0 ->
  0 <= k -> k + Z.of_nat n < 2 ^ 128 ->
  let T := u128 (TS_THRESHOLD C) in
  let hit := (t0 =? u128 (MAX_TS C)) && (k <? T) && (T <=? k + Z.of_nat n) in
  exists s',
    repeat_op n (on_write C tx) s = inr (tt, s') /\ sized s' /\
    slots write_set_size s' !! i = Some (k + Z.of_nat n) /\
    slots timestamp s' !! i = Some (if hit then ts s else t0) /\
    ts s' = (if hit then wrap 64 (ts s + 1) else ts s).
Proof.
  induction n as [|n IH]; intros s k t0 Hs Ht i Hw Ht0 Hk Hn T hit.
  - exists s.
    assert (Hhit : hit = false).
    { unfold hit. destruct (t0 =? u128 (MAX_TS C)); [|reflexivity].
      destruct (Z.ltb_spec k T); [|reflexivity].
      destruct (Z.leb_spec T (k + Z.of_nat 0)); [lia|reflexivity]. }
    rewrite Hhit. change (Z.of_nat 0) with 0. rewrite Z.add_0_r.
    repeat apply conj; try assumption; reflexivity.
  - subst i T hit.
    destruct (on_write_step C tx s k t0 Hs Ht Hw Ht0)
      as (s1 & Hrun & Hs1 & Hw1 & Ht1 & Hts1 & _).
    assert (Hwrap : wrap 128 (k + 1) = k + 1) by (apply wrap_small; lia).
    rewrite Hwrap in *.
    destruct (IH s1 (k + 1) _ Hs1 Ht Hw1 Ht1) as (s2 & Hrun2 & Hs2 & Hw2 & Ht2 & Hts2);
      [lia | lia |].
    replace (k + 1 + Z.of_nat n) with (k + Z.of_nat (S n)) in * by lia.
    exists s2. split.
    { cbn [repeat_op]. rewrite run_bind, Hrun. exact Hrun2. }
    split; [exact Hs2|]. split; [exact Hw2|].
    rewrite Ht2, Hts2, Hts1. clear.
    repeat match goal with
           | |- context [Z.eqb ?a ?b] => destruct (Z.eqb_spec a b)
           | |- context [Z.ltb ?a ?b] => destruct (Z.ltb_spec a b)
           | |- context [Z.leb ?a ?b] => destruct (Z.leb_spec a b)
           | _ => progress cbn [andb]
           end;
      cbn [andb] in *; first [lia | split; reflexivity].
Qed.

(** C5. [on_write(tx)] adds one to the calling thread's [write_set_size].
    It gives the thread a timestamp, the value an atomic fetch-and-add of 1
    reads from the global counter [ts], exactly when the thread's timestamp
    is still the sentinel [MAX_TS] and the size has just become
    [TS_THRESHOLD]; on every other call the timestamp table and [ts] stay
    as they were.  Hence an attempt, [start] followed by [n] writes, draws
    from [ts] at most once: once if the writes reach the threshold, never
    otherwise. *)
Theorem on_write_timestamp (C : config) (tx : Transaction) (s : state)
    (w t0 : Z) (n : nat) :
  sized s -> 0 <= threadid tx <= 31 ->
  let i := Z.to_nat (4 * threadid tx) in
  slots write_set_size s !! i = Some w ->
  slots timestamp s !! i = Some t0 ->
  Z.of_nat n < 2 ^ 128 ->
  (let mint := (t0 =? u128 (MAX_TS C))
               && (wrap 128 (w + 1) =? u128 (TS_THRESHOLD C)) in
   exists s',
     on_write C tx s = inr (tt, s') /\
     slots write_set_size s' !! i = Some (wrap 128 (w + 1)) /\
     (mint = true ->
      slots timestamp s' !! i = Some (ts s) /\ ts s' = wrap 64 (ts s + 1)) /\
     (mint = false ->
      slots timestamp s' = slots timestamp s /\ ts s' = ts s)) /\
  (let T := u128 (TS_THRESHOLD C) in
   let reached := (0 <? T) && (T <=? Z.of_nat n) in
   exists s',
     (start C tx;; repeat_op n (on_write C tx)) s = inr (tt, s') /\
     slots write_set_size s' !! i = Some (Z.of_nat n) /\
     slots timestamp s' !! i = Some (if reached then ts s else u128 (MAX_TS C)) /\
     ts s' = (if reached then wrap 64 (ts s + 1) else ts s)).
Proof.
  intros Hs Ht i Hw Ht0 Hn. split.
  - intros mint.
    destruct (on_write_step C tx s w t0 Hs Ht Hw Ht0)
      as (s' & Hrun & _ & Hw' & Ht' & Hts' & Hsame).
    fold i mint in Hw', Ht', Hts', Hsame.
    exists s'. split; [exact Hrun|]. split; [exact Hw'|].
    split; intros Hm; rewrite Hm in *; auto.
  - intros T reached.
    destruct (start_step C tx s Hs Ht) as (s0 & Hrun0 & Hs0 & Hw0 & Ht00 & _ & _ & Hts0).
    destruct (on_write_many C tx n s0 0 _ Hs0 Ht Hw0 Ht00)
      as (s' & Hrun & _ & Hw' & Ht' & Hts'); [lia | lia |].
    rewrite Z.eqb_refl, Z.add_0_l, Hts0 in *. cbn [andb] in *.
    exists s'. split; [rewrite run_bind, Hrun0; exact Hrun|].
    split; [exact Hw'|]. split; [exact Ht' | exact Hts'].
Qed.

Lemma on_write_timestamp_witness :
  exists s',
    (start sample {| threadid := 3; is_restarted := false |};;
     repeat_op 12 (on_write sample {| threadid := 3; is_restarted := false |}))
      initial = inr (tt, s') /\
    slots write_set_size s' !! 12%nat = Some 12 /\
    slots timestamp s' !! 12%nat = Some 0 /\
    ts s' = 1.
Proof.
  destruct (on_write_timestamp sample {| threadid := 3; is_restarted := false |}
              initial 0 0 12)
    as [_ (s' & Hrun & Hw & Ht & Hts)].
  - exact sized_initial.
  - simpl. lia.
  - reflexivity.
  - reflexivity.
  - reflexivity.
  - exists s'. split; [exact Hrun|]. split; [exact Hw|]. split; [exact Ht | exact Hts].
Defined.

(** One call of [on_rollback], written out. *)
Lemma on_rollback_run (C : config) (tx : Transaction) (s : state) (a sd : Z) :
  sized s -> 0 <= threadid tx <= 31 ->
  let i := Z.to_nat (4 * threadid tx) in
  slots abort_count s !! i = Some a ->
  slots seed s !! i = Some sd ->
  let bump := a <? u128 (SUCC_ABORTS_MAX C) in
  let a' := if bump then wrap 128 (a + 1) else a in
  let s1 := if bump then with_slots abort_count (<[i := a']> (slots abort_count s)) s
            else s in
  let low := sd mod 2 ^ 32 in
  let s2 := with_slots seed
              (<[i := sd - low + wrap 32 (fst (rand_r C low))]> (slots seed s1)) s1 in
  let range := wrap 128 (a' * u128 (WAIT_CYCLES_MULTIPLICATOR C)) in
  let cycles := wrap 64 (u128 (snd (rand_r C low)) mod range) in
  on_rollback C tx s =
    if range =? 0 then inl DivisionByZero
    else inr (tt, with_waited (waited s2 ++ [cycles]) s2).
Proof.
  intros Hs Ht i Ha Hsd bump a' s1 low s2 range cycles.
  destruct (slot_index tx s Ht) as [Hmul Hv].
  assert (H0 : 0 <= 4 * threadid tx) by lia.
  assert (Hlen : forall t, (i < length (slots t s))%nat)
    by (intros t; apply valid_lt; assumption).
  assert (Hs1 : sized s1).
  { unfold s1. destruct bump; [apply sized_write|]; exact Hs. }
  assert (Hsd1 : slots seed s1 !! i = Some sd).
  { unfold s1. destruct bump; [|exact Hsd].
    rewrite slots_with_slots_ne by discriminate. exact Hsd. }
  assert (Ha1 : slots abort_count s1 !! i = Some a').
  { unfold s1, a'. destruct bump; [|exact Ha].
    rewrite slots_with_slots_eq. apply list_lookup_insert_eq, Hlen. }
  assert (Hs2 : sized s2) by (apply sized_write; exact Hs1).
  assert (Ha2 : slots abort_count s2 !! i = Some a').
  { unfold s2. rewrite slots_with_slots_ne by discriminate. exact Ha1. }
  unfold on_rollback. rewrite run_bind, Hmul.
  rewrite run_bind, (read_at _ _ _ a H0 Ha).
  rewrite run_bind.
  assert (Hfirst :
    (if a <? u128 (SUCC_ABORTS_MAX C)
     then write abort_count (4 * threadid tx) (wrap 128 (a + 1))
     else mret tt) s = inr (tt, s1)).
  { unfold s1, a'. fold bump. destruct bump; [|reflexivity].
    apply write_valid; assumption. }
  rewrite Hfirst.
  rewrite run_bind. unfold rand_r_seed at 1.
  rewrite run_bind, (read_at _ _ _ sd H0 Hsd1). fold low.
  destruct (rand_r C low) as [low' r] eqn:Hrand.
  rewrite run_bind, (write_valid _ _ _ s1 Hs1 Hv). rewrite run_ret.
  cbn [fst snd] in *. fold i s2.
  rewrite run_bind, (read_at _ _ _ a' H0 Ha2). fold range.
  destruct (range =? 0); reflexivity.
Qed.

(** What one call of [on_rollback] does when the abort count is within its
    cap and the product of cap and multiplier fits the 128-bit type. *)
Lemma on_rollback_step (C : config) (tx : Transaction) (s : state) (a sd : Z) :
  sized s -> 0 <= threadid tx <= 31 ->
  let i := Z.to_nat (4 * threadid tx) in
  let cap := u128 (SUCC_ABORTS_MAX C) in
  let mult := u128 (WAIT_CYCLES_MULTIPLICATOR C) in
  slots abort_count s !! i = Some a ->
  slots seed s !! i = Some sd ->
  0 < cap -> 0 < mult -> cap * mult < 2 ^ 128 -> 0 <= a <= cap ->
  let a' := if a <? cap then a + 1 else a in
  let cycles := wrap 64 (u128 (snd (rand_r C (sd mod 2 ^ 32))) mod (a' * mult)) in
  exists s',
    on_rollback C tx s = inr (tt, s') /\ sized s' /\
    slots abort_count s' !! i = Some a' /\
    waited s' = waited s ++ [cycles] /\
    0 <= cycles < a' * mult.
Proof.
  intros Hs Ht i cap mult Ha Hsd Hcap Hmult Hfit Hrange a' cycles.
  pose proof (on_rollback_run C tx s a sd Hs Ht Ha Hsd) as Hrun. cbv zeta in Hrun.
  fold i cap mult in Hrun.
  assert (Hlen : forall t, (i < length (slots t s))%nat).
  { intros t. apply valid_lt; [exact Hs|]. apply (slot_index tx s Ht). }
  assert (Hcycles : 0 <= cycles < a' * mult).
  { assert (0 < a' * mult) by (unfold a'; destruct (Z.ltb_spec a cap); nia).
    unfold cycles.
    pose proof (Z.mod_pos_bound (u128 (snd (rand_r C (sd mod 2 ^ 32)))) (a' * mult)
                  ltac:(lia)) as Hm.
    split; [apply wrap_range; lia|]. unfold wrap.
    pose proof (Z.mod_le (u128 (snd (rand_r C (sd mod 2 ^ 32))) mod (a' * mult))
                  (2 ^ 64) ltac:(lia) ltac:(lia)).
    lia. }
  subst cycles a'.
  destruct (Z.ltb_spec a cap) as [Hlt|Hge].
  - rewrite (wrap_small 128 (a + 1)) in Hrun by nia.
    rewrite (wrap_small 128 ((a + 1) * mult)) in Hrun by nia.
    destruct (Z.eqb_spec ((a + 1) * mult) 0) as [Hz|_]; [nia|].
    eexists. split; [exact Hrun|]. repeat apply conj; try apply Hcycles.
    + apply sized_with_waited, sized_write, sized_write, Hs.
    + rewrite slots_with_waited, slots_with_slots_ne by discriminate.
      rewrite slots_with_slots_eq. apply list_lookup_insert_eq, Hlen.
    + cbn [waited with_waited]. rewrite !waited_with_slots. reflexivity.
  - assert (a = cap) by lia. subst a.
    rewrite (wrap_small 128 (cap * mult)) in Hrun by nia.
    destruct (Z.eqb_spec (cap * mult) 0) as [Hz|_]; [nia|].
    eexists. split; [exact Hrun|]. repeat apply conj; try apply Hcycles.
    + apply sized_with_waited, sized_write, Hs.
    + rewrite slots_with_waited, slots_with_slots_ne by discriminate. exact Ha.
    + cbn [waited with_waited]. rewrite !waited_with_slots. reflexivity.
Qed.

(** Rollbacks in a row: the abort count climbs by one per call up to the
    cap and stays there; every wait is below cap times multiplier. *)
Lemma on_rollback_many (C : config) (tx : Transaction) (n : nat) :
  forall (s : state) (a : Z),
  sized s -> 0 <= threadid tx <= 31 ->
  let i := Z.to_nat (4 * threadid tx) in
  let cap := u128 (SUCC_ABORTS_MAX C) in
  let mult := u128 (WAIT_CYCLES_MULTIPLICATOR C) in
  slots abort_count s !! i = Some a ->
  0 < cap -> 0 < mult -> cap * mult < 2 ^ 128 -> 0 <= a <= cap ->
  exists s' ws,
    repeat_op n (on_rollback C tx) s = inr (tt, s') /\ sized s' /\
    slots abort_count s' !! i = Some (Z.min (a + Z.of_nat n) cap) /\
    waited s' = waited s ++ ws /\ length ws = n /\
    Forall (fun c => 0 <= c < cap * mult) ws.
Proof.
  induction n as [|n IH]; intros s a Hs Ht i cap mult Ha Hcap Hmult Hfit Hrange.
  - exists s, []. repeat apply conj; try reflexivity; try assumption.
    + rewrite Ha. f_equal. change (Z.of_nat 0) with 0. lia.
    + symmetry. apply app_nil_r.
    + constructor.
  - destruct (lookup_lt_is_Some_2 (slots seed s) i) as [sd Hsd].
    { apply valid_lt; [exact Hs|]. apply (slot_index tx s Ht). }
    destruct (on_rollback_step C tx s a sd Hs Ht Ha Hsd Hcap Hmult Hfit Hrange)
      as (s1 & Hrun1 & Hs1 & Ha1 & Hw1 & Hc1).
    fold i cap mult in Ha1, Hw1, Hc1.
    set (a1 := if a <? cap then a + 1 else a) in *.
    assert (Ha1r : 0 <= a1 <= cap /\ Z.min (a1 + Z.of_nat n) cap = Z.min (a + Z.of_nat (S n)) cap).
    { unfold a1. destruct (Z.ltb_spec a cap); lia. }
    destruct Ha1r as [Ha1r Hmin].
    destruct (IH s1 a1 Hs1 Ht Ha1 Hcap Hmult Hfit Ha1r)
      as (s2 & ws & Hrun2 & Hs2 & Ha2 & Hw2 & Hlen & Hall).
    fold i cap mult in Ha2, Hall.
    eexists s2, (_ :: ws). repeat apply conj.
    + cbn [repeat_op]. rewrite run_bind, Hrun1. exact Hrun2.
    + exact Hs2.
    + rewrite Ha2, Hmin. reflexivity.
    + rewrite Hw2, Hw1, <- app_assoc. reflexivity.
    + cbn [length]. rewrite Hlen. reflexivity.
    + constructor; [|exact Hall]. nia.
Qed.

(** C6. [on_rollback(tx)] adds one to the calling thread's [abort_count]
    unless it has reached [SUCC_ABORTS_MAX], so over repeated calls the
    count never goes down and stops at the maximum.  The number of cycles it
    waits is what [rand_r] draws from the thread's own seed slot, reduced
    modulo the new [abort_count] times [WAIT_CYCLES_MULTIPLICATOR], hence
    strictly below that product. *)
Theorem on_rollback_backoff (C : config) (tx : Transaction) (s : state)
    (a sd : Z) (n : nat) :
  sized s -> 0 <= threadid tx <= 31 ->
  let i := Z.to_nat (4 * threadid tx) in
  let cap := u128 (SUCC_ABORTS_MAX C) in
  let mult := u128 (WAIT_CYCLES_MULTIPLICATOR C) in
  slots abort_count s !! i = Some a ->
  slots seed s !! i = Some sd ->
  0 < cap -> 0 < mult -> cap * mult < 2 ^ 128 -> 0 <= a <= cap ->
  (let a' := if a <? cap then a + 1 else a in
   let drawn := snd (rand_r C (sd mod 2 ^ 32)) in
   exists s' cycles,
     on_rollback C tx s = inr (tt, s') /\
     slots abort_count s' !! i = Some a' /\
     a <= a' <= cap /\
     waited s' = waited s ++ [cycles] /\
     cycles = wrap 64 (u128 drawn mod (a' * mult)) /\
     0 <= cycles < a' * mult) /\
  (exists s' ws,
     repeat_op n (on_rollback C tx) s = inr (tt, s') /\
     slots abort_count s' !! i = Some (Z.min (a + Z.of_nat n) cap) /\
     waited s' = waited s ++ ws /\ length ws = n /\
     Forall (fun c => 0 <= c < cap * mult) ws).
Proof.
  intros Hs Ht i cap mult Ha Hsd Hcap Hmult Hfit Hrange. split.
  - intros a' drawn.
    destruct (on_rollback_step C tx s a sd Hs Ht Ha Hsd Hcap Hmult Hfit Hrange)
      as (s' & Hrun & _ & Ha' & Hw & Hc).
    exists s'. eexists. split; [exact Hrun|]. split; [exact Ha'|].
    split; [unfold a'; destruct (Z.ltb_spec a cap); lia|].
    split; [exact Hw|]. split; [reflexivity | exact Hc].
  - destruct (on_rollback_many C tx n s a Hs Ht Ha Hcap Hmult Hfit Hrange)
      as (s' & ws & Hrun & _ & Ha' & Hw & Hlen & Hall).
    exists s', ws. repeat apply conj; assumption.
Qed.

Lemma on_rollback_backoff_witness :
  exists s' ws,
    repeat_op 12 (on_rollback sample {| threadid := 3; is_restarted := false |})
      initial = inr (tt, s') /\
    slots abort_count s' !! 12%nat = Some 10 /\
    waited s' = ws /\ length ws = 12%nat /\
    Forall (fun c => 0 <= c < 80000) ws.
Proof.
  destruct (on_rollback_backoff sample {| threadid := 3; is_restarted := false |}
              initial 0 0 12)
    as [_ (s' & ws & Hrun & Ha & Hw & Hlen & Hall)].
  - exact sized_initial.
  - simpl. lia.
  - reflexivity.
  - reflexivity.
  - reflexivity.
  - reflexivity.
  - reflexivity.
  - vm_compute. split; discriminate.
  - exists s', ws. split; [exact Hrun|]. split; [exact Ha|].
    split; [exact Hw|]. split; [exact Hlen | exact Hall].
Defined.

Lemma outside_tables (C : config) (tx : Transaction) (s : state) :
  sized s -> ¬ (0 <= threadid tx <= 31) ->
  start C tx s = inl (no_slot (threadid tx)) /\
  on_write C tx s = inl (no_slot (threadid tx)) /\
  on_rollback C tx s = inl (no_slot (threadid tx)).
Proof.
  intros Hs Ht. unfold no_slot.
  destruct (Z.leb_spec INT_MIN (4 * threadid tx)) as [Hlo|Hlo];
    [destruct (Z.leb_spec (4 * threadid tx) INT_MAX) as [Hhi|Hhi]|]; cbn [andb].
  - assert (Hmul : int_mul (threadid tx) 4 s = inr (4 * threadid tx, s)).
    { rewrite int_mul_small by lia. do 2 f_equal. lia. }
    assert (Hv : ¬ valid (4 * threadid tx)) by (unfold valid, table_size; lia).
    repeat apply conj.
    + unfold start. rewrite run_bind, Hmul.
      destruct (is_restarted tx); rewrite run_bind, write_invalid by assumption;
        reflexivity.
    + unfold on_write. rewrite run_bind, Hmul.
      rewrite run_bind, read_invalid by assumption. reflexivity.
    + unfold on_rollback. rewrite run_bind, Hmul.
      rewrite run_bind, read_invalid by assumption. reflexivity.
  - assert (Hmul : int_mul (threadid tx) 4 s = inl SignedOverflow)
      by (apply int_mul_large; lia).
    repeat apply conj.
    + unfold start. rewrite run_bind, Hmul. reflexivity.
    + unfold on_write. rewrite run_bind, Hmul. reflexivity.
    + unfold on_rollback. rewrite run_bind, Hmul. reflexivity.
  - assert (Hmul : int_mul (threadid tx) 4 s = inl SignedOverflow)
      by (apply int_mul_large; lia).
    repeat apply conj.
    + unfold start. rewrite run_bind, Hmul. reflexivity.
    + unfold on_write. rewrite run_bind, Hmul. reflexivity.
    + unfold on_rollback. rewrite run_bind, Hmul. reflexivity.
Qed.

Lemma inside_tables (C : config) (tx : Transaction) (s : state) :
  sized s -> 0 <= threadid tx <= 31 ->
  in_bounds (start C tx s) /\ in_bounds (on_write C tx s) /\
  in_bounds (on_rollback C tx s).
Proof.
  intros Hs Ht.
  assert (Hlen : forall t, (Z.to_nat (4 * threadid tx) < length (slots t s))%nat).
  { intros t. apply valid_lt; [exact Hs|]. apply (slot_index tx s Ht). }
  destruct (lookup_lt_is_Some_2 _ _ (Hlen write_set_size)) as [w Hw].
  destruct (lookup_lt_is_Some_2 _ _ (Hlen timestamp)) as [t0 Ht0].
  destruct (lookup_lt_is_Some_2 _ _ (Hlen abort_count)) as [a Ha].
  destruct (lookup_lt_is_Some_2 _ _ (Hlen seed)) as [sd Hsd].
  repeat apply conj.
  - pose proof (start_run C tx s Hs Ht) as H. cbv zeta in H. rewrite H. exact I.
  - pose proof (on_write_run C tx s w t0 Hs Ht Hw Ht0) as H. cbv zeta in H.
    rewrite H. exact I.
  - pose proof (on_rollback_run C tx s a sd Hs Ht Ha Hsd) as H. cbv zeta in H.
    rewrite H.
    match goal with |- in_bounds (if ?c then _ else _) => destruct c end; exact I.
Qed.

(** The abort counts stay within the cap, whatever the threads call, from
    any state within the cap, the initial one for instance. *)
Lemma abort_count_capped (C : config) (ks : list call) :
  forall s s',
  sized s ->
  Forall (fun a => 0 <= a <= u128 (SUCC_ABORTS_MAX C)) (slots abort_count s) ->
  perform_all C ks s = inr (tt, s') ->
  sized s' /\
  Forall (fun a => 0 <= a <= u128 (SUCC_ABORTS_MAX C)) (slots abort_count s').
Proof.
  assert (Hcap : 0 <= u128 (SUCC_ABORTS_MAX C) < 2 ^ 128) by (apply wrap_range; lia).
  induction ks as [|k ks IH]; intros s s' Hs Hall Hrun.
  - cbn [perform_all] in Hrun. rewrite run_ret in Hrun. injection Hrun as <-.
    split; assumption.
  - cbn [perform_all] in Hrun. rewrite run_bind in Hrun.
    destruct (perform C k s) as [e|[[] s1]] eqn:Hk; [discriminate|].
    apply (IH s1 s'); [| |exact Hrun]; clear IH Hrun.
    + destruct k as [tx|tx|tx]; cbn [perform] in Hk;
        (destruct (Z_le_dec 0 (threadid tx)) as [H0|H0];
         [destruct (Z_le_dec (threadid tx) 31) as [H1|H1]|];
         [|destruct (outside_tables C tx s Hs ltac:(lia)) as (E1 & E2 & E3);
           congruence..]).
      * apply (start_sized C tx s s1 Hs ltac:(lia) Hk).
      * destruct (lookup_lt_is_Some_2 (slots write_set_size s) (Z.to_nat (4 * threadid tx)))
          as [w Hw]; [apply valid_lt; [exact Hs | unfold valid, table_size; lia]|].
        destruct (lookup_lt_is_Some_2 (slots timestamp s) (Z.to_nat (4 * threadid tx)))
          as [t0 Ht0]; [apply valid_lt; [exact Hs | unfold valid, table_size; lia]|].
        destruct (on_write_step C tx s w t0 Hs ltac:(lia) Hw Ht0) as (s2 & Hr2 & Hs2 & _).
        congruence.
      * destruct (lookup_lt_is_Some_2 (slots abort_count s) (Z.to_nat (4 * threadid tx)))
          as [a Ha]; [apply valid_lt; [exact Hs | unfold valid, table_size; lia]|].
        destruct (lookup_lt_is_Some_2 (slots seed s) (Z.to_nat (4 * threadid tx)))
          as [sd Hsd]; [apply valid_lt; [exact Hs | unfold valid, table_size; lia]|].
        pose proof (on_rollback_run C tx s a sd Hs ltac:(lia) Ha Hsd) as Hr. cbv zeta in Hr.
        rewrite Hr in Hk. clear Hr.
        match type of Hk with (if ?c then _ else _) = _ => destruct c end; [discriminate|].
        match type of Hk with inr (tt, ?x) = _ => assert (E : s1 = x) by congruence end.
        rewrite E. apply sized_with_waited, sized_write.
        destruct (a <? u128 (SUCC_ABORTS_MAX C)); [apply sized_write|]; exact Hs.
    + destruct k as [tx|tx|tx]; cbn [perform] in Hk;
        (destruct (Z_le_dec 0 (threadid tx)) as [H0|H0];
         [destruct (Z_le_dec (threadid tx) 31) as [H1|H1]|];
         [|destruct (outside_tables C tx s Hs ltac:(lia)) as (E1 & E2 & E3);
           congruence..]).
      * destruct (start_step C tx s Hs ltac:(lia)) as (s2 & Hr2 & _ & _ & _ & _ & Hac & _).
        assert (s2 = s1) by congruence. subst s2. rewrite Hac.
        destruct (is_restarted tx); [exact Hall|].
        apply Forall_insert; [exact Hall | lia].
      * pose proof (start_run C tx s Hs ltac:(lia)) as _.
        destruct (lookup_lt_is_Some_2 (slots write_set_size s) (Z.to_nat (4 * threadid tx)))
          as [w Hw]; [apply valid_lt; [exact Hs | unfold valid, table_size; lia]|].
        destruct (lookup_lt_is_Some_2 (slots timestamp s) (Z.to_nat (4 * threadid tx)))
          as [t0 Ht0]; [apply valid_lt; [exact Hs | unfold valid, table_size; lia]|].
        pose proof (on_write_run C tx s w t0 Hs ltac:(lia) Hw Ht0) as Hr. cbv zeta in Hr.
        rewrite Hr in Hk. clear Hr.
        match type of Hk with inr (tt, ?x) = _ => assert (E : s1 = x) by congruence end.
        rewrite E.
        destruct ((t0 =? u128 (MAX_TS C)) && _);
          repeat first [ rewrite slots_with_slots_ne by discriminate
                       | rewrite slots_with_ts ];
          exact Hall.
      * destruct (lookup_lt_is_Some_2 (slots abort_count s) (Z.to_nat (4 * threadid tx)))
          as [a Ha]; [apply valid_lt; [exact Hs | unfold valid, table_size; lia]|].
        destruct (lookup_lt_is_Some_2 (slots seed s) (Z.to_nat (4 * threadid tx)))
          as [sd Hsd]; [apply valid_lt; [exact Hs | unfold valid, table_size; lia]|].
        pose proof (on_rollback_run C tx s a sd Hs ltac:(lia) Ha Hsd) as Hr. cbv zeta in Hr.
        rewrite Hr in Hk. clear Hr.
        match type of Hk with (if ?c then _ else _) = _ => destruct c end; [discriminate|].
        match type of Hk with inr (tt, ?x) = _ => assert (E : s1 = x) by congruence end.
        rewrite E. rewrite slots_with_waited, slots_with_slots_ne by discriminate.
        pose proof (Forall_lookup_1 _ _ _ _ Hall Ha) as Hin. cbv beta in Hin.
        destruct (Z.ltb_spec a (u128 (SUCC_ABORTS_MAX C))); [|exact Hall].
        rewrite slots_with_slots_eq. apply Forall_insert; [exact Hall|].
        rewrite wrap_small by lia. lia.
Qed.

(** C10. [start], [on_write] and [on_rollback] all index the 128-entry
    tables at [4 * threadid].  For a thread id in 0..31 that index is
    computed and lies in 0..124, and no run of the three leaves the tables.
    For any other thread id every run ends at its first table access, or
    before it at the overflowing multiplication; from 32 on, the index, as
    far as [int] can hold it, is 128 or more, past the end. *)
Theorem slot_in_bounds_iff (C : config) (tx : Transaction) (s : state) :
  sized s -> is_int (threadid tx) ->
  let t := threadid tx in
  (in_bounds (start C tx s) <-> 0 <= t <= 31) /\
  (in_bounds (on_write C tx s) <-> 0 <= t <= 31) /\
  (in_bounds (on_rollback C tx s) <-> 0 <= t <= 31) /\
  (0 <= t <= 31 ->
   int_mul t 4 s = inr (4 * t, s) /\ 0 <= 4 * t < Z.of_nat table_size) /\
  (32 <= t ->
   start C tx s = inl (no_slot t) /\
   on_write C tx s = inl (no_slot t) /\
   on_rollback C tx s = inl (no_slot t) /\
   (4 * t <= INT_MAX ->
    no_slot t = OutOfBounds (4 * t) /\ Z.of_nat table_size <= 4 * t)).
Proof.
  intros Hs Hint t.
  assert (Hout : ¬ (0 <= t <= 31) ->
                 ¬ in_bounds (start C tx s) /\ ¬ in_bounds (on_write C tx s) /\
                 ¬ in_bounds (on_rollback C tx s)).
  { intros Hn. destruct (outside_tables C tx s Hs Hn) as (H1 & H2 & H3).
    fold t in H1, H2, H3. rewrite H1, H2, H3. unfold no_slot.
    destruct ((INT_MIN <=? 4 * t) && (4 * t <=? INT_MAX)); cbn; tauto. }
  assert (Hin : 0 <= t <= 31 ->
                in_bounds (start C tx s) /\ in_bounds (on_write C tx s) /\
                in_bounds (on_rollback C tx s))
    by (apply inside_tables; exact Hs).
  assert (Hdec : 0 <= t <= 31 \/ ¬ (0 <= t <= 31)) by lia.
  split; [|split; [|split; [|split]]].
  - split; [|tauto]. intros H. destruct Hdec as [|Hn]; [assumption|].
    apply Hout in Hn. tauto.
  - split; [|tauto]. intros H. destruct Hdec as [|Hn]; [assumption|].
    apply Hout in Hn. tauto.
  - split; [|tauto]. intros H. destruct Hdec as [|Hn]; [assumption|].
    apply Hout in Hn. tauto.
  - intros Ht. destruct (slot_index tx s Ht) as [Hmul Hv]. split; assumption.
  - intros Ht.
    destruct (outside_tables C tx s Hs ltac:(fold t; lia)) as (H1 & H2 & H3).
    repeat apply conj; try assumption.
    intros Hfit. unfold no_slot, table_size.
    destruct (Z.leb_spec INT_MIN (4 * t)); [|unfold INT_MIN in *; lia].
    destruct (Z.leb_spec (4 * t) INT_MAX); [|lia].
    cbn [andb]. split; [reflexivity | lia].
Qed.

Lemma slot_in_bounds_iff_witness :
  in_bounds (start sample {| threadid := 31; is_restarted := false |} initial) /\
  start sample {| threadid := 32; is_restarted := false |} initial
    = inl (OutOfBounds 128).
Proof.
  split.
  - apply (slot_in_bounds_iff sample {| threadid := 31; is_restarted := false |} initial).
    + exact sized_initial.
    + unfold is_int, INT_MIN, INT_MAX. simpl. lia.
    + simpl. lia.
  - destruct (slot_in_bounds_iff sample {| threadid := 32; is_restarted := false |} initial)
      as (_ & _ & _ & _ & H).
    + exact sized_initial.
    + unfold is_int, INT_MIN, INT_MAX. simpl. lia.
    + destruct H as (Hx & _); [simpl; lia|]. exact Hx.
Defined.
End ContentionManagerSpec.

(** * Part III: further properties *)

(** ** More on the reader/writer lock *)
Module TLockVersionMore.
Import TransactionTid LockResponse TLockVersion WordFacts MemFacts TLockVersionSpec.

(** *** Running alone *)
Section Alone.
Context (L : layout).

Lemma cas_loop_alone {A} (body : M cell (option A)) (c : cell) :
  others c = [] ->
  cas_loop body c =
    match body c with
    | inl e => inl e
    | inr (Some a, c') => inr (a, c')
    | inr (None, _) => inl OutOfFuel
    end.
Proof.
  intros Hq. unfold cas_loop. rewrite run_bind. cbv beta iota delta [get].
  rewrite Hq. cbn [length while_true]. rewrite run_bind.
  destruct (body c) as [e|[[a|] c']]; reflexivity.
Qed.

Lemma try_lock_read_alone (c : cell) :
  others c = [] ->
  let v := v_ c in
  let new_v := Z.lor (Z.land v (bnot (type_bits L) (mask L)))
                     (wrap (type_bits L) (Z.land v (mask L) + 1)) in
  try_lock_read L c =
    if is_locked L v then inr ((spin, 0), logged (Load v) c)
    else if negb (Z.land v (mask L) <? rlock_cnt_max)
         then inr ((optimistic, v), logged (Load v) c)
         else inr ((locked, 0), logged (Cas v new_v true) (with_v new_v (logged (Load v) c))).
Proof.
  intros Hq v new_v. unfold try_lock_read. rewrite cas_loop_alone by exact Hq.
  pose proof (try_lock_read_round_run L c) as Hr. cbv zeta in Hr. rewrite Hr. clear Hr.
  rewrite (moved_quiet L c Hq). fold v.
  destruct (is_locked L v); [reflexivity|].
  destruct (negb (Z.land v (mask L) <? rlock_cnt_max)); [reflexivity|].
  rewrite (moved_quiet L (logged (Load v) c)) by exact Hq.
  cbn [v_ logged]. fold v. rewrite Z.eqb_refl. reflexivity.
Qed.

Lemma try_lock_write_alone (adaptive : bool) (c : cell) :
  others c = [] ->
  let v := v_ c in
  let new_v := if adaptive
               then Z.land (Z.lor v (lock_bit L)) (bnot (type_bits L) (opt_bit L))
               else Z.lor v (lock_bit L) in
  try_lock_write L adaptive c =
    if is_locked L v || negb (Z.land v (mask L) =? 0)
    then inr (spin, logged (Load v) c)
    else inr (locked, logged (Cas v new_v true) (with_v new_v (logged (Load v) c))).
Proof.
  intros Hq v new_v. unfold try_lock_write. rewrite cas_loop_alone by exact Hq.
  pose proof (try_lock_write_round_run L adaptive c) as Hr. cbv zeta in Hr.
  rewrite Hr. clear Hr.
  rewrite (moved_quiet L c Hq). fold v.
  destruct (is_locked L v || negb (Z.land v (mask L) =? 0)); [reflexivity|].
  rewrite (moved_quiet L (logged (Load v) c)) by exact Hq.
  cbn [v_ logged]. fold v. rewrite Z.eqb_refl. reflexivity.
Qed.

Lemma unlock_read_alone (c : cell) :
  others c = [] ->
  let v := v_ c in
  unlock_read L false c =
    if 1 <=? Z.land v (mask L)
    then inr (tt, logged (FetchAndAdd v (-1)) (with_v (wrap (type_bits L) (v + -1)) c))
    else inl AssertionFailed.
Proof.
  intros Hq v. pose proof (unlock_read_run L c) as Hr. cbv zeta in Hr.
  rewrite Hr, (moved_quiet L c Hq). reflexivity.
Qed.

Lemma unlock_write_alone (c : cell) :
  others c = [] ->
  let v := v_ c in
  let new_v := Z.land v (bnot (type_bits L) (lock_bit L)) in
  unlock_write L false c =
    if is_locked L v
    then inr (tt, logged ReleaseFence
                    (logged (Store new_v)
                       (with_v new_v (logged (Load v) (logged (Load v) c)))))
    else inl AssertionFailed.
Proof.
  intros Hq v new_v. pose proof (unlock_write_run L c) as Hr. cbv zeta in Hr.
  rewrite Hr. clear Hr. rewrite (moved_quiet L c Hq).
  rewrite (moved_quiet L (logged (Load (v_ c)) c)) by exact Hq.
  rewrite (moved_quiet L (logged _ (logged _ c))) by exact Hq.
  reflexivity.
Qed.
End Alone.

(** *** Words *)

(** One more reader is the word plus one. *)
Lemma add_reader_succ (L : layout) (k p : Z) (F : placed L k p) (v : Z) :
  is_word L v -> Z.land v (threadid_mask L) < 16 ->
  Z.lor (Z.land v (bnot (type_bits L) (threadid_mask L)))
        (wrap (type_bits L) (Z.land v (threadid_mask L) + 1)) = v + 1.
Proof.
  intros Hv Hlt. pose proof F as (Hmask & Hk & Hw & Hp).
  destruct (add_reader_word L k p F v Hv Hlt) as (Hw' & Hc' & Hs').
  set (v' := Z.lor _ _) in *.
  rewrite !(field_mod L k p F) in Hc'.
  assert (Hq : v' / 2 ^ k = v / 2 ^ k).
  { apply Z.bits_inj'. intros i Hi.
    rewrite !Z.div_pow2_bits by lia.
    apply Hs'; [lia|]. apply (outside_field L k p F); lia. }
  pose proof (Z.div_mod v' (2 ^ k)) as E1. pose proof (Z.div_mod v (2 ^ k)) as E2.
  assert (Hpos : 0 < 2 ^ k) by (apply Z.pow_pos_nonneg; lia).
  rewrite Hq in E1. lia.
Qed.

(** Setting the lock bit of an unlocked word and clearing it again. *)
Lemma set_clear_flag (L : layout) (k p : Z) (F : placed L k p) (v : Z) :
  is_word L v -> Z.testbit v p = false ->
  Z.land (Z.lor v (2 ^ p)) (bnot (type_bits L) (2 ^ p)) = v.
Proof.
  intros Hv Hb. pose proof F as (Hmask & Hk & Hw & Hp).
  apply Z.bits_inj'. intros i Hi.
  rewrite (clear_flag_bits L k p F) by (try apply (set_flag_word L k p F); assumption).
  rewrite (set_flag_bits L k p F).
  destruct (Z.eqb_spec p i) as [->|_]; cbn [negb].
  - rewrite Hb. reflexivity.
  - rewrite Bool.orb_false_r, Bool.andb_true_r. reflexivity.
Qed.

(** *** [try_lock_write] *)

Lemma try_lock_write_round_outcome (L : layout) (adaptive : bool) (c c0 : cell) :
  well_formed L -> loop_inv L c c0 ->
  match try_lock_write_round L adaptive c0 with
  | inl _ => False
  | inr (Some r, c') => try_lock_write_post L adaptive c r c'
  | inr (None, c') =>
      loop_inv L c c' /\ (length (others c') < length (others c0))%nat
  end.
Proof.
  intros WF [Hv0 Hq0].
  destruct WF as [k l o d Hmask Hk Hlock Hopt _ Hl Ho _ Hlo _].
  assert (Fl : placed L k l) by (unfold placed; repeat split; assumption || lia).
  assert (Fo : placed L k o) by (unfold placed; repeat split; assumption || lia).
  assert (Hbits : 0 <= type_bits L) by lia.
  pose proof (try_lock_write_round_run L adaptive c0) as Hround. cbv zeta in Hround.
  rewrite Hround. clear Hround.
  set (c1 := moved L c0). set (vv := v_ c1).
  assert (Hvv : is_word L vv) by (apply moved_word; assumption).
  assert (Hq1 : others c = [] -> vv = v_ c /\ trace c1 = trace c).
  { intros Hn. specialize (Hq0 Hn). subst c0. unfold vv, c1.
    rewrite moved_quiet by exact Hn. split; reflexivity. }
  destruct (is_locked L vv) eqn:Hlocked; cbn [orb].
  { exists vv, (trace c1). split; [exact Hvv|]. split; [exact Hq1|].
    left. split; [reflexivity|]. split; [left; exact Hlocked|].
    split; reflexivity. }
  destruct (Z.eqb_spec (Z.land vv (mask L)) 0) as [Hzero|Hsome]; cbn [negb].
  2:{ exists vv, (trace c1). split; [exact Hvv|]. split; [exact Hq1|].
      left. split; [reflexivity|]. split; [right; exact Hsome|].
      split; reflexivity. }
  set (c2 := logged (Load vv) c1).
  destruct (Z.eqb_spec (v_ (moved L c2)) vv) as [Heq|Hne].
  - exists vv, (trace c1). split; [exact Hvv|]. split; [exact Hq1|].
    right.
    cbn [v_ logged with_v trace]. rewrite moved_trace.
    unfold c2. cbn [trace logged]. rewrite <- app_assoc. cbn [app].
    split; [reflexivity|]. split; [exact Hlocked|]. split; [exact Hzero|].
    split; [reflexivity|].
    unfold lock_bit, opt_bit, rlock_cnt, mask, is_locked in *.
    rewrite Hlock, Hopt in *.
    pose proof (set_flag_word L k l Fl vv Hvv) as Hw1.
    destruct adaptive.
    + split; [apply (clear_flag_word L k o Fo); exact Hw1|].
      split.
      { rewrite (flag_test L k l Fl), (clear_flag_bits L k o Fo) by (assumption || lia).
        rewrite (set_flag_bits L k l Fl), Z.eqb_refl, Bool.orb_true_r.
        cbn [andb]. destruct (Z.eqb_spec o l); [congruence | reflexivity]. }
      split.
      { rewrite (clear_flag_field L k o Fo) by exact Hw1.
        rewrite (set_flag_field L k l Fl). exact Hzero. }
      split.
      { apply Z.eqb_eq. rewrite Bits.land_pow2_test by lia.
        rewrite (clear_flag_bits L k o Fo) by (assumption || lia).
        rewrite Z.eqb_refl. cbn [negb]. rewrite Bool.andb_false_r. reflexivity. }
      intros i Hi Hm. rewrite Z.lor_spec in Hm.
      apply Bool.orb_false_iff in Hm. destruct Hm as [Hm1 Hm2].
      rewrite (clear_flag_same L k o Fo) by assumption.
      apply (set_flag_same L k l Fl); assumption.
    + split; [exact Hw1|].
      split.
      { rewrite (flag_test L k l Fl), (set_flag_bits L k l Fl), Z.eqb_refl.
        apply Bool.orb_true_r. }
      split; [rewrite (set_flag_field L k l Fl); exact Hzero|].
      split; [reflexivity | apply (set_flag_same L k l Fl)].
  - split.
    + split; [cbn [v_ logged]; apply moved_word; [exact Hbits | exact Hvv]|].
      intros Hn. exfalso. apply Hne. specialize (Hq0 Hn). subst c0.
      unfold c2, vv, c1. rewrite (moved_quiet L c Hn).
      rewrite moved_quiet by exact Hn. reflexivity.
    + cbn [others logged].
      pose proof (moved_changed L c2 Hne) as Hlt2.
      pose proof (moved_others L c0) as Hle. fold c1 in Hle.
      change (length (others c2)) with (length (others c1)) in Hlt2.
      lia.
Qed.

(** X1. [try_lock_write] returns after every finite sequence of moves
    that the other threads make between its accesses (its loop runs for as
    long as they keep changing the word, and of moves without end nothing
    is said), and what it returns is decided by the word [vv] its last
    round loaded.  If [vv] is write-locked or has readers it returns [spin]
    and leaves the word.  Otherwise its compare-and-swap
    succeeded and it returns [locked]: the new word is locked without
    readers; in the default build it is [vv | lock_bit], in the adaptive
    build the optimistic hint is cleared as well and nothing else changes.
    It never returns [failed] or [optimistic]. *)
Theorem try_lock_write_spec (L : layout) (adaptive : bool) (c : cell) :
  well_formed L -> is_word L (v_ c) ->
  exists r c' vv tr,
    try_lock_write L adaptive c = inr (r, c') /\ is_word L vv /\
    (others c = [] -> vv = v_ c /\ tr = trace c) /\
    ((r = spin /\ (is_locked L vv = true \/ rlock_cnt L vv <> 0) /\
      v_ c' = vv /\ trace c' = tr ++ [Load vv]) \/
     (r = locked /\ is_locked L vv = false /\ rlock_cnt L vv = 0 /\
      trace c' = tr ++ [Load vv; Cas vv (v_ c') true] /\
      is_word L (v_ c') /\
      is_locked L (v_ c') = true /\ rlock_cnt L (v_ c') = 0 /\
      (if adaptive
       then Z.land (v_ c') (opt_bit L) = 0 /\
            same_outside (Z.lor (lock_bit L) (opt_bit L)) (v_ c') vv
       else v_ c' = Z.lor vv (lock_bit L) /\
            same_outside (lock_bit L) (v_ c') vv))).
Proof.
  intros WF Hv.
  destruct (cas_loop_rule (try_lock_write_round L adaptive) (loop_inv L c)
              (try_lock_write_post L adaptive c)
              (fun c0 H => try_lock_write_round_outcome L adaptive c c0 WF H) c)
    as (r & c' & Hrun & vv & tr & Hvv & Hquiet & Hcases).
  { split; [exact Hv | reflexivity]. }
  exists r, c', vv, tr. split; [exact Hrun|]. split; [exact Hvv|].
  split; [exact Hquiet | exact Hcases].
Qed.

Lemma try_lock_write_spec_witness :
  exists r c' vv tr,
    try_lock_write sto true (Cell 0x600 [fun v => v + 1; fun v => v - 1] [] [])
      = inr (r, c') /\
    is_word sto vv /\
    (others (Cell 0x600 [fun v => v + 1; fun v => v - 1] [] []) = [] ->
     vv = 0x600 /\ tr = @nil event).
Proof.
  destruct (try_lock_write_spec sto true
              (Cell 0x600 [fun v => v + 1; fun v => v - 1] [] []))
    as (r & c' & vv & tr & Hrun & Hvv & Hq & _).
  - exact sto_well_formed.
  - unfold is_word. simpl. lia.
  - exists r, c', vv, tr. split; [exact Hrun|]. split; [exact Hvv | exact Hq].
Defined.

(** *** [unlock_read] *)

(** X2. The default [unlock_read] is one fetch-and-add of -1.  With [vv]
    the word it finds: if [vv] counts no reader the assertion fails;
    otherwise the call returns, the new word is [vv - 1], its reader count
    is one less and no bit outside the count field has changed. *)
Theorem unlock_read_spec (L : layout) (c : cell) :
  well_formed L -> is_word L (v_ c) ->
  exists vv, is_word L vv /\ (others c = [] -> vv = v_ c) /\
    (rlock_cnt L vv = 0 -> unlock_read L false c = inl AssertionFailed) /\
    (1 <= rlock_cnt L vv ->
     exists c', unlock_read L false c = inr (tt, c') /\
       v_ c' = vv - 1 /\ is_word L (v_ c') /\
       rlock_cnt L (v_ c') = rlock_cnt L vv - 1 /\
       same_outside (mask L) (v_ c') vv /\
       trace c' = trace c ++ [FetchAndAdd vv (-1)]).
Proof.
  intros WF Hv.
  destruct WF as [k l o d Hmask Hk Hlock _ _ Hl _ _ _ _].
  assert (Fl : placed L k l) by (unfold placed; repeat split; assumption || lia).
  assert (Hbits : 0 <= type_bits L) by lia.
  exists (v_ (moved L c)).
  assert (Hvv : is_word L (v_ (moved L c))) by (apply moved_word; assumption).
  split; [exact Hvv|].
  split; [intros Hq; rewrite moved_quiet by exact Hq; reflexivity|].
  pose proof (unlock_read_run L c) as Hrun. cbv zeta in Hrun.
  unfold rlock_cnt. split.
  - intros Hz. rewrite Hrun. destruct (Z.leb_spec 1 (Z.land (v_ (moved L c)) (mask L)));
      [lia | reflexivity].
  - intros Hge. rewrite Hrun.
    destruct (Z.leb_spec 1 (Z.land (v_ (moved L c)) (mask L))); [|lia].
    eexists. split; [reflexivity|].
    cbn [v_ logged with_v trace]. rewrite moved_trace.
    destruct (drop_reader_word L k l Fl _ Hvv Hge) as (He & Hw' & Hc' & Hs').
    change (v_ (moved L c) + -1) with (v_ (moved L c) - 1).
    rewrite He in *.
    split; [reflexivity|]. split; [exact Hw'|]. split; [exact Hc'|].
    split; [exact Hs' | reflexivity].
Qed.

Lemma unlock_read_spec_witness :
  exists vv, is_word sto vv /\
    (others (Cell 0x403 [fun v => v - 1] [] []) = [] -> vv = 0x403).
Proof.
  destruct (unlock_read_spec sto (Cell 0x403 [fun v => v - 1] [] []))
    as (vv & Hvv & Hq & _).
  - exact sto_well_formed.
  - unfold is_word. simpl. lia.
  - exists vv. split; [exact Hvv | exact Hq].
Defined.

(** *** One thread after the other

    With no move of another thread in between, each operation is a
    function of the word. *)
(** Brings a cell written with [logged] and [with_v] to its fields. *)
Ltac cells :=
  unfold logged, with_v; cbn [v_ others chances trace];
  rewrite <- ?app_assoc; reflexivity.

Section Sequential.
Context (L : layout) (WF : well_formed L).

Lemma reader_step (v : Z) :
  is_word L v -> rlock_cnt L v < rlock_cnt_max ->
  Z.lor (Z.land v (bnot (type_bits L) (mask L)))
        (wrap (type_bits L) (Z.land v (mask L) + 1)) = v + 1 /\
  is_word L (v + 1) /\ is_locked L (v + 1) = is_locked L v /\
  rlock_cnt L (v + 1) = rlock_cnt L v + 1 /\
  same_outside (mask L) (v + 1) v.
Proof.
  intros Hv Hlt. pose proof WF as [k l o d Hmask Hk Hlock _ _ Hl _ _ _ _].
  assert (Fl : placed L k l) by (unfold placed; repeat split; assumption || lia).
  unfold rlock_cnt, mask, rlock_cnt_max in *.
  pose proof (add_reader_succ L k l Fl v Hv Hlt) as He.
  destruct (add_reader_word L k l Fl v Hv Hlt) as (Hw' & Hc' & Hs').
  cbv zeta in Hw', Hc', Hs'. rewrite He in Hw', Hc', Hs'.
  split; [exact He|]. split; [exact Hw'|]. split; [|split; [exact Hc' | exact Hs']].
  unfold is_locked. rewrite Hlock, !(flag_test L k l Fl).
  apply Hs'; [lia|]. apply (flag_outside_field L k l Fl).
Qed.

Lemma reader_leaves (v : Z) :
  is_word L v -> 1 <= rlock_cnt L v ->
  wrap (type_bits L) (v + -1) = v - 1 /\
  is_word L (v - 1) /\ is_locked L (v - 1) = is_locked L v /\
  rlock_cnt L (v - 1) = rlock_cnt L v - 1 /\
  same_outside (mask L) (v - 1) v.
Proof.
  intros Hv Hge. pose proof WF as [k l o d Hmask Hk Hlock _ _ Hl _ _ _ _].
  assert (Fl : placed L k l) by (unfold placed; repeat split; assumption || lia).
  unfold rlock_cnt, mask in *.
  destruct (drop_reader_word L k l Fl v Hv Hge) as (He & Hw' & Hc' & Hs').
  cbv zeta in He, Hw', Hc', Hs'. rewrite He in Hw', Hc', Hs'.
  change (v + -1) with (v - 1).
  split; [exact He|]. split; [exact Hw'|]. split; [|split; [exact Hc' | exact Hs']].
  unfold is_locked. rewrite Hlock, !(flag_test L k l Fl).
  apply Hs'; [lia|]. apply (flag_outside_field L k l Fl).
Qed.

Lemma writer_step (v : Z) :
  is_word L v ->
  is_word L (Z.lor v (lock_bit L)) /\
  is_locked L (Z.lor v (lock_bit L)) = true /\
  rlock_cnt L (Z.lor v (lock_bit L)) = rlock_cnt L v /\
  same_outside (lock_bit L) (Z.lor v (lock_bit L)) v /\
  (is_locked L v = false ->
   Z.land (Z.lor v (lock_bit L)) (bnot (type_bits L) (lock_bit L)) = v).
Proof.
  intros Hv. pose proof WF as [k l o d Hmask Hk Hlock _ _ Hl _ _ _ _].
  assert (Fl : placed L k l) by (unfold placed; repeat split; assumption || lia).
  unfold rlock_cnt, mask, lock_bit, is_locked. rewrite Hlock.
  split; [apply (set_flag_word L k l Fl); exact Hv|].
  split; [rewrite (flag_test L k l Fl), (set_flag_bits L k l Fl), Z.eqb_refl;
          apply Bool.orb_true_r|].
  split; [apply (set_flag_field L k l Fl)|].
  split; [apply (set_flag_same L k l Fl)|].
  rewrite (flag_test L k l Fl). apply (set_clear_flag L k l Fl); exact Hv.
Qed.

Lemma writer_leaves (v : Z) :
  is_word L v ->
  is_word L (Z.land v (bnot (type_bits L) (lock_bit L))) /\
  is_locked L (Z.land v (bnot (type_bits L) (lock_bit L))) = false /\
  rlock_cnt L (Z.land v (bnot (type_bits L) (lock_bit L))) = rlock_cnt L v /\
  same_outside (lock_bit L) (Z.land v (bnot (type_bits L) (lock_bit L))) v.
Proof.
  intros Hv. pose proof WF as [k l o d Hmask Hk Hlock _ _ Hl _ _ _ _].
  assert (Fl : placed L k l) by (unfold placed; repeat split; assumption || lia).
  unfold rlock_cnt, mask, lock_bit, is_locked. rewrite Hlock.
  split; [apply (clear_flag_word L k l Fl); exact Hv|].
  split; [rewrite (flag_test L k l Fl), (clear_flag_bits L k l Fl) by (assumption || lia);
          rewrite Z.eqb_refl; apply Bool.andb_false_r|].
  split; [apply (clear_flag_field L k l Fl); exact Hv|].
  apply (clear_flag_same L k l Fl); exact Hv.
Qed.

Lemma try_lock_read_free (v : Z) (coins : list bool) (tr : list event) :
  is_word L v -> is_locked L v = false -> rlock_cnt L v < rlock_cnt_max ->
  try_lock_read L (Cell v [] coins tr) =
    inr ((locked, 0), Cell (v + 1) [] coins (tr ++ [Load v; Cas v (v + 1) true])).
Proof.
  intros Hv Hfree Hlt. pose proof WF as HWF.
  pose proof (try_lock_read_alone L (Cell v [] coins tr) eq_refl) as Hr.
  cbv zeta in Hr. cbn [v_] in Hr. rewrite Hr, Hfree.
  destruct (reader_step v Hv Hlt) as (He & _). rewrite He.
  unfold rlock_cnt in Hlt.
  destruct (Z.ltb_spec (Z.land v (mask L)) rlock_cnt_max); [|lia].
  cells.
Qed.

Lemma try_lock_read_full (v : Z) (coins : list bool) (tr : list event) :
  is_locked L v = false -> rlock_cnt_max <= rlock_cnt L v ->
  try_lock_read L (Cell v [] coins tr) =
    inr ((optimistic, v), Cell v [] coins (tr ++ [Load v])).
Proof.
  intros Hfree Hge. pose proof WF as HWF.
  pose proof (try_lock_read_alone L (Cell v [] coins tr) eq_refl) as Hr.
  cbv zeta in Hr. cbn [v_] in Hr. rewrite Hr, Hfree.
  unfold rlock_cnt in Hge.
  destruct (Z.ltb_spec (Z.land v (mask L)) rlock_cnt_max); [lia|].
  reflexivity.
Qed.

Lemma try_lock_read_busy (v : Z) (coins : list bool) (tr : list event) :
  is_locked L v = true ->
  try_lock_read L (Cell v [] coins tr) =
    inr ((spin, 0), Cell v [] coins (tr ++ [Load v])).
Proof.
  intros Hbusy. pose proof WF as HWF.
  pose proof (try_lock_read_alone L (Cell v [] coins tr) eq_refl) as Hr.
  cbv zeta in Hr. cbn [v_] in Hr. rewrite Hr, Hbusy. reflexivity.
Qed.

Lemma try_lock_write_free (v : Z) (coins : list bool) (tr : list event) :
  is_locked L v = false -> rlock_cnt L v = 0 ->
  try_lock_write L false (Cell v [] coins tr) =
    inr (locked, Cell (Z.lor v (lock_bit L)) [] coins
                   (tr ++ [Load v; Cas v (Z.lor v (lock_bit L)) true])).
Proof.
  intros Hfree Hz. pose proof WF as HWF.
  pose proof (try_lock_write_alone L false (Cell v [] coins tr) eq_refl) as Hr.
  cbv zeta in Hr. cbn [v_] in Hr. rewrite Hr, Hfree.
  unfold rlock_cnt in Hz. rewrite Hz. cbn [orb negb Z.eqb]. cells.
Qed.

Lemma try_lock_write_busy (adaptive : bool) (v : Z) (coins : list bool)
    (tr : list event) :
  is_locked L v = true \/ rlock_cnt L v <> 0 ->
  try_lock_write L adaptive (Cell v [] coins tr) =
    inr (spin, Cell v [] coins (tr ++ [Load v])).
Proof.
  intros Hbusy. pose proof WF as HWF.
  pose proof (try_lock_write_alone L adaptive (Cell v [] coins tr) eq_refl) as Hr.
  cbv zeta in Hr. cbn [v_] in Hr. rewrite Hr.
  unfold rlock_cnt in Hbusy.
  destruct (is_locked L v); [reflexivity|].
  destruct (Z.eqb_spec (Z.land v (mask L)) 0); [|reflexivity].
  destruct Hbusy; [discriminate | contradiction].
Qed.

Lemma unlock_read_held (v : Z) (coins : list bool) (tr : list event) :
  is_word L v -> 1 <= rlock_cnt L v ->
  unlock_read L false (Cell v [] coins tr) =
    inr (tt, Cell (v - 1) [] coins (tr ++ [FetchAndAdd v (-1)])).
Proof.
  intros Hv Hge.
  pose proof (unlock_read_alone L (Cell v [] coins tr) eq_refl) as Hr.
  cbv zeta in Hr. cbn [v_] in Hr. rewrite Hr.
  destruct (reader_leaves v Hv Hge) as (He & _). rewrite He.
  unfold rlock_cnt in Hge.
  destruct (Z.leb_spec 1 (Z.land v (mask L))); [|lia].
  reflexivity.
Qed.

Lemma unlock_write_held (v : Z) (coins : list bool) (tr : list event) :
  is_locked L v = true ->
  unlock_write L false (Cell v [] coins tr) =
    inr (tt, Cell (Z.land v (bnot (type_bits L) (lock_bit L))) [] coins
               (tr ++ [Load v; Load v;
                       Store (Z.land v (bnot (type_bits L) (lock_bit L)));
                       ReleaseFence])).
Proof.
  intros Hheld. pose proof WF as HWF.
  pose proof (unlock_write_alone L (Cell v [] coins tr) eq_refl) as Hr.
  cbv zeta in Hr. cbn [v_] in Hr. rewrite Hr, Hheld.
  cells.
Qed.
End Sequential.

(** X3. Taking and giving back a read lock, with no other thread in
    between, restores the word: [try_lock_read] on an unlocked word below
    the maximum makes it [v + 1] by one compare-and-swap and [unlock_read]
    takes the one away again. *)
Theorem read_lock_round_trip (L : layout) (v : Z) (coins : list bool)
    (tr : list event) :
  well_formed L -> is_word L v ->
  is_locked L v = false -> rlock_cnt L v < rlock_cnt_max ->
  (r ← try_lock_read L; unlock_read L false;; mret r) (Cell v [] coins tr) =
    inr ((locked, 0),
         Cell v [] coins
           (tr ++ [Load v; Cas v (v + 1) true; FetchAndAdd (v + 1) (-1)])).
Proof.
  intros WF Hv Hfree Hlt.
  rewrite run_bind, (try_lock_read_free L WF) by assumption.
  destruct (reader_step L WF v Hv Hlt) as (_ & Hw & _ & Hc & _).
  assert (H0 : 0 <= rlock_cnt L v) by (apply Z.land_nonneg; left; apply Hv).
  rewrite run_bind, (unlock_read_held L WF) by (assumption || lia).
  rewrite run_ret, <- app_assoc. cbn [app].
  replace (v + 1 - 1) with v by lia. reflexivity.
Qed.

Lemma read_lock_round_trip_witness :
  (r ← try_lock_read sto; unlock_read sto false;; mret r) (Cell 0x40F [] [] []) =
    inr ((locked, 0),
         Cell 0x40F [] []
           ([] ++ [Load 0x40F; Cas 0x40F (0x40F + 1) true;
                   FetchAndAdd (0x40F + 1) (-1)])).
Proof.
  apply (read_lock_round_trip sto 0x40F [] []).
  - exact sto_well_formed.
  - unfold is_word. simpl. lia.
  - reflexivity.
  - reflexivity.
Defined.

(** X4. Taking and giving back the write lock, with no other thread in
    between, restores the word in the default build: [try_lock_write] on
    a word that is neither locked nor read sets the lock bit, and
    [unlock_write] loads the word twice, stores it without the lock bit
    and fences after the store. *)
Theorem write_lock_round_trip (L : layout) (v : Z) (coins : list bool)
    (tr : list event) :
  well_formed L -> is_word L v ->
  is_locked L v = false -> rlock_cnt L v = 0 ->
  (r ← try_lock_write L false; unlock_write L false;; mret r)
    (Cell v [] coins tr) =
    inr (locked,
         Cell v [] coins
           (tr ++ [Load v; Cas v (Z.lor v (lock_bit L)) true;
                   Load (Z.lor v (lock_bit L)); Load (Z.lor v (lock_bit L));
                   Store v; ReleaseFence])).
Proof.
  intros WF Hv Hfree Hz.
  rewrite run_bind, (try_lock_write_free L WF) by assumption.
  destruct (writer_step L WF v Hv) as (_ & Hheld & _ & _ & Hback).
  rewrite run_bind, (unlock_write_held L WF) by assumption.
  rewrite run_ret, <- app_assoc, Hback by exact Hfree. reflexivity.
Qed.

Lemma write_lock_round_trip_witness :
  (r ← try_lock_write sto false; unlock_write sto false;; mret r)
    (Cell 0x400 [] [] []) =
    inr (locked,
         Cell 0x400 [] []
           ([] ++ [Load 0x400; Cas 0x400 (Z.lor 0x400 (lock_bit sto)) true;
                   Load (Z.lor 0x400 (lock_bit sto));
                   Load (Z.lor 0x400 (lock_bit sto));
                   Store 0x400; ReleaseFence])).
Proof.
  apply (write_lock_round_trip sto 0x400 [] []).
  - exact sto_well_formed.
  - unfold is_word. simpl. lia.
  - reflexivity.
  - reflexivity.
Defined.

(** X5. While one thread holds the write lock, [try_lock_read] and
    [try_lock_write] of any other thread return [spin] and leave the word;
    as soon as the holder has run [unlock_write], [try_lock_read] returns
    [locked] and the word counts one reader. *)
Theorem writer_excludes_then_admits (L : layout) (v : Z) (coins : list bool)
    (tr : list event) :
  well_formed L -> is_word L v ->
  is_locked L v = false -> rlock_cnt L v = 0 ->
  exists tr',
  (w ← try_lock_write L false;
   r1 ← try_lock_read L;
   w1 ← try_lock_write L false;
   unlock_write L false;;
   r2 ← try_lock_read L;
   mret (w, r1, w1, r2)) (Cell v [] coins tr) =
    inr ((locked, (spin, 0), spin, (locked, 0)), Cell (v + 1) [] coins tr').
Proof.
  intros WF Hv Hfree Hz.
  rewrite run_bind, (try_lock_write_free L WF) by assumption.
  destruct (writer_step L WF v Hv) as (Hw & Hheld & _ & _ & Hback).
  rewrite run_bind, (try_lock_read_busy L WF) by assumption.
  rewrite run_bind, (try_lock_write_busy L WF) by (left; assumption).
  rewrite run_bind, (unlock_write_held L WF) by assumption.
  rewrite Hback by exact Hfree.
  rewrite run_bind, (try_lock_read_free L WF) by (assumption || rewrite Hz; reflexivity).
  rewrite run_ret. eexists. reflexivity.
Qed.

Lemma writer_excludes_then_admits_witness :
  exists tr',
  (w ← try_lock_write sto false;
   r1 ← try_lock_read sto;
   w1 ← try_lock_write sto false;
   unlock_write sto false;;
   r2 ← try_lock_read sto;
   mret (w, r1, w1, r2)) (Cell 0x400 [] [] []) =
    inr ((locked, (spin, 0), spin, (locked, 0)), Cell (0x400 + 1) [] [] tr').
Proof.
  apply (writer_excludes_then_admits sto 0x400 [] []).
  - exact sto_well_formed.
  - unfold is_word. simpl. lia.
  - reflexivity.
  - reflexivity.
Defined.

(** [n] read locks in a row on an unlocked word with room for them. *)
Lemma readers_in_a_row (L : layout) (WF : well_formed L) (n : nat) :
  forall (v : Z) (coins : list bool) (tr : list event),
  is_word L v -> is_locked L v = false ->
  rlock_cnt L v + Z.of_nat n <= rlock_cnt_max ->
  exists tr',
    replicateM n (try_lock_read L) (Cell v [] coins tr) =
      inr (replicate n (locked, 0), Cell (v + Z.of_nat n) [] coins tr') /\
    is_word L (v + Z.of_nat n) /\
    is_locked L (v + Z.of_nat n) = false /\
    rlock_cnt L (v + Z.of_nat n) = rlock_cnt L v + Z.of_nat n /\
    same_outside (mask L) (v + Z.of_nat n) v.
Proof.
  induction n as [|n IH]; intros v coins tr Hv Hfree Hroom.
  - exists tr. cbn [replicateM replicate Z.of_nat]. rewrite Z.add_0_r, run_ret.
    split; [reflexivity|]. split; [exact Hv|]. split; [exact Hfree|].
    split; [lia | apply same_outside_refl].
  - assert (Hlt : rlock_cnt L v < rlock_cnt_max) by lia.
    destruct (reader_step L WF v Hv Hlt) as (_ & Hw & Hl & Hc & Hs).
    destruct (IH (v + 1) coins (tr ++ [Load v; Cas v (v + 1) true]))
      as (tr' & Hrun & Hw' & Hl' & Hc' & Hs');
      [exact Hw | congruence | lia |].
    replace (v + Z.of_nat (S n)) with (v + 1 + Z.of_nat n) by lia.
    exists tr'. cbn [replicateM replicate].
    rewrite run_bind, (try_lock_read_free L WF) by assumption.
    rewrite run_bind, Hrun, run_ret.
    split; [reflexivity|]. split; [exact Hw'|]. split; [exact Hl'|].
    split; [lia|]. apply (same_outside_trans _ _ (v + 1)); assumption.
Qed.

(** X6. Read locks add up and stop at [rlock_cnt_max]: from an unlocked
    word that counts no reader, [n <= 16] calls of [try_lock_read] in a
    row all return [locked] and leave the word at [v + n], counting [n]
    readers with every other bit as it was; once [n] is 16 the next call
    returns [optimistic] with the word and takes no lock. *)
Theorem read_locks_add_up (L : layout) (n : nat) (v : Z) (coins : list bool)
    (tr : list event) :
  well_formed L -> is_word L v ->
  is_locked L v = false -> rlock_cnt L v = 0 ->
  Z.of_nat n <= rlock_cnt_max ->
  exists tr',
    replicateM n (try_lock_read L) (Cell v [] coins tr) =
      inr (replicate n (locked, 0), Cell (v + Z.of_nat n) [] coins tr') /\
    rlock_cnt L (v + Z.of_nat n) = Z.of_nat n /\
    same_outside (mask L) (v + Z.of_nat n) v /\
    (Z.of_nat n = rlock_cnt_max ->
     try_lock_read L (Cell (v + Z.of_nat n) [] coins tr') =
       inr ((optimistic, v + Z.of_nat n),
            Cell (v + Z.of_nat n) [] coins (tr' ++ [Load (v + Z.of_nat n)]))).
Proof.
  intros WF Hv Hfree Hz Hn.
  destruct (readers_in_a_row L WF n v coins tr Hv Hfree)
    as (tr' & Hrun & Hw' & Hl' & Hc' & Hs'); [lia|].
  exists tr'. split; [exact Hrun|]. split; [lia|]. split; [exact Hs'|].
  intros Hfull. apply (try_lock_read_full L WF); [exact Hl' | lia].
Qed.

Lemma read_locks_add_up_witness :
  exists tr',
    replicateM 16 (try_lock_read sto) (Cell 0x400 [] [] []) =
      inr (replicate 16 (locked, 0), Cell (0x400 + Z.of_nat 16) [] [] tr') /\
    rlock_cnt sto (0x400 + Z.of_nat 16) = Z.of_nat 16.
Proof.
  destruct (read_locks_add_up sto 16 0x400 [] []) as (tr' & Hrun & Hc & _).
  - exact sto_well_formed.
  - unfold is_word. simpl. lia.
  - reflexivity.
  - reflexivity.
  - unfold rlock_cnt_max. simpl. lia.
  - exists tr'. split; [exact Hrun | exact Hc].
Defined.

(** *** The commit hooks *)



(** X8. [cp_unlock_impl] gives back what the item holds.  On a free word,
    a write item ([has_write]) undoes [cp_try_lock_impl] and a read item
    ([has_read] only) undoes [try_lock_read]; either way the word is
    restored.  Handing it the wrong item trips an assertion: a write item
    when the word is not locked, a read item when no reader is counted. *)
Theorem cp_unlock_impl_gives_back (L : layout) (v : Z) (threadid : Z)
    (item : TransItem) (coins : list bool) (tr : list event) :
  well_formed L -> is_word L v ->
  is_locked L v = false -> rlock_cnt L v = 0 ->
  needs_unlock item = true ->
  (has_write item = true ->
   (exists tr',
      (b ← cp_try_lock_impl L false threadid; cp_unlock_impl L false item;; mret b)
        (Cell v [] coins tr) = inr (true, Cell v [] coins tr')) /\
   cp_unlock_impl L false item (Cell v [] coins tr) = inl AssertionFailed) /\
  (has_write item = false -> has_read item = true ->
   (exists tr',
      (r ← try_lock_read L; cp_unlock_impl L false item;; mret r)
        (Cell v [] coins tr) = inr ((locked, 0), Cell v [] coins tr')) /\
   cp_unlock_impl L false item (Cell v [] coins tr) = inl AssertionFailed).
Proof.
  intros WF Hv Hfree Hz Hneeds.
  assert (Hdispatch : forall c,
    cp_unlock_impl L false item c =
      if has_write item then unlock_write L false c
      else if has_read item then unlock_read L false c
      else inl AssertionFailed).
  { intros c. unfold cp_unlock_impl. rewrite run_bind, Hneeds, run_assert_true.
    destruct (has_write item); [reflexivity|].
    rewrite run_bind. destruct (has_read item); reflexivity. }
  split.
  - intros Hwrite. split.
    + unfold cp_try_lock_impl.
      rewrite !run_bind, (try_lock_write_free L WF) by assumption.
      rewrite run_ret, run_bind, Hdispatch, Hwrite.
      destruct (writer_step L WF v Hv) as (_ & Hheld & _ & _ & Hback).
      rewrite (unlock_write_held L WF) by assumption.
      rewrite Hback by exact Hfree. rewrite run_ret. eexists. reflexivity.
    + rewrite Hdispatch, Hwrite.
      pose proof (unlock_write_alone L (Cell v [] coins tr) eq_refl) as Hr.
      cbv zeta in Hr. cbn [v_] in Hr. rewrite Hr, Hfree. reflexivity.
  - intros Hwrite Hread. split.
    + rewrite run_bind, (try_lock_read_free L WF)
        by (assumption || rewrite Hz; reflexivity).
      assert (Hlt : rlock_cnt L v < rlock_cnt_max) by (rewrite Hz; reflexivity).
      destruct (reader_step L WF v Hv Hlt) as (_ & Hw & _ & Hc & _).
      rewrite run_bind, Hdispatch, Hwrite, Hread.
      rewrite (unlock_read_held L WF) by (assumption || lia).
      rewrite run_ret. replace (v + 1 - 1) with v by lia. eexists. reflexivity.
    + rewrite Hdispatch, Hwrite, Hread.
      pose proof (unlock_read_alone L (Cell v [] coins tr) eq_refl) as Hr.
      cbv zeta in Hr. cbn [v_] in Hr. rewrite Hr.
      unfold rlock_cnt in Hz. rewrite Hz. reflexivity.
Qed.

Lemma cp_unlock_impl_gives_back_witness :
  exists tr',
    (b ← cp_try_lock_impl sto false 3;
     cp_unlock_impl sto false (Build_TransItem true true false);; mret b)
      (Cell 0x400 [] [] []) = inr (true, Cell 0x400 [] [] tr').
Proof.
  destruct (cp_unlock_impl_gives_back sto 0x400 3 (Build_TransItem true true false)
              [] []) as [Hw _].
  - exact sto_well_formed.
  - unfold is_word. simpl. lia.
  - reflexivity.
  - reflexivity.
  - reflexivity.
  - destruct (Hw eq_refl) as [Hrun _]. exact Hrun.
Defined.

(** *** The adaptive build *)

Lemma unlock_read_adaptive_alone (L : layout) (c : cell) :
  others c = [] ->
  let v := v_ c in
  let new_v := if hd false (chances c)
               then Z.lor (wrap (type_bits L) (v - 1)) (opt_bit L)
               else wrap (type_bits L) (v - 1) in
  unlock_read L true c =
    if 1 <=? Z.land v (mask L)
    then inr (tt, logged (Cas v new_v true)
                    (with_v new_v (flipped (logged (Load v) c))))
    else inl AssertionFailed.
Proof.
  intros Hq v new_v. unfold unlock_read. rewrite cas_loop_alone by exact Hq.
  pose proof (unlock_read_round_run L c) as Hr. cbv zeta in Hr. rewrite Hr. clear Hr.
  rewrite (moved_quiet L c Hq). fold v.
  destruct (1 <=? Z.land v (mask L)); [|reflexivity].
  rewrite (moved_quiet L (flipped (logged (Load v) c))) by exact Hq.
  cbn [v_ logged flipped]. fold v. rewrite Z.eqb_refl. reflexivity.
Qed.

Lemma unlock_write_adaptive_alone (L : layout) (c : cell) :
  others c = [] ->
  let v := v_ c in
  let cleared := Z.land v (bnot (type_bits L) (lock_bit L)) in
  let new_v := if hd false (chances c) then Z.lor cleared (opt_bit L) else cleared in
  unlock_write L true c =
    if is_locked L v
    then inr (tt, logged ReleaseFence
                    (logged (Store new_v)
                       (with_v new_v
                          (logged (Load v) (flipped (logged (Load v) c))))))
    else inl AssertionFailed.
Proof.
  intros Hq v cleared new_v.
  pose proof (unlock_write_adaptive_run L c) as Hr. cbv zeta in Hr.
  rewrite Hr. clear Hr. rewrite (moved_quiet L c Hq).
  rewrite (moved_quiet L (flipped (logged (Load (v_ c)) c))) by exact Hq.
  rewrite (moved_quiet L (logged _ (flipped (logged _ c)))) by exact Hq.
  reflexivity.
Qed.

(** The hint bit of a word. *)
Lemma hint_optimistic_alone (L : layout) (c : cell) :
  others c = [] ->
  hint_optimistic L c =
    inr (negb (Z.land (v_ c) (opt_bit L) =? 0), logged (Load (v_ c)) c).
Proof.
  intros Hq. unfold hint_optimistic. rewrite run_bind, load_run.
  rewrite (moved_quiet L c Hq). reflexivity.
Qed.

(** *** What the operations leave alone *)

(** The cell an equation between two results gives. *)
Ltac got H :=
  match type of H with
  | inr (tt, ?x) = inr (tt, ?y) =>
      let E := fresh "E" in assert (E : y = x) by congruence; subst y; clear H
  end.

Lemma run_frame (L : layout) (adaptive : bool) (o : operation) (c c' : cell) :
  well_formed L -> others c = [] -> is_word L (v_ c) ->
  run L adaptive o c = inr (tt, c') ->
  others c' = [] /\ is_word L (v_ c') /\
  same_outside (Z.lor (Z.lor (lock_bit L) (mask L))
                      (if adaptive then opt_bit L else 0)) (v_ c') (v_ c).
Proof.
  intros WF Hq Hv.
  pose proof WF as [k l p d Hmask Hk Hlock Hopt _ Hl Hp _ Hlp _].
  assert (Fl : placed L k l) by (unfold placed; repeat split; assumption || lia).
  assert (Fp : placed L k p) by (unfold placed; repeat split; assumption || lia).
  set (M := Z.lor (Z.lor (lock_bit L) (mask L)) (if adaptive then opt_bit L else 0)).
  assert (Wmask : forall a b, same_outside (mask L) a b -> same_outside M a b).
  { intros a b H. apply same_outside_lor_l, same_outside_lor_r, H. }
  assert (Wlock : forall a b, same_outside (lock_bit L) a b -> same_outside M a b).
  { intros a b H. apply same_outside_lor_l, same_outside_lor_l, H. }
  assert (Wopt : forall a b, adaptive = true ->
            same_outside (opt_bit L) a b -> same_outside M a b).
  { intros a b -> H. apply same_outside_lor_r, H. }
  assert (Hsame : others c = [] /\ is_word L (v_ c) /\ same_outside M (v_ c) (v_ c)).
  { split; [exact Hq|]. split; [exact Hv | apply same_outside_refl]. }
  assert (Hset : forall x, is_word L x ->
            is_word L (Z.lor x (opt_bit L)) /\
            same_outside (opt_bit L) (Z.lor x (opt_bit L)) x).
  { intros x Hx. unfold opt_bit. rewrite Hopt.
    split; [apply (set_flag_word L k p Fp); exact Hx | apply (set_flag_same L k p Fp)]. }
  assert (Hclear : forall x, is_word L x ->
            is_word L (Z.land x (bnot (type_bits L) (opt_bit L))) /\
            same_outside (opt_bit L) (Z.land x (bnot (type_bits L) (opt_bit L))) x).
  { intros x Hx. unfold opt_bit. rewrite Hopt.
    split; [apply (clear_flag_word L k p Fp) | apply (clear_flag_same L k p Fp)];
      exact Hx. }
  destruct o; cbn [run].
  - rewrite run_bind.
    pose proof (try_lock_read_alone L c Hq) as Hr. cbv zeta in Hr. rewrite Hr. clear Hr.
    destruct (is_locked L (v_ c)); [rewrite run_ret; intros H; got H; exact Hsame|].
    destruct (Z.ltb_spec (Z.land (v_ c) (mask L)) rlock_cnt_max) as [Hlt|Hge];
      cbn [negb]; rewrite run_ret; intros H; got H; [|exact Hsame].
    destruct (reader_step L WF (v_ c) Hv Hlt) as (He & Hw & _ & _ & Hs).
    cbn [others v_ logged with_v]. rewrite He.
    split; [exact Hq|]. split; [exact Hw | apply Wmask, Hs].
  - rewrite run_bind.
    pose proof (try_lock_write_alone L adaptive c Hq) as Hr. cbv zeta in Hr.
    rewrite Hr. clear Hr.
    destruct (is_locked L (v_ c) || negb (Z.land (v_ c) (mask L) =? 0));
      rewrite run_ret; intros H; got H; [exact Hsame|].
    cbn [others v_ logged with_v].
    destruct (writer_step L WF (v_ c) Hv) as (Hw & _ & _ & Hs & _).
    split; [exact Hq|]. destruct adaptive eqn:Ha.
    + destruct (Hclear _ Hw) as [Hw2 Hs2]. split; [exact Hw2|].
      apply (same_outside_trans _ _ (Z.lor (v_ c) (lock_bit L)));
        [apply Wopt; [reflexivity | exact Hs2] | apply Wlock, Hs].
    + split; [exact Hw | apply Wlock, Hs].
  - destruct adaptive eqn:Ha.
    + pose proof (unlock_read_adaptive_alone L c Hq) as Hr. cbv zeta in Hr.
      rewrite Hr. clear Hr.
      destruct (Z.leb_spec 1 (Z.land (v_ c) (mask L))) as [Hge|_]; [|discriminate].
      intros H; got H. cbn [others v_ logged with_v flipped].
      destruct (reader_leaves L WF (v_ c) Hv Hge) as (He & Hw & _ & _ & Hs).
      change (v_ c + -1) with (v_ c - 1) in He. rewrite He.
      split; [exact Hq|]. destruct (hd false (chances c)).
      * destruct (Hset _ Hw) as [Hw2 Hs2]. split; [exact Hw2|].
        apply (same_outside_trans _ _ (v_ c - 1));
          [apply Wopt; [reflexivity | exact Hs2] | apply Wmask, Hs].
      * split; [exact Hw | apply Wmask, Hs].
    + pose proof (unlock_read_alone L c Hq) as Hr. cbv zeta in Hr.
      rewrite Hr. clear Hr.
      destruct (Z.leb_spec 1 (Z.land (v_ c) (mask L))) as [Hge|_]; [|discriminate].
      intros H; got H. cbn [others v_ logged with_v].
      destruct (reader_leaves L WF (v_ c) Hv Hge) as (He & Hw & _ & _ & Hs).
      rewrite He. split; [exact Hq|]. split; [exact Hw | apply Wmask, Hs].
  - destruct (writer_leaves L WF (v_ c) Hv) as (Hw & _ & _ & Hs).
    destruct adaptive eqn:Ha.
    + pose proof (unlock_write_adaptive_alone L c Hq) as Hr. cbv zeta in Hr.
      rewrite Hr. clear Hr.
      destruct (is_locked L (v_ c)); [|discriminate].
      intros H; got H. cbn [others v_ logged with_v flipped].
      split; [exact Hq|]. destruct (hd false (chances c)).
      * destruct (Hset _ Hw) as [Hw2 Hs2]. split; [exact Hw2|].
        apply (same_outside_trans _ _ (Z.land (v_ c) (bnot (type_bits L) (lock_bit L))));
          [apply Wopt; [reflexivity | exact Hs2] | apply Wlock, Hs].
      * split; [exact Hw | apply Wlock, Hs].
    + pose proof (unlock_write_alone L c Hq) as Hr. cbv zeta in Hr.
      rewrite Hr. clear Hr.
      destruct (is_locked L (v_ c)); [|discriminate].
      intros H; got H. cbn [others v_ logged with_v].
      split; [exact Hq|]. split; [exact Hw | apply Wlock, Hs].
Qed.

(** X9. The lock never touches the version.  Whatever operations a thread
    runs one after the other and whatever they return, as long as no
    assertion fails the word differs from the first one only in the lock
    bit and the reader count, and in the adaptive build in the optimistic
    hint: every other bit of the word is as it was. *)
Theorem lock_operations_keep_version (L : layout) (adaptive : bool)
    (ops : list operation) (v : Z) (coins : list bool) (tr : list event)
    (c' : cell) :
  well_formed L -> is_word L v ->
  run_all L adaptive ops (Cell v [] coins tr) = inr (tt, c') ->
  is_word L (v_ c') /\
  same_outside (Z.lor (Z.lor (lock_bit L) (mask L))
                      (if adaptive then opt_bit L else 0)) (v_ c') v.
Proof.
  intros WF Hv Hrun.
  enough (G : forall c, others c = [] -> is_word L (v_ c) ->
            run_all L adaptive ops c = inr (tt, c') ->
            is_word L (v_ c') /\
            same_outside (Z.lor (Z.lor (lock_bit L) (mask L))
                                (if adaptive then opt_bit L else 0)) (v_ c') (v_ c)).
  { apply (G (Cell v [] coins tr)); [reflexivity | exact Hv | exact Hrun]. }
  clear v coins tr Hv Hrun.
  induction ops as [|o ops IH]; intros c Hq Hv Hrun.
  - cbn [run_all] in Hrun. rewrite run_ret in Hrun. got Hrun.
    split; [exact Hv | apply same_outside_refl].
  - cbn [run_all] in Hrun. rewrite run_bind in Hrun.
    destruct (run L adaptive o c) as [e|[[] c1]] eqn:Hone; [discriminate|].
    destruct (run_frame L adaptive o c c1 WF Hq Hv Hone) as (Hq1 & Hv1 & Hs1).
    destruct (IH c1 Hq1 Hv1 Hrun) as [Hv' Hs'].
    split; [exact Hv'|]. apply (same_outside_trans _ _ (v_ c1)); assumption.
Qed.

Lemma lock_operations_keep_version_witness :
  is_word sto 0x401 /\
  same_outside (Z.lor (Z.lor (lock_bit sto) (mask sto)) 0) 0x401 0x400.
Proof.
  apply (lock_operations_keep_version sto false
           [op_try_lock_write; op_unlock_write; op_try_lock_read]
           0x400 [] []
           (Cell 0x401 [] []
              [Load 0x400; Cas 0x400 0x420 true; Load 0x420; Load 0x420;
               Store 0x400; ReleaseFence; Load 0x400; Cas 0x400 0x401 true])).
  - exact sto_well_formed.
  - unfold is_word. simpl. lia.
  - reflexivity.
Defined.

(** X10. The optimistic hint of the adaptive build follows the writers:
    [try_lock_write] clears it with the lock taken, so [hint_optimistic]
    answers no while the lock is held, and [unlock_write] sets it exactly
    when the generator's next outcome says so, which is what
    [hint_optimistic] answers afterwards.  The word is unlocked again and
    differs from the first one in the hint bit at most. *)
Theorem adaptive_hint_follows_writer (L : layout) (v : Z) (coin : bool)
    (coins : list bool) (tr : list event) :
  well_formed L -> is_word L v ->
  is_locked L v = false -> rlock_cnt L v = 0 ->
  exists v' tr',
    (w ← try_lock_write L true;
     h1 ← hint_optimistic L;
     unlock_write L true;;
     h2 ← hint_optimistic L;
     mret (w, h1, h2)) (Cell v [] (coin :: coins) tr) =
      inr ((locked, false, coin), Cell v' [] coins tr') /\
    is_word L v' /\ is_locked L v' = false /\ rlock_cnt L v' = 0 /\
    same_outside (opt_bit L) v' v.
Proof.
  intros WF Hv Hfree Hz.
  pose proof WF as [k l p d Hmask Hk Hlock Hopt _ Hl Hp _ Hlp _].
  assert (Fl : placed L k l) by (unfold placed; repeat split; assumption || lia).
  assert (Fp : placed L k p) by (unfold placed; repeat split; assumption || lia).
  set (w1 := Z.land (Z.lor v (lock_bit L)) (bnot (type_bits L) (opt_bit L))).
  set (cleared := Z.land w1 (bnot (type_bits L) (lock_bit L))).
  set (v' := if coin then Z.lor cleared (opt_bit L) else cleared).
  assert (Hvl : Z.testbit v l = false).
  { unfold is_locked in Hfree. rewrite Hlock, (flag_test L k l Fl) in Hfree.
    exact Hfree. }
  assert (Hw0 : is_word L (Z.lor v (lock_bit L))).
  { unfold lock_bit. rewrite Hlock. apply (set_flag_word L k l Fl), Hv. }
  assert (Hw1 : is_word L w1).
  { unfold w1, opt_bit. rewrite Hopt. apply (clear_flag_word L k p Fp), Hw0. }
  assert (Hb1 : forall i, 0 <= i ->
            Z.testbit w1 i = (Z.testbit v i || (l =? i)) && negb (p =? i)).
  { intros i Hi. unfold w1, opt_bit, lock_bit in *. rewrite Hopt, Hlock in *.
    rewrite (clear_flag_bits L k p Fp) by assumption.
    rewrite (set_flag_bits L k l Fl). reflexivity. }
  assert (Hwc : is_word L cleared).
  { unfold cleared, lock_bit. rewrite Hlock. apply (clear_flag_word L k l Fl), Hw1. }
  assert (Hbc : forall i, 0 <= i ->
            Z.testbit cleared i = Z.testbit v i && negb (p =? i)).
  { intros i Hi. unfold cleared, lock_bit. rewrite Hlock.
    rewrite (clear_flag_bits L k l Fl) by assumption.
    rewrite Hb1 by exact Hi.
    destruct (Z.eqb_spec l i) as [<-|_]; cbn [negb].
    - rewrite Hvl, Bool.andb_false_r. reflexivity.
    - rewrite Bool.orb_false_r, Bool.andb_true_r. reflexivity. }
  assert (Hw' : is_word L v').
  { unfold v', opt_bit. rewrite Hopt.
    destruct coin; [apply (set_flag_word L k p Fp)|]; exact Hwc. }
  assert (Hb' : forall i, 0 <= i ->
            Z.testbit v' i = if p =? i then coin else Z.testbit v i).
  { intros i Hi. unfold v', opt_bit. rewrite Hopt.
    destruct coin; [rewrite (set_flag_bits L k p Fp)|]; rewrite Hbc by exact Hi;
      destruct (p =? i); cbn [negb];
      rewrite ?Bool.andb_false_r, ?Bool.andb_true_r, ?Bool.orb_true_r,
              ?Bool.orb_false_r; reflexivity. }
  assert (Hheld : is_locked L w1 = true).
  { unfold is_locked. rewrite Hlock, (flag_test L k l Fl), Hb1 by lia.
    rewrite Z.eqb_refl, Bool.orb_true_r.
    destruct (Z.eqb_spec p l); [congruence | reflexivity]. }
  assert (Hh1 : negb (Z.land w1 (opt_bit L) =? 0) = false).
  { unfold opt_bit. rewrite Hopt, (flag_test L k p Fp), Hb1 by lia.
    rewrite Z.eqb_refl. apply Bool.andb_false_r. }
  assert (Hh2 : negb (Z.land v' (opt_bit L) =? 0) = coin).
  { unfold opt_bit. rewrite Hopt, (flag_test L k p Fp), Hb' by lia.
    rewrite Z.eqb_refl. reflexivity. }
  exists v'. eexists. split; [|split; [exact Hw'|split; [|split]]].
  - rewrite run_bind.
    pose proof (try_lock_write_alone L true (Cell v [] (coin :: coins) tr) eq_refl) as Hr.
    cbv zeta in Hr. cbn [v_] in Hr. rewrite Hr, Hfree. clear Hr.
    unfold rlock_cnt in Hz. rewrite Hz. cbn [orb negb Z.eqb]. fold w1.
    rewrite run_bind, hint_optimistic_alone by reflexivity.
    cbn [v_ logged with_v]. rewrite Hh1, run_bind.
    match goal with |- context [unlock_write L true ?c] =>
      pose proof (unlock_write_adaptive_alone L c eq_refl) as Hr end.
    cbv zeta in Hr. cbn [v_ chances logged with_v hd] in Hr.
    rewrite Hheld in Hr. fold cleared in Hr. fold v' in Hr.
    unfold logged, with_v in *. cbn [v_ others chances trace] in *.
    rewrite Hr. clear Hr.
    rewrite run_bind, hint_optimistic_alone by reflexivity.
    cbn [v_ logged flipped chances tl]. rewrite Hh2, run_ret.
    unfold logged, flipped. cbn [v_ others chances trace tl]. reflexivity.
  - unfold is_locked. rewrite Hlock, (flag_test L k l Fl), Hb' by lia.
    destruct (Z.eqb_spec p l); [congruence | exact Hvl].
  - unfold rlock_cnt, mask in *. rewrite <- Hz.
    apply (field_same L k p Fp). intros i Hi. rewrite Hb' by lia.
    destruct (Z.eqb_spec p i); [lia | reflexivity].
  - intros i Hi Hm. unfold opt_bit in Hm. rewrite Hopt in Hm.
    rewrite Bits.testbit_pow2 in Hm by lia.
    rewrite Hb', Hm by exact Hi. reflexivity.
Qed.

Lemma adaptive_hint_follows_writer_witness :
  exists v' tr',
    (w ← try_lock_write sto true;
     h1 ← hint_optimistic sto;
     unlock_write sto true;;
     h2 ← hint_optimistic sto;
     mret (w, h1, h2)) (Cell 0x400 [] [true] []) =
      inr ((locked, false, true), Cell v' [] [] tr') /\
    is_word sto v'.
Proof.
  destruct (adaptive_hint_follows_writer sto 0x400 true [] [])
    as (v' & tr' & Hrun & Hw & _).
  - exact sto_well_formed.
  - unfold is_word. simpl. lia.
  - reflexivity.
  - reflexivity.
  - exists v', tr'. split; [exact Hrun | exact Hw].
Defined.




(** *** Upgrading *)

Lemma try_upgrade_alone (L : layout) (c : cell) :
  others c = [] ->
  let v := v_ c in
  let new_v := Z.lor (wrap (type_bits L) (v - 1)) (lock_bit L) in
  try_upgrade L c =
    if is_locked L v then inl AssertionFailed
    else if negb (1 <=? Z.land v (mask L)) then inl AssertionFailed
    else if Z.land v (mask L) =? 1
         then inr (locked, logged (Cas v new_v true) (with_v new_v (logged (Load v) c)))
         else inr (spin, logged (Load v) c).
Proof.
  intros Hq v new_v. pose proof (try_upgrade_run L c) as Hr. cbv zeta in Hr.
  rewrite Hr. clear Hr. rewrite (moved_quiet L c Hq). fold v.
  rewrite (moved_quiet L (logged (Load v) c)) by exact Hq.
  cbn [v_ logged]. fold v. rewrite Z.eqb_refl. reflexivity.
Qed.

(** X12. A reader that is alone can turn its read lock into the write
    lock and give it back: [try_lock_read], [try_upgrade] and
    [unlock_write] in a row on a free word return [locked] twice and
    restore the word.  With other readers counted, [try_upgrade] returns
    [spin] and the caller keeps its read lock: the word still counts it. *)
Theorem upgrade_round_trip (L : layout) (v : Z) (coins : list bool)
    (tr : list event) :
  well_formed L -> is_word L v -> is_locked L v = false ->
  rlock_cnt L v < rlock_cnt_max ->
  exists tr',
    (rlock_cnt L v = 0 ->
     (r ← try_lock_read L; u ← try_upgrade L; unlock_write L false;; mret (r, u))
       (Cell v [] coins tr) = inr (((locked, 0), locked), Cell v [] coins tr')) /\
    (1 <= rlock_cnt L v ->
     (r ← try_lock_read L; u ← try_upgrade L; mret (r, u))
       (Cell v [] coins tr) = inr (((locked, 0), spin), Cell (v + 1) [] coins tr')).
Proof.
  intros WF Hv Hfree Hlt.
  destruct (reader_step L WF v Hv Hlt) as (_ & Hw & Hl & Hc & _).
  rewrite Hfree in Hl.
  pose proof (try_upgrade_alone L
                (Cell (v + 1) [] coins (tr ++ [Load v; Cas v (v + 1) true])) eq_refl)
    as Hup.
  cbv zeta in Hup. cbn [v_] in Hup. rewrite Hl in Hup.
  unfold rlock_cnt in Hc. rewrite Hc in Hup.
  assert (H0 : 0 <= Z.land v (mask L)) by (apply Z.land_nonneg; left; apply Hv).
  destruct (Z.leb_spec 1 (Z.land v (mask L) + 1)) as [_|]; [|lia].
  cbn [negb] in Hup.
  destruct (Z.eqb_spec (Z.land v (mask L) + 1) 1) as [Hone|Hmore].
  - eexists. split; [|unfold rlock_cnt; lia]. intros _.
    rewrite run_bind, (try_lock_read_free L WF) by assumption.
    rewrite run_bind, Hup.
    replace (v + 1 - 1) with v by lia.
    rewrite (wrap_small (type_bits L) v) by exact Hv.
    destruct (writer_step L WF v Hv) as (_ & Hheld & _ & _ & Hback).
    unfold logged, with_v. cbn [v_ others chances trace].
    rewrite run_bind, (unlock_write_held L WF) by assumption.
    rewrite Hback by exact Hfree. rewrite run_ret. reflexivity.
  - eexists. split; [unfold rlock_cnt; lia|]. intros _.
    rewrite run_bind, (try_lock_read_free L WF) by assumption.
    rewrite run_bind, Hup, run_ret.
    unfold logged. cbn [v_ others chances trace]. reflexivity.
Qed.

Lemma upgrade_round_trip_witness :
  exists tr',
    (rlock_cnt sto 0x400 = 0 ->
     (r ← try_lock_read sto; u ← try_upgrade sto; unlock_write sto false;; mret (r, u))
       (Cell 0x400 [] [] []) = inr (((locked, 0), locked), Cell 0x400 [] [] tr')) /\
    (1 <= rlock_cnt sto 0x400 ->
     (r ← try_lock_read sto; u ← try_upgrade sto; mret (r, u))
       (Cell 0x400 [] [] []) = inr (((locked, 0), spin), Cell (0x400 + 1) [] [] tr')).
Proof.
  apply (upgrade_round_trip sto 0x400 [] []).
  - exact sto_well_formed.
  - unfold is_word. simpl. lia.
  - reflexivity.
  - reflexivity.
Defined.
End TLockVersionMore.

(** ** More on the owner lock *)
Module TSwissVersionMore.
Import TransactionTid TSwissVersion WordFacts MemFacts TSwissVersionSpec.

Lemma land_bits (a b c : Z) :
  Z.land a b = c -> forall i, Z.testbit a i && Z.testbit b i = Z.testbit c i.
Proof. intros <- i. rewrite Z.land_spec. reflexivity. Qed.

(** X13. A version built for an insert is born locked by its creator.
    For a plain version number [v] (not locked, no owner) and a thread id
    that fits the owner field, [TSwissVersion(v, true)] is locked, its
    owner is the calling thread, no other thread id is taken for the
    holder, and the rest of [v] is kept but for the non-opaque bit that an
    opaque class sets.  [TSwissVersion(v, false)] takes no lock. *)
Theorem init_locks_for_creator (L : layout) (Opacity : bool) (here v : Z) :
  well_formed L -> is_word L v ->
  is_locked L v = false -> owner L v = 0 ->
  Z.land here (TransactionTid.threadid_mask L) = here ->
  Z.land (nonopaque_bit L)
         (Z.lor (TransactionTid.lock_bit L) (TransactionTid.threadid_mask L)) = 0 ->
  let w := init L Opacity here v true in
  is_locked_here L w here = true /\
  is_locked L w = true /\ owner L w = here /\
  (forall tid, Z.land tid (TransactionTid.threadid_mask L) = tid ->
     is_locked_here L w tid = true -> tid = here) /\
  same_outside (Z.lor (Z.lor (TransactionTid.lock_bit L) (TransactionTid.threadid_mask L))
                      (nonopaque_bit L)) w v /\
  is_locked L (init L Opacity here v false) = false.
Proof.
  intros WF Hv Hfree Howner Hhere Hnon w.
  pose proof WF as [k l p d Hmask Hk Hlock _ _ Hl _ _ _ _].
  assert (Fl : placed L k l) by (unfold placed; repeat split; assumption || lia).
  assert (Hvl : Z.testbit v l = false).
  { rewrite <- (locked_test L k l Fl Hlock). exact Hfree. }
  assert (Hml : Z.testbit (TransactionTid.threadid_mask L) l = false)
    by apply (flag_outside_field L k l Fl).
  pose proof (land_bits _ _ _ Howner) as Bv.
  pose proof (land_bits _ _ _ Hhere) as Bh.
  pose proof (land_bits _ _ _ Hnon) as Bn.
  assert (Bw : forall i, 0 <= i ->
            Z.testbit w i =
            Z.testbit v i || ((l =? i) || Z.testbit here i)
            || (Opacity && Z.testbit (nonopaque_bit L) i)).
  { intros i Hi. unfold w, init, lock_bit. rewrite Hlock.
    destruct Opacity; rewrite !Z.lor_spec, Bits.testbit_pow2 by lia;
      cbn [andb]; rewrite ?Bool.orb_false_r; reflexivity. }
  assert (Bhere : forall i, 0 <= i ->
            Z.testbit w i &&
            ((l =? i) || Z.testbit (TransactionTid.threadid_mask L) i)
            = (l =? i) || Z.testbit here i).
  { intros i Hi. rewrite Bw by exact Hi.
    specialize (Bv i). specialize (Bh i). specialize (Bn i).
    rewrite Z.bits_0 in Bv, Bn.
    rewrite Z.lor_spec, Hlock, Bits.testbit_pow2 in Bn by lia.
    destruct (Z.eqb_spec l i) as [<-|_].
    - rewrite Bool.orb_true_r. reflexivity.
    - cbn [orb] in *.
      destruct (Z.testbit v i), (Z.testbit here i),
        (Z.testbit (TransactionTid.threadid_mask L) i),
        (Z.testbit (nonopaque_bit L) i), Opacity;
        cbn in *; congruence. }
  assert (Hheld : Z.land w (Z.lor (TransactionTid.lock_bit L)
                                  (TransactionTid.threadid_mask L))
                  = Z.lor (TransactionTid.lock_bit L) here).
  { apply Z.bits_inj'. intros i Hi.
    rewrite Z.land_spec, !Z.lor_spec, Hlock, Bits.testbit_pow2 by lia.
    apply Bhere, Hi. }
  split; [unfold is_locked_here; rewrite Hheld; apply Z.eqb_refl|].
  split.
  { rewrite (locked_test L k l Fl Hlock), Bw by lia.
    rewrite Z.eqb_refl. cbn [orb]. rewrite Bool.orb_true_r. reflexivity. }
  split.
  { unfold owner. apply Z.bits_inj'. intros i Hi. rewrite Z.land_spec.
    pose proof (Bhere i Hi) as B. specialize (Bh i).
    destruct (Z.eqb_spec l i) as [<-|_].
    - rewrite Hml, Bool.andb_false_r. rewrite Hml, Bool.andb_false_r in Bh.
      exact Bh.
    - exact B. }
  split.
  { intros tid Htid Hlocked. unfold is_locked_here in Hlocked.
    apply Z.eqb_eq in Hlocked. rewrite Hheld in Hlocked.
    pose proof (land_bits _ _ _ Htid) as Bt.
    apply Z.bits_inj'. intros i Hi.
    pose proof (f_equal (fun x => Z.testbit x i) Hlocked) as B. cbn beta in B.
    rewrite !Z.lor_spec, Hlock, Bits.testbit_pow2 in B by lia.
    specialize (Bt i). specialize (Bh i).
    destruct (Z.eqb_spec l i) as [<-|_].
    - rewrite Hml, Bool.andb_false_r in Bt, Bh. congruence.
    - symmetry. exact B. }
  split.
  { intros i Hi Hm. rewrite !Z.lor_spec, Hlock, Bits.testbit_pow2 in Hm by lia.
    rewrite Bw by exact Hi. specialize (Bh i).
    destruct (Z.eqb_spec l i) as [<-|_]; [discriminate|].
    cbn [orb] in *.
    destruct (Z.testbit v i), (Z.testbit here i),
      (Z.testbit (TransactionTid.threadid_mask L) i),
      (Z.testbit (nonopaque_bit L) i), Opacity;
      cbn in *; congruence. }
  rewrite (locked_test L k l Fl Hlock). unfold init.
  specialize (Bn l). rewrite Z.bits_0, Z.lor_spec, Hlock, Bits.testbit_pow2 in Bn by lia.
  rewrite Z.eqb_refl, Bool.andb_true_r in Bn.
  destruct Opacity; rewrite !Z.lor_spec, ?Bn, Z.bits_0; rewrite Hvl; reflexivity.
Qed.

Lemma init_locks_for_creator_witness :
  is_locked_here sto (init sto true 3 0x400 true) 3 = true /\
  is_locked sto (init sto true 3 0x400 true) = true /\
  owner sto (init sto true 3 0x400 true) = 3.
Proof.
  destruct (init_locks_for_creator sto true 3 0x400) as (H1 & H2 & H3 & _).
  - exact sto_well_formed.
  - unfold is_word. simpl. lia.
  - reflexivity.
  - reflexivity.
  - reflexivity.
  - reflexivity.
  - split; [exact H1|]. split; [exact H2 | exact H3].
Defined.

Lemma is_read_locked_alone (L : layout) (c : cell) :
  others c = [] ->
  is_read_locked L c = inr (is_dirty L (v_ c), logged (Load (v_ c)) c).
Proof.
  intros Hq. unfold is_read_locked. rewrite run_bind, load_run.
  rewrite (moved_quiet L c Hq). reflexivity.
Qed.

Lemma cp_unlock_impl_alone (L : layout) (here : Z) (item : TransItem) (c : cell) :
  others c = [] -> needs_unlock item = true ->
  cp_unlock_impl L here item c =
    if is_locked L (v_ c)
    then if is_locked_here L (v_ c) here
         then inr (tt, logged (Store (unlocked L (v_ c)))
                         (with_v (unlocked L (v_ c))
                            (logged ReleaseFence
                               (logged (Load (v_ c)) (logged (Load (v_ c)) c)))))
         else inr (tt, logged (Load (v_ c)) (logged (Load (v_ c)) c))
    else inr (tt, logged (Load (v_ c)) c).
Proof.
  intros Hq Hneeds. pose proof (cp_unlock_impl_run L here item c) as Hr.
  cbv zeta in Hr. rewrite Hr, Hneeds. clear Hr.
  rewrite (moved_quiet L c Hq).
  rewrite (moved_quiet L (logged (Load (v_ c)) c)) by exact Hq.
  rewrite (moved_quiet L (logged ReleaseFence _)) by exact Hq.
  cbn [v_ logged]. destruct (is_locked L (v_ c)); [|reflexivity].
  destruct (is_locked_here L (v_ c) here); reflexivity.
Qed.

(** X14. The commit of a locked version, from lock to release.  On a word
    the calling thread holds, [cp_try_lock_impl] returns true and
    [is_read_locked] then answers yes; [cp_unlock_impl] releases the
    word, after which [is_read_locked] answers no, the word is neither
    locked nor dirty, has no owner, and has the version bits it had; a
    second [cp_unlock_impl] finds the word unlocked, loads it and changes
    nothing. *)
Theorem commit_cycle (L : layout) (item : TransItem) (here v : Z)
    (coins : list bool) (tr : list event) :
  well_formed L -> is_word L v -> needs_unlock item = true ->
  is_locked_here L v here = true ->
  exists u tr',
    (b ← cp_try_lock_impl L here;
     r1 ← is_read_locked L;
     cp_unlock_impl L here item;;
     r2 ← is_read_locked L;
     cp_unlock_impl L here item;;
     mret (b, r1, r2)) (Cell v [] coins tr) =
      inr ((true, true, false), Cell u [] coins tr') /\
    u = unlocked L (Z.lor v (dirty_bit L)) /\
    is_word L u /\ is_locked L u = false /\ is_dirty L u = false /\
    owner L u = 0 /\
    same_outside (Z.lor (Z.lor (TransactionTid.lock_bit L)
                               (TransactionTid.threadid_mask L))
                        (dirty_bit L)) u v.
Proof.
  intros WF Hv Hneeds Hheld.
  pose proof WF as [k l p d Hmask Hk Hlock _ Hdirty Hl _ Hd _ Hld].
  assert (Fl : placed L k l) by (unfold placed; repeat split; assumption || lia).
  assert (Fd : placed L k d) by (unfold placed; repeat split; assumption || lia).
  set (w := Z.lor v (dirty_bit L)).
  set (u := unlocked L w).
  assert (Hw : is_word L w).
  { unfold w. rewrite Hdirty. apply (set_flag_word L k d Fd), Hv. }
  assert (Hwl : is_locked L w = true).
  { apply (locked_here_locked L k l Fl Hlock w here).
    unfold w. rewrite Hdirty, (locked_here_set_dirty L k l d Fl Fd Hlock Hld).
    exact Hheld. }
  assert (Hwh : is_locked_here L w here = true).
  { unfold w. rewrite Hdirty, (locked_here_set_dirty L k l d Fl Fd Hlock Hld).
    exact Hheld. }
  assert (Hwd : is_dirty L w = true).
  { rewrite (dirty_test L k d Fd Hdirty). unfold w. rewrite Hdirty.
    rewrite (set_flag_bits L k d Fd), Z.eqb_refl. apply Bool.orb_true_r. }
  destruct (unlocked_word L k l d Fl Fd Hlock Hdirty Hld w Hw)
    as (Hu & Hul & Hud & Huo & Hus).
  fold u in Hu, Hul, Hud, Huo, Hus.
  exists u. eexists. split; [|split; [reflexivity|]].
  - rewrite run_bind.
    pose proof (cp_try_lock_impl_run L here (Cell v [] coins tr)) as Hr.
    cbv zeta in Hr. unfold moved, logged, with_v in Hr.
    cbn [v_ others chances trace] in Hr. rewrite Hheld in Hr.
    change (read_lock_bit L) with (dirty_bit L) in Hr.
    fold w in Hr. rewrite Hr. clear Hr.
    rewrite run_bind, is_read_locked_alone by reflexivity.
    cbn [v_ logged]. rewrite Hwd.
    rewrite run_bind, cp_unlock_impl_alone by (reflexivity || exact Hneeds).
    cbn [v_ logged]. rewrite Hwl, Hwh. fold u.
    rewrite run_bind, is_read_locked_alone by reflexivity.
    cbn [v_ logged with_v]. rewrite Hud.
    rewrite run_bind, cp_unlock_impl_alone by (reflexivity || exact Hneeds).
    cbn [v_ logged with_v]. rewrite Hul, run_ret.
    unfold logged. cbn [v_ others chances trace]. reflexivity.
  - split; [exact Hu|]. split; [exact Hul|]. split; [exact Hud|].
    split; [exact Huo|].
    apply (same_outside_trans _ _ w); [exact Hus|].
    apply same_outside_lor_r. unfold w. rewrite Hdirty.
    apply (set_flag_same L k d Fd).
Qed.

Lemma commit_cycle_witness :
  exists u tr',
    (b ← cp_try_lock_impl sto 3;
     r1 ← is_read_locked sto;
     cp_unlock_impl sto 3 (Build_TransItem true true false);;
     r2 ← is_read_locked sto;
     cp_unlock_impl sto 3 (Build_TransItem true true false);;
     mret (b, r1, r2)) (Cell 0x423 [] [] []) =
      inr ((true, true, false), Cell u [] [] tr') /\
    u = unlocked sto (Z.lor 0x423 (dirty_bit sto)).
Proof.
  destruct (commit_cycle sto (Build_TransItem true true false) 3 0x423 [] [])
    as (u & tr' & Hrun & Hu & _).
  - exact sto_well_formed.
  - unfold is_word. simpl. lia.
  - reflexivity.
  - reflexivity.
  - exists u, tr'. split; [exact Hrun | exact Hu].
Defined.

(** X15. Only the holder may take the commit-time lock: on a word that the
    calling thread does not hold, whether unlocked or locked by another
    thread, [cp_try_lock_impl] fails its assertion; and when it returns at
    all it returns true, with the word dirty. *)
Theorem cp_try_lock_impl_needs_holder (L : layout) (threadid : Z) (c : cell) :
  well_formed L -> is_word L (v_ c) ->
  (is_locked_here L (v_ (moved L c)) threadid = false ->
   cp_try_lock_impl L threadid c = inl AssertionFailed) /\
  (forall b c', cp_try_lock_impl L threadid c = inr (b, c') ->
     b = true /\ is_locked_here L (v_ (moved L c)) threadid = true /\
     is_dirty L (v_ c') = true).
Proof.
  intros WF Hv.
  pose proof WF as [k l p d Hmask Hk Hlock _ Hdirty Hl _ Hd _ Hld].
  assert (Fd : placed L k d) by (unfold placed; repeat split; assumption || lia).
  pose proof (cp_try_lock_impl_run L threadid c) as Hr. cbv zeta in Hr.
  cbn [v_ logged] in Hr. split.
  - intros Hno. rewrite Hr, Hno. reflexivity.
  - intros b c' Hrun. rewrite Hr in Hrun.
    destruct (is_locked_here L (v_ (moved L c)) threadid); [|discriminate].
    assert (Hb : b = true) by congruence.
    match type of Hrun with inr (_, ?x) = _ => assert (E : c' = x) by congruence end.
    subst c'. split; [exact Hb|]. split; [reflexivity|].
    cbn [v_ logged with_v]. rewrite (dirty_test L k d Fd Hdirty).
    unfold read_lock_bit. rewrite Hdirty, (set_flag_bits L k d Fd), Z.eqb_refl.
    apply Bool.orb_true_r.
Qed.

Lemma cp_try_lock_impl_needs_holder_witness :
  cp_try_lock_impl sto 4 (Cell 0x423 [] [] []) = inl AssertionFailed.
Proof.
  destruct (cp_try_lock_impl_needs_holder sto 4 (Cell 0x423 [] [] [])) as [H _].
  - exact sto_well_formed.
  - unfold is_word. simpl. lia.
  - apply H. reflexivity.
Defined.

(** X21. A default-constructed version is free.  [TSwissVersion()] is 0,
    or the non-opaque bit alone for an opaque class; with that bit apart
    from the lock and dirty bits the word is neither locked nor dirty, so
    [cp_try_lock_impl] fails its assertion for every thread id,
    [is_read_locked] answers no, and [cp_unlock_impl] loads the word and
    leaves it. *)
Theorem default_version_is_free (L : layout) (Opacity : bool) (item : TransItem)
    (threadid : Z) (coins : list bool) (tr : list event) :
  well_formed L -> needs_unlock item = true ->
  Z.land (nonopaque_bit L) (TransactionTid.lock_bit L) = 0 ->
  Z.land (nonopaque_bit L) (dirty_bit L) = 0 ->
  let w := init_default L Opacity in
  is_locked L w = false /\ is_dirty L w = false /\
  cp_try_lock_impl L threadid (Cell w [] coins tr) = inl AssertionFailed /\
  is_read_locked L (Cell w [] coins tr) = inr (false, Cell w [] coins (tr ++ [Load w])) /\
  cp_unlock_impl L threadid item (Cell w [] coins tr)
    = inr (tt, Cell w [] coins (tr ++ [Load w])).
Proof.
  intros WF Hneeds Hnl Hnd w.
  pose proof WF as [k l p d Hmask Hk Hlock _ Hdirty Hl _ Hd _ Hld].
  assert (Fl : placed L k l) by (unfold placed; repeat split; assumption || lia).
  assert (Hfree : is_locked L w = false).
  { unfold is_locked, w, init_default.
    destruct Opacity; [rewrite Hnl | rewrite Z.land_0_l]; reflexivity. }
  assert (Hclean : is_dirty L w = false).
  { unfold is_dirty, w, init_default.
    destruct Opacity; [rewrite Hnd | rewrite Z.land_0_l]; reflexivity. }
  assert (Hnot : is_locked_here L w threadid = false).
  { destruct (is_locked_here L w threadid) eqn:E; [|reflexivity].
    apply (locked_here_locked L k l Fl Hlock) in E. congruence. }
  split; [exact Hfree|]. split; [exact Hclean|]. split; [|split].
  - pose proof (cp_try_lock_impl_run L threadid (Cell w [] coins tr)) as Hr.
    cbv zeta in Hr. unfold moved, logged in Hr. cbn [v_ others] in Hr.
    rewrite Hnot in Hr. exact Hr.
  - rewrite is_read_locked_alone by reflexivity. cbn [v_]. rewrite Hclean. reflexivity.
  - rewrite cp_unlock_impl_alone by (reflexivity || exact Hneeds).
    cbn [v_]. rewrite Hfree. reflexivity.
Qed.

Lemma default_version_is_free_witness :
  is_locked sto (init_default sto true) = false /\
  cp_try_lock_impl sto 3 (Cell (init_default sto true) [] [] []) = inl AssertionFailed.
Proof.
  destruct (default_version_is_free sto true (Build_TransItem true true false) 3 [] [])
    as (H1 & _ & H3 & _).
  - exact sto_well_formed.
  - reflexivity.
  - reflexivity.
  - reflexivity.
  - split; [exact H1 | exact H3].
Defined.
End TSwissVersionMore.

(** ** More on the contention manager *)
Module ContentionManagerMore.
Import ContentionManager CMFacts ContentionManagerSpec.

(** The tables of a state written with the update functions. *)
Ltac tables :=
  repeat first [ rewrite slots_with_waited | rewrite slots_with_ts
               | rewrite slots_with_slots_eq
               | rewrite slots_with_slots_ne by discriminate ].

(** An entry of a table of a state written with the update functions:
    every update is at index [i], the entry looked up is not. *)
Ltac elsewhere :=
  repeat first [ rewrite slots_with_waited | rewrite slots_with_ts
               | rewrite slots_with_slots ];
  repeat match goal with
         | |- context [decide (?a = ?b)] =>
             destruct (decide (a = b)); [subst|]; try congruence
         end;
  rewrite ?list_lookup_insert_ne by congruence; reflexivity.

(** A call that returns was made for a thread id with a slot. *)
Lemma perform_caller (C : config) (k : call) (s s' : state) :
  sized s -> perform C k s = inr (tt, s') -> 0 <= threadid (caller k) <= 31.
Proof.
  intros Hs Hk.
  destruct (Z_le_dec 0 (threadid (caller k))) as [H0|H0];
    [destruct (Z_le_dec (threadid (caller k)) 31) as [H1|H1]; [lia|]|];
    destruct (outside_tables C (caller k) s Hs ltac:(lia)) as (E1 & E2 & E3);
    destruct k; cbn [perform caller] in *; congruence.
Qed.

(** What one call changes. *)
Lemma perform_frame (C : config) (k : call) (s s' : state) :
  sized s -> perform C k s = inr (tt, s') ->
  sized s' /\
  (forall t j, j <> slot_of (threadid (caller k)) ->
     slots t s' !! j = slots t s !! j) /\
  slots version s' = slots version s /\
  (match k with call_start _ => True | _ => slots aborted s' = slots aborted s end) /\
  (match k with
   | call_on_write _ => ts s' = ts s \/ ts s' = wrap 64 (ts s + 1)
   | _ => ts s' = ts s
   end) /\
  (match k with
   | call_on_rollback _ => exists w, waited s' = waited s ++ [w]
   | _ => waited s' = waited s
   end) /\
  (match k with
   | call_on_rollback _ => slots timestamp s' = slots timestamp s
   | _ => True
   end).
Proof.
  intros Hs Hk. pose proof (perform_caller C k s s' Hs Hk) as Hin.
  unfold slot_of.
  destruct k as [tx|tx|tx]; cbn [perform caller] in *.
  - pose proof (start_run C tx s Hs Hin) as Hr. cbv zeta in Hr.
    rewrite Hr in Hk. clear Hr.
    match type of Hk with inr (tt, ?x) = _ => assert (E : s' = x) by congruence end.
    clear Hk. subst s'.
    split; [destruct (is_restarted tx); repeat apply sized_write; exact Hs|].
    split; [intros t j Hj; destruct (is_restarted tx); elsewhere|].
    split; [destruct (is_restarted tx); tables; reflexivity|].
    split; [exact I|].
    split; [destruct (is_restarted tx); rewrite ?ts_with_slots; reflexivity|].
    split; [destruct (is_restarted tx); rewrite ?waited_with_slots; reflexivity|].
    exact I.
  - destruct (lookup_lt_is_Some_2 (slots write_set_size s) (Z.to_nat (4 * threadid tx)))
      as [w Hw]; [apply valid_lt; [exact Hs | unfold valid, table_size; lia]|].
    destruct (lookup_lt_is_Some_2 (slots timestamp s) (Z.to_nat (4 * threadid tx)))
      as [t0 Ht0]; [apply valid_lt; [exact Hs | unfold valid, table_size; lia]|].
    pose proof (on_write_run C tx s w t0 Hs Hin Hw Ht0) as Hr. cbv zeta in Hr.
    rewrite Hr in Hk. clear Hr.
    match type of Hk with inr (tt, ?x) = _ => assert (E : s' = x) by congruence end.
    clear Hk. subst s'.
    destruct ((t0 =? u128 (MAX_TS C)) && _).
    + split; [apply sized_write, sized_with_ts, sized_write, Hs|].
      split; [intros t j Hj; elsewhere|].
      split; [tables; reflexivity|]. split; [tables; reflexivity|].
      split; [right; rewrite ts_with_slots; reflexivity|].
      split; [|exact I].
      rewrite waited_with_slots. cbn [waited with_ts]. apply waited_with_slots.
    + split; [apply sized_write, Hs|].
      split; [intros t j Hj; elsewhere|].
      split; [tables; reflexivity|]. split; [tables; reflexivity|].
      split; [left; apply ts_with_slots|].
      split; [apply waited_with_slots | exact I].
  - destruct (lookup_lt_is_Some_2 (slots abort_count s) (Z.to_nat (4 * threadid tx)))
      as [a Ha]; [apply valid_lt; [exact Hs | unfold valid, table_size; lia]|].
    destruct (lookup_lt_is_Some_2 (slots seed s) (Z.to_nat (4 * threadid tx)))
      as [sd Hsd]; [apply valid_lt; [exact Hs | unfold valid, table_size; lia]|].
    pose proof (on_rollback_run C tx s a sd Hs Hin Ha Hsd) as Hr. cbv zeta in Hr.
    rewrite Hr in Hk. clear Hr.
    match type of Hk with (if ?c then _ else _) = _ => destruct c end; [discriminate|].
    match type of Hk with inr (tt, ?x) = _ => assert (E : s' = x) by congruence end.
    clear Hk. subst s'.
    destruct (a <? u128 (SUCC_ABORTS_MAX C)).
    + split; [apply sized_with_waited, sized_write, sized_write, Hs|].
      split; [intros t j Hj; elsewhere|].
      split; [tables; reflexivity|]. split; [tables; reflexivity|].
      split; [cbn [ts with_waited]; rewrite !ts_with_slots; reflexivity|].
      split; [|tables; reflexivity].
      eexists. cbn [waited with_waited]. rewrite !waited_with_slots. reflexivity.
    + split; [apply sized_with_waited, sized_write, Hs|].
      split; [intros t j Hj; elsewhere|].
      split; [tables; reflexivity|]. split; [tables; reflexivity|].
      split; [cbn [ts with_waited]; rewrite !ts_with_slots; reflexivity|].
      split; [|tables; reflexivity].
      eexists. cbn [waited with_waited]. rewrite !waited_with_slots. reflexivity.
Qed.

Lemma slot_of_inj (t1 t2 : Z) :
  0 <= t1 -> 0 <= t2 -> slot_of t1 = slot_of t2 -> t1 = t2.
Proof. unfold slot_of. lia. Qed.

(** *** Every call keeps to the slot of its thread *)

(** X16. A call works on the slot of its own thread only.  After any run
    of calls that returns, an entry of any table whose index is not
    [4 * threadid] of one of the callers is what it was: the slot of a
    thread is never changed by the calls of the other threads, the
    padding entries between the slots are never written, and the
    [version] table is not touched at all. *)
Theorem calls_touch_own_slot (C : config) (ks : list call) (s s' : state) :
  sized s -> perform_all C ks s = inr (tt, s') ->
  slots version s' = slots version s /\
  forall t j, Forall (fun k => slot_of (threadid (caller k)) <> j) ks ->
    slots t s' !! j = slots t s !! j.
Proof.
  revert s. induction ks as [|k ks IH]; intros s Hs Hrun.
  - cbn [perform_all] in Hrun. rewrite run_ret in Hrun.
    assert (s' = s) by congruence. subst s'. split; reflexivity.
  - cbn [perform_all] in Hrun. rewrite run_bind in Hrun.
    destruct (perform C k s) as [e|[[] s1]] eqn:Hk; [discriminate|].
    destruct (perform_frame C k s s1 Hs Hk) as (Hs1 & Hframe & Hver & _).
    destruct (IH s1 Hs1 Hrun) as [Hver' Hframe'].
    split; [congruence|].
    intros t j Hall. inversion Hall as [|k' ks' Hk' Hks']; subst.
    rewrite Hframe' by exact Hks'. apply Hframe. congruence.
Qed.

Lemma calls_touch_own_slot_witness :
  slots version (with_slots write_set_size
                   (<[slot_of 3 := 1]> (slots write_set_size initial)) initial)
  = slots version initial.
Proof.
  destruct (calls_touch_own_slot sample [call_on_write (Build_Transaction 3 false)]
              initial
              (with_slots write_set_size
                 (<[slot_of 3 := 1]> (slots write_set_size initial)) initial))
    as [H _].
  - exact sized_initial.
  - vm_compute. reflexivity.
  - exact H.
Defined.

(** *** Timestamps *)

(** One call keeps the timestamps of the started threads apart, as long as
    the counter does not wrap. *)
Lemma perform_stamps (C : config) (k : call) (st : list Z) (s s' : state) :
  sized s -> stamped C st s -> distinct_stamps C st s -> ts s + 1 < 2 ^ 64 ->
  perform C k s = inr (tt, s') ->
  stamped C (st_after k st) s' /\ distinct_stamps C (st_after k st) s' /\
  ts s <= ts s' <= ts s + 1.
Proof.
  intros Hs [Hts Hst] Hdi Hroom Hk.
  pose proof (perform_caller C k s s' Hs Hk) as Hin.
  destruct (perform_frame C k s s' Hs Hk) as (Hs' & Hframe & _ & _ & _ & _ & Hroll).
  set (tk := threadid (caller k)) in *.
  assert (Hother : forall t, 0 <= t <= 31 -> t <> tk ->
            slots timestamp s' !! slot_of t = slots timestamp s !! slot_of t).
  { intros t Ht Hne. apply Hframe. intros E. apply Hne.
    apply slot_of_inj; [lia | lia | exact E]. }
  (* the three ways the slot of the caller can come out *)
  assert (Hcases :
    (st_after k st = st /\
     slots timestamp s' = slots timestamp s /\ ts s' = ts s) \/
    (st_after k st = tk :: st /\
     slots timestamp s' !! slot_of tk = Some (u128 (MAX_TS C)) /\ ts s' = ts s) \/
    (st_after k st = st /\
     slots timestamp s' !! slot_of tk = Some (ts s) /\ ts s' = ts s + 1)).
  { destruct k as [tx|tx|tx]; cbn [perform caller st_after] in *.
    - right; left.
      destruct (start_step C tx s Hs Hin) as (s2 & Hr & _ & _ & Hstamp & _ & _ & Hts2).
      assert (s2 = s') by congruence. subst s2.
      split; [reflexivity|]. split; assumption.
    - destruct (lookup_lt_is_Some_2 (slots write_set_size s) (Z.to_nat (4 * threadid tx)))
        as [w Hw]; [apply valid_lt; [exact Hs | unfold valid, table_size; lia]|].
      destruct (lookup_lt_is_Some_2 (slots timestamp s) (Z.to_nat (4 * threadid tx)))
        as [t0 Ht0]; [apply valid_lt; [exact Hs | unfold valid, table_size; lia]|].
      destruct (on_write_step C tx s w t0 Hs Hin Hw Ht0)
        as (s2 & Hr & _ & _ & Hstamp & Hts2 & Hsame).
      assert (s2 = s') by congruence. subst s2.
      destruct ((t0 =? u128 (MAX_TS C)) && _).
      + right; right. split; [reflexivity|]. split; [exact Hstamp|].
        rewrite Hts2. apply wrap_small. lia.
      + left. split; [reflexivity|].
        split; [apply Hsame; reflexivity | exact Hts2].
    - left. split; [reflexivity|]. split; [exact Hroll|].
      destruct (perform_frame C (call_on_rollback tx) s s' Hs Hk)
        as (_ & _ & _ & _ & Hts2 & _). exact Hts2. }
  destruct Hcases as [(-> & Hsame & Hts')|[(-> & Hmax & Hts')|(-> & Hmint & Hts')]].
  - unfold stamped. rewrite Hts'. split; [|split; [|lia]].
    + split; [exact Hts|]. intros t x Hel Ht. rewrite Hsame. apply Hst; assumption.
    + intros t1 t2 x He1 He2 H1 H2 Hne. rewrite Hsame. apply Hdi; assumption.
  - unfold stamped. rewrite Hts'. split; [|split; [|lia]].
    + split; [exact Hts|]. intros t x Hel Ht Hx.
      destruct (Z.eq_dec t tk) as [->|Hne]; [left; congruence|].
      apply elem_of_cons in Hel as [Hel|Hel]; [contradiction|].
      rewrite Hother in Hx by assumption. apply (Hst t x Hel Ht Hx).
    + intros t1 t2 x He1 He2 H1 H2 Hne Hx1 Hx2.
      destruct (Z.eq_dec t1 tk) as [->|Hn1]; [congruence|].
      destruct (Z.eq_dec t2 tk) as [->|Hn2]; [congruence|].
      apply elem_of_cons in He1 as [He1|He1]; [contradiction|].
      apply elem_of_cons in He2 as [He2|He2]; [contradiction|].
      rewrite Hother in Hx1, Hx2 by assumption.
      apply (Hdi t1 t2 x He1 He2 H1 H2 Hne Hx1 Hx2).
  - unfold stamped. rewrite Hts'. split; [|split; [|lia]].
    + split; [lia|]. intros t x Hel Ht Hx.
      destruct (Z.eq_dec t tk) as [->|Hne].
      * right. assert (x = ts s) by congruence. lia.
      * rewrite Hother in Hx by assumption.
        destruct (Hst t x Hel Ht Hx) as [->|Hlt]; [left; reflexivity | right; lia].
    + intros t1 t2 x He1 He2 H1 H2 Hne Hx1 Hx2.
      destruct (Z.eq_dec t1 tk) as [->|Hn1].
      * assert (x = ts s) by congruence. subst x.
        rewrite Hother in Hx2 by (assumption || congruence).
        destruct (Hst t2 _ He2 H2 Hx2) as [E|Hlt]; [exact E | lia].
      * destruct (Z.eq_dec t2 tk) as [->|Hn2].
        -- assert (x = ts s) by congruence. subst x.
           rewrite Hother in Hx1 by assumption.
           destruct (Hst t1 _ He1 H1 Hx1) as [E|Hlt]; [exact E | lia].
        -- rewrite Hother in Hx1, Hx2 by assumption.
           apply (Hdi t1 t2 x He1 He2 H1 H2 Hne Hx1 Hx2).
Qed.

(** X17. No two threads that have called [start] are given the same
    timestamp.  Let [st] be threads that have started, each holding
    [MAX_TS] or a timestamp drawn from the counter, no two the same drawn
    one; at the program's initial state [st] is empty and this holds of
    the zero-filled tables.  After any run of calls that returns, as long
    as the 64-bit counter does not wrap, the same holds of [st] and the
    threads the run has started: a timestamp two of them share can only be
    [MAX_TS].  The counter never goes down, and goes up by at most one per
    call.  Nothing is said of a thread that never called [start]: its slot
    still holds the 0 the table was filled with, which the first thread to
    be given a timestamp is given too. *)
Theorem timestamps_stay_distinct (C : config) (ks : list call) (st : list Z)
    (s s' : state) :
  sized s -> stamped C st s -> distinct_stamps C st s ->
  ts s + Z.of_nat (length ks) < 2 ^ 64 ->
  perform_all C ks s = inr (tt, s') ->
  stamped C (started ks st) s' /\ distinct_stamps C (started ks st) s' /\
  ts s <= ts s' <= ts s + Z.of_nat (length ks).
Proof.
  revert st s. induction ks as [|k ks IH]; intros st s Hs Hst Hdi Hroom Hrun.
  - cbn [perform_all] in Hrun. rewrite run_ret in Hrun.
    assert (s' = s) by congruence. subst s'.
    split; [exact Hst|]. split; [exact Hdi|]. cbn [length]. lia.
  - cbn [perform_all] in Hrun. rewrite run_bind in Hrun.
    destruct (perform C k s) as [e|[[] s1]] eqn:Hk; [discriminate|].
    cbn [length] in Hroom |- *. cbn [started].
    destruct (perform_stamps C k st s s1 Hs Hst Hdi ltac:(lia) Hk)
      as (Hst1 & Hdi1 & Hts1).
    destruct (perform_frame C k s s1 Hs Hk) as (Hs1 & _).
    destruct (IH (st_after k st) s1 Hs1 Hst1 Hdi1 ltac:(lia) Hrun)
      as (Hst' & Hdi' & Hts').
    split; [exact Hst'|]. split; [exact Hdi'|]. lia.
Qed.

(** From the initial state, threads 3 and 4 start and write up to the
    threshold, thread 3 first: they are given the timestamps 0 and 1. *)
Lemma timestamps_stay_distinct_witness :
  exists s',
    perform_all sample
      ([call_start (Build_Transaction 3 false); call_start (Build_Transaction 4 false)]
       ++ replicate 10 (call_on_write (Build_Transaction 3 false))
       ++ replicate 10 (call_on_write (Build_Transaction 4 false)))
      initial = inr (tt, s') /\
    slots timestamp s' !! slot_of 3 = Some 0 /\
    slots timestamp s' !! slot_of 4 = Some 1 /\
    stamped sample [4; 3] s' /\ distinct_stamps sample [4; 3] s'.
Proof.
  set (ks := [call_start (Build_Transaction 3 false);
              call_start (Build_Transaction 4 false)]
             ++ replicate 10 (call_on_write (Build_Transaction 3 false))
             ++ replicate 10 (call_on_write (Build_Transaction 4 false))).
  destruct (perform_all sample ks initial) as [e|[[] s']] eqn:Hrun;
    [vm_compute in Hrun; discriminate|].
  exists s'. split; [reflexivity|].
  assert (E : slots timestamp s' !! slot_of 3 = Some 0 /\
              slots timestamp s' !! slot_of 4 = Some 1).
  { vm_compute in Hrun.
    match type of Hrun with inr (tt, ?x) = _ => assert (Es : s' = x) by congruence end.
    rewrite Es. split; reflexivity. }
  split; [apply E|]. split; [apply E|].
  destruct (timestamps_stay_distinct sample ks [] initial s') as (H1 & H2 & _).
  - exact sized_initial.
  - split; [reflexivity|]. intros t x Hel. inversion Hel.
  - intros t1 t2 x Hel. inversion Hel.
  - vm_compute. reflexivity.
  - exact Hrun.
  - split; [exact H1 | exact H2].
Defined.

(** *** Back-off *)

(** X18. With a sane configuration the manager never fails and never
    waits longer than its largest window.  From a state whose abort
    counts are within the cap, any run of calls made for thread ids 0..31
    returns; the abort counts are within the cap afterwards; and it has
    waited once per [on_rollback], each time for fewer than
    [SUCC_ABORTS_MAX * WAIT_CYCLES_MULTIPLICATOR] cycles. *)
Theorem calls_never_fail (C : config) (ks : list call) (s : state) :
  sane C -> sized s ->
  Forall (fun a => 0 <= a <= u128 (SUCC_ABORTS_MAX C)) (slots abort_count s) ->
  Forall (fun k => 0 <= threadid (caller k) <= 31) ks ->
  exists s' ws,
    perform_all C ks s = inr (tt, s') /\ sized s' /\
    Forall (fun a => 0 <= a <= u128 (SUCC_ABORTS_MAX C)) (slots abort_count s') /\
    waited s' = waited s ++ ws /\
    length ws = length (List.filter is_rollback ks) /\
    Forall (fun w => 0 <= w < u128 (SUCC_ABORTS_MAX C)
                              * u128 (WAIT_CYCLES_MULTIPLICATOR C)) ws.
Proof.
  intros (Hcap & Hmult & Hroom). revert s.
  induction ks as [|k ks IH]; intros s Hs Hall Hin.
  - exists s, []. cbn [perform_all List.filter length]. rewrite run_ret, app_nil_r.
    repeat apply conj; try reflexivity; try assumption. constructor.
  - inversion Hin as [|k' ks' Hk Hks]; subst.
    assert (Hone : exists s1 w1,
              perform C k s = inr (tt, s1) /\
              waited s1 = waited s ++ w1 /\
              length w1 = (if is_rollback k then 1 else 0)%nat /\
              Forall (fun w => 0 <= w < u128 (SUCC_ABORTS_MAX C)
                                        * u128 (WAIT_CYCLES_MULTIPLICATOR C)) w1).
    { destruct k as [tx|tx|tx]; cbn [perform caller is_rollback] in *.
      - destruct (start_step C tx s Hs Hk) as (s1 & Hr & _).
        destruct (perform_frame C (call_start tx) s s1 Hs Hr)
          as (_ & _ & _ & _ & _ & Hw & _).
        exists s1, []. rewrite app_nil_r.
        split; [exact Hr|]. split; [exact Hw|]. split; [reflexivity | constructor].
      - destruct (lookup_lt_is_Some_2 (slots write_set_size s) (Z.to_nat (4 * threadid tx)))
          as [w Hw]; [apply valid_lt; [exact Hs | unfold valid, table_size; lia]|].
        destruct (lookup_lt_is_Some_2 (slots timestamp s) (Z.to_nat (4 * threadid tx)))
          as [t0 Ht0]; [apply valid_lt; [exact Hs | unfold valid, table_size; lia]|].
        destruct (on_write_step C tx s w t0 Hs Hk Hw Ht0) as (s1 & Hr & _).
        destruct (perform_frame C (call_on_write tx) s s1 Hs Hr)
          as (_ & _ & _ & _ & _ & Hwt & _).
        exists s1, []. rewrite app_nil_r.
        split; [exact Hr|]. split; [exact Hwt|]. split; [reflexivity | constructor].
      - destruct (lookup_lt_is_Some_2 (slots abort_count s) (Z.to_nat (4 * threadid tx)))
          as [a Ha]; [apply valid_lt; [exact Hs | unfold valid, table_size; lia]|].
        destruct (lookup_lt_is_Some_2 (slots seed s) (Z.to_nat (4 * threadid tx)))
          as [sd Hsd]; [apply valid_lt; [exact Hs | unfold valid, table_size; lia]|].
        pose proof (Forall_lookup_1 _ _ _ _ Hall Ha) as Ha_in. cbv beta in Ha_in.
        destruct (on_rollback_step C tx s a sd Hs Hk Ha Hsd Hcap Hmult Hroom Ha_in)
          as (s1 & Hr & _ & _ & Hw & Hlt).
        eexists s1, [_]. split; [exact Hr|]. split; [exact Hw|].
        split; [reflexivity|]. constructor; [|constructor].
        destruct (Z.ltb_spec a (u128 (SUCC_ABORTS_MAX C))); nia. }
    destruct Hone as (s1 & w1 & Hr & Hw1 & Hlen1 & Hall1).
    assert (Hsingle : perform_all C [k] s = inr (tt, s1)).
    { cbn [perform_all]. rewrite run_bind, Hr. reflexivity. }
    destruct (abort_count_capped C [k] s s1 Hs Hall Hsingle) as [Hs1 Hcapped].
    destruct (IH s1 Hs1 Hcapped Hks) as (s' & ws & Hrun & Hs' & Hall' & Hw' & Hlen & Hbound).
    exists s', (w1 ++ ws). cbn [perform_all]. rewrite run_bind, Hr.
    split; [exact Hrun|]. split; [exact Hs'|]. split; [exact Hall'|].
    split; [rewrite Hw', Hw1, app_assoc; reflexivity|].
    split; [|apply Forall_app; split; assumption].
    rewrite length_app, Hlen1, Hlen. cbn [List.filter].
    destruct (is_rollback k); reflexivity.
Qed.

Lemma calls_never_fail_witness :
  exists s' ws,
    perform_all sample
      [call_start (Build_Transaction 3 false);
       call_on_rollback (Build_Transaction 3 false);
       call_on_rollback (Build_Transaction 7 true)] initial = inr (tt, s') /\
    sized s' /\ waited s' = waited initial ++ ws /\
    length ws = 2%nat.
Proof.
  destruct (calls_never_fail sample
              [call_start (Build_Transaction 3 false);
               call_on_rollback (Build_Transaction 3 false);
               call_on_rollback (Build_Transaction 7 true)] initial)
    as (s' & ws & Hrun & Hs' & _ & Hw & Hlen & _).
  - unfold sane. vm_compute. repeat split.
  - exact sized_initial.
  - change (slots abort_count initial) with (replicate table_size 0).
    apply Forall_replicate. vm_compute. split; discriminate.
  - repeat constructor; cbn; lia.
  - exists s', ws. split; [exact Hrun|]. split; [exact Hs'|].
    split; [exact Hw | exact Hlen].
Defined.

(** X19. The back-off window survives a restart and collapses on a fresh
    start.  After [n] rollbacks, a [start] of the same thread and one more
    rollback, the abort count is the old one counted up by [n + 1] and
    capped when the transaction was restarted, and 1 when it was started
    afresh; the last wait is drawn below that count times
    [WAIT_CYCLES_MULTIPLICATOR]. *)
Theorem backoff_survives_restart (C : config) (tx : Transaction) (restarted : bool)
    (n : nat) (s : state) (a : Z) :
  sane C -> sized s -> 0 <= threadid tx <= 31 ->
  slots abort_count s !! slot_of (threadid tx) = Some a ->
  0 <= a <= u128 (SUCC_ABORTS_MAX C) ->
  let cap := u128 (SUCC_ABORTS_MAX C) in
  let a' := if restarted then Z.min (a + Z.of_nat n + 1) cap else 1 in
  exists s' ws w,
    (repeat_op n (on_rollback C tx);;
     start C (Build_Transaction (threadid tx) restarted);;
     on_rollback C tx) s = inr (tt, s') /\
    slots abort_count s' !! slot_of (threadid tx) = Some a' /\
    waited s' = waited s ++ ws ++ [w] /\ length ws = n /\
    0 <= w < a' * u128 (WAIT_CYCLES_MULTIPLICATOR C).
Proof.
  intros (Hcap & Hmult & Hroom) Hs Hin Ha Hbound cap a'. unfold slot_of in *.
  destruct (on_rollback_many C tx n s a Hs Hin Ha Hcap Hmult Hroom Hbound)
    as (s1 & ws & Hr1 & Hs1 & Ha1 & Hw1 & Hlen & _).
  set (tx' := Build_Transaction (threadid tx) restarted).
  destruct (start_step C tx' s1 Hs1 Hin) as (s2 & Hr2 & Hs2 & _ & _ & _ & Hac & _).
  destruct (perform_frame C (call_start tx') s1 s2 Hs1 Hr2)
    as (_ & _ & _ & _ & _ & Hw2 & _).
  cbn [threadid is_restarted tx'] in Hac.
  set (a2 := if restarted then Z.min (a + Z.of_nat n) cap else 0).
  assert (Ha2 : slots abort_count s2 !! Z.to_nat (4 * threadid tx) = Some a2).
  { rewrite Hac. unfold a2. destruct restarted; [exact Ha1|].
    apply list_lookup_insert_eq. apply valid_lt; [exact Hs1 | unfold valid, table_size; lia]. }
  assert (Hb2 : 0 <= a2 <= cap) by (unfold a2, cap in *; destruct restarted; lia).
  destruct (lookup_lt_is_Some_2 (slots seed s2) (Z.to_nat (4 * threadid tx)))
    as [sd Hsd]; [apply valid_lt; [exact Hs2 | unfold valid, table_size; lia]|].
  destruct (on_rollback_step C tx s2 a2 sd Hs2 Hin Ha2 Hsd Hcap Hmult Hroom Hb2)
    as (s3 & Hr3 & _ & Ha3 & Hw3 & Hlt).
  assert (Ea : (if a2 <? cap then a2 + 1 else a2) = a').
  { unfold a', a2, cap in *.
    destruct restarted;
      match goal with |- context [?x <? ?y] => destruct (Z.ltb_spec x y) end; lia. }
  fold cap in Ha3, Hw3, Hlt. rewrite Ea in Ha3, Hw3, Hlt.
  eexists s3, ws, _.
  split; [rewrite run_bind, Hr1, run_bind, Hr2; exact Hr3|].
  split; [exact Ha3|].
  split; [rewrite Hw3, Hw2, Hw1, <- app_assoc; reflexivity|].
  split; [exact Hlen | exact Hlt].
Qed.

Lemma backoff_survives_restart_witness :
  exists s' ws w,
    (repeat_op 3 (on_rollback sample (Build_Transaction 3 false));;
     start sample (Build_Transaction 3 true);;
     on_rollback sample (Build_Transaction 3 false)) initial = inr (tt, s') /\
    slots abort_count s' !! slot_of 3 = Some (Z.min (0 + Z.of_nat 3 + 1) 10) /\
    waited s' = waited initial ++ ws ++ [w].
Proof.
  destruct (backoff_survives_restart sample (Build_Transaction 3 false) true 3
              initial 0)
    as (s' & ws & w & Hrun & Ha & Hw & _).
  - unfold sane. vm_compute. repeat split.
  - exact sized_initial.
  - cbn. lia.
  - reflexivity.
  - vm_compute. split; discriminate.
  - exists s', ws, w. split; [exact Hrun|]. split; [exact Ha | exact Hw].
Defined.

(** X20. An empty back-off window is a division by zero.  The wait is
    drawn modulo [abort_count * WAIT_CYCLES_MULTIPLICATOR]: when the
    multiplicator is 0 as a [uint128_t] every [on_rollback] divides by
    zero, and so does the first one after a fresh start when
    [SUCC_ABORTS_MAX] is 0, because the count is then never raised. *)
Theorem on_rollback_empty_window (C : config) (tx : Transaction) (s : state) :
  sized s -> 0 <= threadid tx <= 31 ->
  (u128 (WAIT_CYCLES_MULTIPLICATOR C) = 0 ->
   on_rollback C tx s = inl DivisionByZero) /\
  (u128 (SUCC_ABORTS_MAX C) = 0 ->
   slots abort_count s !! slot_of (threadid tx) = Some 0 ->
   on_rollback C tx s = inl DivisionByZero).
Proof.
  intros Hs Hin. unfold slot_of.
  destruct (lookup_lt_is_Some_2 (slots abort_count s) (Z.to_nat (4 * threadid tx)))
    as [a Ha]; [apply valid_lt; [exact Hs | unfold valid, table_size; lia]|].
  destruct (lookup_lt_is_Some_2 (slots seed s) (Z.to_nat (4 * threadid tx)))
    as [sd Hsd]; [apply valid_lt; [exact Hs | unfold valid, table_size; lia]|].
  pose proof (on_rollback_run C tx s a sd Hs Hin Ha Hsd) as Hr. cbv zeta in Hr.
  split.
  - intros Hzero. rewrite Hr, Hzero, Z.mul_0_r. reflexivity.
  - intros Hzero Ha0. assert (a = 0) by congruence. subst a.
    rewrite Hr, Hzero. cbn [Z.ltb Z.compare Z.mul]. reflexivity.
Qed.

Lemma on_rollback_empty_window_witness :
  on_rollback (Config (2 ^ 32 - 1) 10 10 0 (rand_r sample))
    (Build_Transaction 3 false) initial = inl DivisionByZero.
Proof.
  destruct (on_rollback_empty_window (Config (2 ^ 32 - 1) 10 10 0 (rand_r sample))
              (Build_Transaction 3 false) initial) as [H _].
  - exact sized_initial.
  - cbn. lia.
  - apply H. reflexivity.
Defined.

End ContentionManagerMore.
